(** * Verification of the market plugin's installer service
    (plugins/market/src/node/installer.ts)

    The installer keeps the declared dependencies of a project (the
    manifest), a cache of the versions published on the registry, and a
    table of fetch tasks; it rewrites the manifest, runs the package
    manager when needed and asks the loader for a reload.

    The TypeScript code is embedded shallowly:
    - a JS object used as an ordered dictionary is an association list
      in enumeration order ([Dict]); the three name-indexed tables whose
      order is never observed ([pkgTasks], [fullCache], [tempCache]) are
      finite maps;
    - promises live in a heap ([promises]) and are referred to by index,
      so that two holders of one task share its outcome;
    - effects on the outside (file write, network request, spawned
      process, log lines, loader and console signals) are recorded as a
      list of [Event]s;
    - functions of other packages (semver, Scanner, JSON, localeCompare)
      and the decoding of a [Buffer] are parameters;
    - a child process delivers bytes, and ends with an exit code, with
      a signal, or without having started. *)

From Stdlib Require Import ZArith String Ascii List Bool Sorted Lia.
From stdpp Require Import base gmap strings list sorting.
Import ListNotations.
Local Open Scope Z_scope.

(** ** JavaScript values *)

(** A string is truthy when it is not empty; an optional value that is
    absent ([undefined]) is falsy. *)
Definition truthy_string (s : string) : bool :=
  match s with EmptyString => false | String _ _ => true end.

Definition truthy_opt_string (o : option string) : bool :=
  match o with Some s => truthy_string s | None => false end.

Definition truthy_opt_bool (o : option bool) : bool :=
  match o with Some b => b | None => false end.

(** [a === b] on optional strings. *)
Definition opt_string_eqb (a b : option string) : bool :=
  match a, b with
  | Some x, Some y => String.eqb x y
  | None, None => true
  | _, _ => false
  end.

(** [a >= b] on strings: comparison of the code units, left to right. *)
Definition js_string_geb (a b : string) : bool := String.leb b a.

(** ** Property names of plain objects

    A plain object ([{}]) inherits the properties of [Object.prototype]:
    a lookup [o[k]] of a key that the object does not own finds them.
    And the keys that are array indices come first when an object is
    enumerated, in numeric order, whatever the order in which they were
    added.  The dictionaries and tables below stand for objects none of
    whose keys is of these two kinds. *)
Definition Object_prototype_keys : list string :=
  ["constructor"; "__defineGetter__"; "__defineSetter__"; "hasOwnProperty";
   "__lookupGetter__"; "__lookupSetter__"; "isPrototypeOf"; "propertyIsEnumerable";
   "toString"; "valueOf"; "__proto__"; "toLocaleString"].

Definition inherited_key (k : string) : bool :=
  existsb (String.eqb k) Object_prototype_keys.

Definition is_digit (c : ascii) : bool :=
  ((48 <=? N_of_ascii c) && (N_of_ascii c <=? 57))%N.

Fixpoint all_digits (s : string) : bool :=
  match s with
  | EmptyString => true
  | String c s' => is_digit c && all_digits s'
  end.

(** A key written with decimal digits only; the array indices are among
    these. *)
Definition numeric_key (k : string) : bool := truthy_string k && all_digits k.

Definition ordinary_key (k : string) : bool :=
  negb (inherited_key k) && negb (numeric_key k).

(** ** Ordered dictionaries

    The keys are package names and version strings; on ordinary keys
    the enumeration order of the object is the order in which the keys
    were added. *)

Section Dict.
Context {V : Type}.

Definition Dict := list (string * V).

(** [d[k]] *)
Fixpoint dict_get (d : Dict) (k : string) : option V :=
  match d with
  | [] => None
  | (k', v) :: d' => if String.eqb k' k then Some v else dict_get d' k
  end.

(** [d[k] = v]: an existing key keeps its place, a new one goes last. *)
Fixpoint dict_set (d : Dict) (k : string) (v : V) : Dict :=
  match d with
  | [] => [(k, v)]
  | (k', v') :: d' =>
      if String.eqb k' k then (k', v) :: d' else (k', v') :: dict_set d' k v
  end.

(** [delete d[k]] *)
Fixpoint dict_delete (d : Dict) (k : string) : Dict :=
  match d with
  | [] => []
  | (k', v') :: d' =>
      if String.eqb k' k then dict_delete d' k else (k', v') :: dict_delete d' k
  end.

(** [Object.keys(d)], also the order of [for (const k in d)]. *)
Definition dict_keys (d : Dict) : list string := map fst d.

(** [Object.fromEntries(entries)] *)
Definition Object_fromEntries (entries : list (string * V)) : Dict :=
  fold_left (fun d e => dict_set d (fst e) (snd e)) entries [].
End Dict.
Arguments Dict V : clear implicits.

(** [valueMap(d, f)] of cosmokit: same keys, same order. *)
Definition valueMap {V W : Type} (d : Dict V) (f : V -> string -> W) : Dict W :=
  map (fun e => (fst e, f (snd e) (fst e))) d.

(** ** [Array.prototype.sort] with a comparison function

    The sort is stable; it is given here as an insertion sort, which
    every stable sort agrees with when the comparison is consistent. *)
Section Sort.
Context {A : Type} (cmp : A -> A -> Z).

Fixpoint js_insert (x : A) (l : list A) : list A :=
  match l with
  | [] => [x]
  | y :: l' => if 0 <? cmp x y then y :: js_insert x l' else x :: y :: l'
  end.

Fixpoint js_sort (l : list A) : list A :=
  match l with
  | [] => []
  | x :: l' => js_insert x (js_sort l')
  end.
End Sort.

(** ** Version cache: [getVersions] *)

(** The fields of a registry record that the installer reads. *)
Record RemotePackage := {
  version : string;
  peerDependencies : option string;
  peerDependenciesMeta : option string;
  deprecated : option string;
}.

(** [pick(item, ['peerDependencies', 'peerDependenciesMeta', 'deprecated'])] *)
Record VersionMeta := {
  meta_peerDependencies : option string;
  meta_peerDependenciesMeta : option string;
  meta_deprecated : option string;
}.

Definition pick (item : RemotePackage) : VersionMeta :=
  {| meta_peerDependencies := peerDependencies item;
     meta_peerDependenciesMeta := peerDependenciesMeta item;
     meta_deprecated := deprecated item |}.

Definition VersionMap := Dict VersionMeta.

Section GetVersions.
(** [compare] of semver: negative, zero or positive.  The library
    throws on a string that is not a version; the parameter is total. *)
Variable compare : string -> string -> Z.

Definition getVersions (versions : list RemotePackage) : VersionMap :=
  Object_fromEntries
    (js_sort (fun x y => compare (fst y) (fst x))
       (map (fun item => (version item, pick item)) versions)).
End GetVersions.

(** A reference comparison for examples: semver precedence on versions
    written [MAJOR.MINOR.PATCH] with an optional [+build] suffix.  The
    three numbers are compared in turn and the build metadata is
    ignored, as semver prescribes. *)
Definition digit_of (c : ascii) : option N :=
  let n := N_of_ascii c in
  if ((48 <=? n) && (n <=? 57))%N then Some (n - 48)%N else None.

Fixpoint read_number (s : string) (acc : N) : N * string :=
  match s with
  | EmptyString => (acc, EmptyString)
  | String c s' =>
      match digit_of c with
      | Some d => read_number s' (10 * acc + d)%N
      | None => (acc, s)
      end
  end.

Definition skip_dot (s : string) : string :=
  match s with
  | String "."%char s' => s'
  | _ => s
  end.

Definition semver_core (s : string) : N * N * N :=
  let '(major, r1) := read_number s 0%N in
  let '(minor, r2) := read_number (skip_dot r1) 0%N in
  let '(patch, _) := read_number (skip_dot r2) 0%N in
  (major, minor, patch).

Definition Z_of_comparison (c : comparison) : Z :=
  match c with Lt => -1 | Eq => 0 | Gt => 1 end.

Definition core_compare (a b : N * N * N) : comparison :=
  let '(a1, a2, a3) := a in
  let '(b1, b2, b3) := b in
  match N.compare a1 b1 with
  | Eq => match N.compare a2 b2 with
          | Eq => N.compare a3 b3
          | c => c
          end
  | c => c
  end.

Definition semver_compare (a b : string) : Z :=
  Z_of_comparison (core_compare (semver_core a) (semver_core b)).

(** ** Process runner: line buffering and log routing *)

Definition newline : ascii := "010"%char.

(** [s.split('\n')]: never empty, the last element is what follows the
    last line break. *)
Fixpoint split_lines (s : string) : list string :=
  match s with
  | EmptyString => [EmptyString]
  | String c s' =>
      if Ascii.eqb c newline then EmptyString :: split_lines s'
      else match split_lines s' with
           | [] => [String c EmptyString]
           | h :: t => String c h :: t
           end
  end.

(** What a ['data'] event carries: the bytes of a [Buffer]. *)
Definition Buffer := list Byte.byte.

Section Buffering.
(** [data.toString()]: the text that the bytes of one delivery decode
    to, each delivery on its own. *)
Variable Buffer_toString : Buffer -> string.

(** One ['data'] event of a stream: the delivery is decoded, the
    pending fragment is put in front, the text is split, the last piece
    becomes the new pending fragment ([lines.pop()]) and the others are
    the lines to process. *)
Definition on_data (pending : string) (data : Buffer) : list string * string :=
  let lines := split_lines (pending +:+ Buffer_toString data) in
  (List.removelast lines, List.last lines EmptyString).

(** The lines processed over a sequence of deliveries on one stream. *)
Fixpoint feed (pending : string) (chunks : list Buffer) : list string * string :=
  match chunks with
  | [] => ([], pending)
  | data :: rest =>
      let '(lines, pending') := on_data pending data in
      let '(more, final) := feed pending' rest in
      (lines ++ more, final)
  end.
End Buffering.

(** A reference decoder for the examples: UTF-8 texts of characters of
    one or two bytes.  A text is kept in its UTF-8 form; a byte that
    cannot be decoded (a first byte with no continuation byte after it
    in the same delivery, a continuation byte with no first byte) becomes
    the replacement character U+FFFD, here the bytes EF BF BD. *)
Definition replacement_character : string :=
  String "239"%char (String "191"%char (String "189"%char EmptyString)).

Definition is_continuation_byte (b : Byte.byte) : bool :=
  ((128 <=? Byte.to_N b) && (Byte.to_N b <=? 191))%N.

Definition is_two_byte_lead (b : Byte.byte) : bool :=
  ((194 <=? Byte.to_N b) && (Byte.to_N b <=? 223))%N.

Fixpoint utf8_decode (bytes : Buffer) : string :=
  match bytes with
  | [] => EmptyString
  | b :: rest =>
      if (Byte.to_N b <? 128)%N then String (ascii_of_byte b) (utf8_decode rest)
      else if is_two_byte_lead b then
        match rest with
        | c :: rest' =>
            if is_continuation_byte c
            then String (ascii_of_byte b) (String (ascii_of_byte c) (utf8_decode rest'))
            else replacement_character +:+ utf8_decode rest
        | [] => replacement_character
        end
      else replacement_character +:+ utf8_decode rest
  end.

Inductive Stream := Stdout | Stderr.

Definition Stream_eqb (a b : Stream) : bool :=
  match a, b with
  | Stdout, Stdout | Stderr, Stderr => true
  | _, _ => false
  end.

(** What is handed to the logger: a text, or a caught error object. *)
Inductive LogArg :=
| LogText (s : string)
| LogError.

Record YarnLog := { log_type : string; log_data : string }.

(** [levelMap[type] ?? 'info']: the level whose method of the logger is
    called.  [levelMap] is a plain object: for a [type] that names a
    property of [Object.prototype] the lookup gives that property, which
    names no method of the logger ([None]), and the call throws. *)
Definition levelMap (type : string) : option string :=
  if String.eqb type "info" then Some "info"
  else if String.eqb type "warning" then Some "debug"
  else if String.eqb type "error" then Some "warn"
  else if inherited_key type then None
  else Some "info".

Inductive Event :=
| EvLog (level : string) (arg : LogArg)          (* logger[level](arg) *)
| EvWriteFile (dependencies : Dict string)       (* fsp.writeFile of the manifest *)
| EvSpawn (command : string) (args : list string)
| EvHttpGet (name : string)                      (* this.http.get(`/${name}`) *)
| EvFlushData                                    (* this.flushData() *)
| EvBroadcast (delta : list string)              (* console.broadcast('market/registry', tempCache) *)
| EvFullReload                                   (* this.ctx.loader.fullReload() *)
| EvRefreshData.                                 (* this.refreshData() *)

Definition is_spawn (e : Event) : bool :=
  match e with EvSpawn _ _ => true | _ => false end.
Definition is_write (e : Event) : bool :=
  match e with EvWriteFile _ => true | _ => false end.
Definition is_reload (e : Event) : bool :=
  match e with EvFullReload => true | _ => false end.
Definition is_fetch_of (name : string) (e : Event) : bool :=
  match e with EvHttpGet n => String.eqb n name | _ => false end.

Section Lines.
(** [JSON.parse(line)] destructured as [{ type, data }]; [None] when
    it throws. *)
Variable JSON_parse : string -> option YarnLog.
Variable Buffer_toString : Buffer -> string.

Definition stderr_line (line : string) : list Event :=
  [EvLog "warn" (LogText line)].

Definition starts_with_brace (line : string) : bool :=
  match line with
  | String c _ => Ascii.eqb c "{"%char
  | EmptyString => false
  end.

Definition stdout_line (useJson : bool) (line : string) : list Event :=
  if negb useJson || negb (starts_with_brace line) then
    [EvLog "info" (LogText line)]
  else
    match JSON_parse line with
    | Some log =>
        match levelMap (log_type log) with
        | Some level => [EvLog level (LogText (log_data log))]
        | None => [EvLog "warn" (LogText line); EvLog "warn" LogError]
        end
    | None => [EvLog "warn" (LogText line); EvLog "warn" LogError]
    end.

Definition log_line (useJson : bool) (sl : Stream * string) : list Event :=
  match fst sl with
  | Stdout => stdout_line useJson (snd sl)
  | Stderr => stderr_line (snd sl)
  end.

(** The two handlers over the deliveries of a child process, each
    with its own pending fragment; the result lists the lines handed
    to the per-line code, in order. *)
Fixpoint handle_data (stdout stderr : string) (deliveries : list (Stream * Buffer))
  : list (Stream * string) :=
  match deliveries with
  | [] => []
  | (Stdout, data) :: rest =>
      let '(lines, stdout') := on_data Buffer_toString stdout data in
      map (pair Stdout) lines ++ handle_data stdout' stderr rest
  | (Stderr, data) :: rest =>
      let '(lines, stderr') := on_data Buffer_toString stderr data in
      map (pair Stderr) lines ++ handle_data stdout stderr' rest
  end.
End Lines.

(** ** The installer service *)

Record Dependency := {
  request : string;
  resolved : option string;
  workspace : option bool;
  invalid : option bool;
  latest : option string;
}.

(** What [loadManifest(name)] returns: [meta.version] and
    [meta.$workspace]. *)
Record LocalPackage := {
  local_version : option string;
  dollar_workspace : bool;
}.

(** [require.resolve(name) in require.cache], or [require.resolve]
    throwing. *)
Inductive ModuleStatus := ResolveThrows | NotInCache | InCache.

(** What the service observes of the file system, the registry and the
    module system.  [loadManifest w name = None] when [loadManifest]
    throws; [http_get w name] is [Object.values(registry.versions)] of
    the response, [None] when the request or its decoding fails. *)
Record World := {
  loadManifest : string -> option LocalPackage;
  http_get : string -> option (list RemotePackage);
  require_cache : string -> ModuleStatus;
}.

(** A run of the package manager: what it writes, how it ends, and the
    world it leaves behind.  It ends with the ['exit'] event, whose code
    is a number when the process exits by itself and [null] when a
    signal ends it, or with the ['error'] event when it cannot be
    started. *)
Inductive ProcOutcome := Exited (code : Z) | FailedToStart | Killed.

Record ChildProcess := {
  deliveries : list (Stream * Buffer);
  outcome : ProcOutcome;
  after : World;
}.

Record Agent := { agent_name : string; agent_version : string }.

(** The parts of the service that no method assigns. *)
Record Config := {
  config_endpoint : option string;   (* this.config.endpoint *)
  endpoint : string;                 (* this.endpoint *)
  agent : option Agent;              (* which() *)
}.

(** A fetch task: pending on the request for [name], or resolved. *)
Inductive Promise :=
| Pending (name : string)
| Resolved (value : option VersionMap).

Record Installer := {
  manifest_dependencies : Dict string;     (* this.manifest.dependencies *)
  fullCache : gmap string VersionMap;
  tempCache : gmap string VersionMap;
  pkgTasks : gmap string nat;              (* name -> index in [promises] *)
  promises : list Promise;
  depTask : option (Dict Dependency);
}.

Definition with_manifest (d : Dict string) (st : Installer) : Installer :=
  {| manifest_dependencies := d; fullCache := fullCache st;
     tempCache := tempCache st; pkgTasks := pkgTasks st;
     promises := promises st; depTask := depTask st |}.

Definition with_caches (full temp : gmap string VersionMap) (st : Installer) : Installer :=
  {| manifest_dependencies := manifest_dependencies st; fullCache := full;
     tempCache := temp; pkgTasks := pkgTasks st;
     promises := promises st; depTask := depTask st |}.

Definition with_tasks (tasks : gmap string nat) (ps : list Promise) (st : Installer) : Installer :=
  {| manifest_dependencies := manifest_dependencies st; fullCache := fullCache st;
     tempCache := tempCache st; pkgTasks := tasks;
     promises := ps; depTask := depTask st |}.

Definition with_depTask (d : option (Dict Dependency)) (st : Installer) : Installer :=
  {| manifest_dependencies := manifest_dependencies st; fullCache := fullCache st;
     tempCache := tempCache st; pkgTasks := pkgTasks st;
     promises := promises st; depTask := d |}.

(** The three assignments at the head of [refresh]. *)
Definition cleared (st : Installer) : Installer :=
  with_tasks ∅ (promises st) (with_caches ∅ ∅ st).

Section Service.
Variable compare : string -> string -> Z.          (* semver *)
Variable valid : string -> bool.                   (* semver: [valid(v)] is not null *)
Variable satisfies : string -> string -> bool.     (* semver, includePrerelease *)
Variable localeCompare : string -> string -> Z.
Variable isPlugin : string -> bool.                (* Scanner.isPlugin *)
Variable isCompatible : RemotePackage -> bool.     (* Scanner.isCompatible('4', remote) *)
Variable JSON_parse : string -> option YarnLog.
Variable Buffer_toString : Buffer -> string.

(** *** Fetch tasks *)

(** [_getPackage(name)] up to its [await]: the request is sent and a
    pending promise is returned. *)
Definition _getPackage_start (name : string) (st : Installer) : nat * Installer * list Event :=
  let pid := length (promises st) in
  (pid, with_tasks (pkgTasks st) (promises st ++ [Pending name]) st, [EvHttpGet name]).

(** [_getPackage(name)] from its [await] on, with the response. *)
Definition _getPackage_resume (pid : nat) (name : string)
    (response : option (list RemotePackage)) (st : Installer)
  : option VersionMap * Installer * list Event :=
  match response with
  | Some versions =>
      let vm := getVersions compare
                  (List.filter (fun remote => negb (isPlugin name) || isCompatible remote)
                     versions) in
      let st1 := with_caches (<[name := vm]> (fullCache st)) (<[name := vm]> (tempCache st)) st in
      (Some vm,
       with_tasks (pkgTasks st1) (<[pid := Resolved (Some vm)]> (promises st1)) st1,
       [EvFlushData])
  | None =>
      (None,
       with_tasks (pkgTasks st) (<[pid := Resolved None]> (promises st)) st,
       [EvLog "warn" LogError])
  end.

(** [getPackage(name)]: [this.pkgTasks[name] ||= this._getPackage(name)],
    for a [name] that is an ordinary key. *)
Definition getPackage (name : string) (st : Installer) : nat * Installer * list Event :=
  match pkgTasks st !! name with
  | Some pid => (pid, st, [])
  | None =>
      let '(pid, st1, ev) := _getPackage_start name st in
      (pid, with_tasks (<[name := pid]> (pkgTasks st1)) (promises st1) st1, ev)
  end.

Definition setPackage (name : string) (versions : list RemotePackage) (st : Installer)
  : Installer * list Event :=
  let vm := getVersions compare versions in
  let st1 := with_caches (<[name := vm]> (fullCache st)) (<[name := vm]> (tempCache st)) st in
  let pid := length (promises st1) in
  (with_tasks (<[name := pid]> (pkgTasks st1)) (promises st1 ++ [Resolved (Some vm)]) st1,
   [EvFlushData]).

(** The throttled callback behind [flushData].  A call of [flushData]
    is recorded as [EvFlushData]; the throttle runs the callback at that
    call or later, and the run is a step of its own ([OpFlush]). *)
Definition flush (st : Installer) : Installer * list Event :=
  (with_caches (fullCache st) ∅ st, [EvBroadcast (map fst (map_to_list (tempCache st)))]).

(** What can happen to the service between two turns of the event
    loop: a call of a method, the arrival of a response for a pending
    task, the throttle timer firing, an invalidation. *)
Inductive Op :=
| OpGetPackage (name : string)
| OpSetPackage (name : string) (versions : list RemotePackage)
| OpSettle (pid : nat) (response : option (list RemotePackage))
| OpFlush
| OpInvalidate.

Definition step (op : Op) (st : Installer) : Installer * list Event :=
  match op with
  | OpGetPackage name => let '(_, st', ev) := getPackage name st in (st', ev)
  | OpSetPackage name versions => setPackage name versions st
  | OpSettle pid response =>
      match promises st !! pid with
      | Some (Pending name) =>
          let '(_, st', ev) := _getPackage_resume pid name response st in (st', ev)
      | _ => (st, [])
      end
  | OpFlush => flush st
  | OpInvalidate => (cleared st, [])
  end.

Fixpoint run (ops : list Op) (st : Installer) : Installer * list Event :=
  match ops with
  | [] => (st, [])
  | op :: rest =>
      let '(st1, ev1) := step op st in
      let '(st2, ev2) := run rest st1 in
      (st2, ev1 ++ ev2)
  end.

(** [await this.getPackage(name)] when nothing else is interleaved:
    a pending task is settled with the registry's answer. *)
Definition await_getPackage (w : World) (name : string) (st : Installer)
  : option VersionMap * Installer * list Event :=
  let '(pid, st1, ev1) := getPackage name st in
  match promises st1 !! pid with
  | Some (Pending n) =>
      let '(v, st2, ev2) := _getPackage_resume pid n (http_get w n) st1 in
      (v, st2, ev1 ++ ev2)
  | Some (Resolved v) => (v, st1, ev1)
  | None => (None, st1, ev1)
  end.

(** *** Dependency snapshot *)

(** [request.replace(/^[~^]/, '')] *)
Definition normalize_request (request : string) : string :=
  match request with
  | String c rest =>
      if Ascii.eqb c "~"%char || Ascii.eqb c "^"%char then rest else request
  | EmptyString => request
  end.

Definition new_dependency (request : string) : Dependency :=
  {| request := request; resolved := None; workspace := None;
     invalid := None; latest := None |}.

Definition set_local (meta : LocalPackage) (dep : Dependency) : Dependency :=
  {| request := request dep; resolved := local_version meta;
     workspace := Some (dollar_workspace meta);
     invalid := invalid dep; latest := latest dep |}.

Definition set_invalid (dep : Dependency) : Dependency :=
  {| request := request dep; resolved := resolved dep; workspace := workspace dep;
     invalid := Some true; latest := latest dep |}.

Definition set_latest (v : option string) (dep : Dependency) : Dependency :=
  {| request := request dep; resolved := resolved dep; workspace := workspace dep;
     invalid := invalid dep; latest := v |}.

(** The function mapped over the names by [_getDeps]. *)
Definition getDeps_entry (w : World) (name : string) (dep : Dependency) (st : Installer)
  : Dependency * Installer * list Event :=
  let loaded := loadManifest w name in
  let dep1 := match loaded with
              | Some meta => set_local meta dep
              | None => dep
              end in
  if match loaded with Some meta => dollar_workspace meta | None => false end
  then (dep1, st, [])
  else
    let dep2 := if negb (valid (request dep1)) then set_invalid dep1 else dep1 in
    let '(versions, st', ev) := await_getPackage w name st in
    let dep3 := match versions with
                | Some vm => set_latest (head (dict_keys vm)) dep2
                | None => dep2
                end in
    (dep3, st', ev).

Fixpoint getDeps_loop (w : World) (entries : Dict Dependency) (st : Installer)
  : Dict Dependency * Installer * list Event :=
  match entries with
  | [] => ([], st, [])
  | (name, dep) :: rest =>
      let '(dep', st1, ev1) := getDeps_entry w name dep st in
      let '(rest', st2, ev2) := getDeps_loop w rest st1 in
      ((name, dep') :: rest', st2, ev1 ++ ev2)
  end.

Definition _getDeps (w : World) (st : Installer) : Dict Dependency * Installer * list Event :=
  getDeps_loop w
    (valueMap (manifest_dependencies st)
       (fun request _ => new_dependency (normalize_request request)))
    st.

(** [getDeps()]: [this.depTask ||= this._getDeps()] *)
Definition getDeps (w : World) (st : Installer) : Dict Dependency * Installer * list Event :=
  match depTask st with
  | Some d => (d, st, [])
  | None =>
      let '(d, st', ev) := _getDeps w st in
      (d, with_depTask (Some d) st', ev)
  end.

Definition refresh (w : World) (refresh_flag : bool) (st : Installer)
  : Installer * list Event :=
  let '(d, st', ev) := _getDeps w (cleared st) in
  (with_depTask (Some d) st',
   (if refresh_flag then [EvRefreshData] else []) ++ ev).

(** *** Running the package manager *)

Definition agent_name_or_npm (cfg : Config) : string :=
  match agent cfg with
  | Some a => agent_name a
  | None => "npm"
  end.

(** [name === 'yarn' && this.agent.version >= '2'] *)
Definition useJson (cfg : Config) : bool :=
  String.eqb (agent_name_or_npm cfg) "yarn" &&
  match agent cfg with
  | Some a => js_string_geb (agent_version a) "2"
  | None => false
  end.

Definition exec_args (cfg : Config) (args : list string) : list string :=
  let args1 := if negb (String.eqb (agent_name_or_npm cfg) "yarn")
               then "install" :: args else args in
  if useJson cfg then args1 ++ ["--json"] else args1.

(** The value the promise of [exec] is resolved with: [resolve(code)] on
    ['exit'], [resolve(-1)] on ['error']; [None] is [null]. *)
Definition exit_code (child : ChildProcess) : option Z :=
  match outcome child with
  | Exited code => Some code
  | FailedToStart => Some (-1)
  | Killed => None
  end.

(** [if (code)]: a number other than 0. *)
Definition truthy_code (code : option Z) : bool :=
  match code with
  | Some c => negb (c =? 0)
  | None => false
  end.

Definition exec (cfg : Config) (child : ChildProcess) (args : list string)
  : option Z * list Event :=
  (exit_code child,
   EvSpawn (agent_name_or_npm cfg) (exec_args cfg args)
     :: flat_map (log_line JSON_parse (useJson cfg))
          (handle_data Buffer_toString EmptyString EmptyString (deliveries child))).

Definition _install (cfg : Config) (child : ChildProcess) : option Z * list Event :=
  exec cfg child
    (if truthy_opt_string (config_endpoint cfg)
     then ["--registry"; endpoint cfg] else []).

(** *** Manifest override *)

Fixpoint apply_overrides (deps : Dict string) (names : list string)
    (dependencies : Dict string) : Dict string :=
  match names with
  | [] => dependencies
  | key :: rest =>
      let value := default EmptyString (dict_get deps key) in
      apply_overrides deps rest
        (if truthy_string value then dict_set dependencies key value
         else dict_delete dependencies key)
  end.

Definition override (deps : Dict string) (st : Installer) : Installer * list Event :=
  let d1 := apply_overrides deps (dict_keys deps) (manifest_dependencies st) in
  let d2 := Object_fromEntries
              (js_sort (fun a b => localeCompare (fst a) (fst b)) d1) in
  (with_manifest d2 st, [EvWriteFile d2]).

(** *** Install *)

Definition _getLocalDeps (w : World) (override : Dict string) : Dict Dependency :=
  valueMap override (fun request name =>
    match loadManifest w name with
    | Some meta => set_local meta (new_dependency request)
    | None => new_dependency request
    end).

(** The test of the first loop of [install]: the override needs no
    installation. *)
Definition satisfied (deps : Dict string) (localDeps : Dict Dependency) (name : string) : bool :=
  let dep := default (new_dependency EmptyString) (dict_get localDeps name) in
  let range := default EmptyString (dict_get deps name) in
  truthy_opt_bool (workspace dep)
  || (truthy_string range && truthy_opt_string (resolved dep)
      && satisfies (default EmptyString (resolved dep)) range).

(** The first loop of [install]; returns whether [forced = true] was
    assigned and the names on which the test was made. *)
Fixpoint decide_loop (deps : Dict string) (localDeps : Dict Dependency)
    (names : list string) : bool * list string :=
  match names with
  | [] => (false, [])
  | name :: rest =>
      if satisfied deps localDeps name then
        let '(forced, seen) := decide_loop deps localDeps rest in
        (forced, name :: seen)
      else (true, [name])
  end.

(** The body of the second loop of [install]. *)
Definition reload_entry (w : World) (newDeps localDeps : Dict Dependency) (name : string)
  : list Event :=
  let dep := default (new_dependency EmptyString) (dict_get localDeps name) in
  match dict_get newDeps name with
  | None => []
  | Some newDep =>
      if truthy_opt_bool (workspace dep) then []
      else if opt_string_eqb (resolved newDep) (resolved dep) then []
      else match require_cache w name with
           | NotInCache => []
           | InCache => [EvFullReload]
           | ResolveThrows => [EvLog "error" LogError; EvFullReload]
           end
  end.

Definition install (cfg : Config) (w : World) (child : ChildProcess)
    (deps : Dict string) (forced : bool) (st : Installer)
  : Z * Installer * list Event :=
  let localDeps := _getLocalDeps w deps in
  let '(st1, ev1) := override deps st in
  let forced' := forced || fst (decide_loop deps localDeps (dict_keys deps)) in
  let '(code, ev2) := if forced' then _install cfg child else (Some 0, []) in
  if truthy_code code then (default 0 code, st1, ev1 ++ ev2)
  else
    let w' := if forced' then after child else w in
    let '(st2, ev3) := refresh w' false st1 in
    let '(newDeps, st3, ev4) := getDeps w' st2 in
    let ev5 := flat_map (reload_entry w' newDeps localDeps) (dict_keys localDeps) in
    (0, st3, ev1 ++ ev2 ++ ev3 ++ ev4 ++ ev5 ++ [EvRefreshData]).
End Service.

(** ** Name resolution: [resolveName] *)

(** [s.startsWith(p)] *)
Fixpoint js_startsWith (s p : string) {struct p} : bool :=
  match p with
  | EmptyString => true
  | String a p' =>
      match s with
      | String b s' => Ascii.eqb a b && js_startsWith s' p'
      | EmptyString => false
      end
  end.

(** [s.includes(sub)] *)
Fixpoint js_includes (s sub : string) : bool :=
  js_startsWith s sub
  || match s with
     | String _ s' => js_includes s' sub
     | EmptyString => false
     end.

(** [s.split(sep)] for a separator of one character. *)
Fixpoint js_split (sep : ascii) (s : string) : list string :=
  match s with
  | EmptyString => [EmptyString]
  | String c s' =>
      if Ascii.eqb c sep then EmptyString :: js_split sep s'
      else match js_split sep s' with
           | [] => [String c EmptyString]
           | h :: t => String c h :: t
           end
  end.

(** [name.match(/(^|\/)koishi-plugin-/)] is not null. *)
Definition matches_community_plugin (name : string) : bool :=
  js_startsWith name "koishi-plugin-" || js_includes name "/koishi-plugin-".

(** [resolveName(name)].  In the scoped case the pattern [[left, right]]
    takes the first two pieces of the split; a missing second piece is
    [undefined], which the template prints as the word. *)
Definition resolveName (name : string) : list string :=
  if js_startsWith name "@koishijs/plugin-" then [name]
  else if matches_community_plugin name then [name]
  else
    match name with
    | String "@"%char _ =>
        let parts := js_split "/"%char name in
        let left := nth 0 parts "undefined" in
        let right := nth 1 parts "undefined" in
        [left +:+ "/koishi-plugin-" +:+ right]
    | _ => ["@koishijs/plugin-" +:+ name; "koishi-plugin-" +:+ name]
    end.

(** ** Version lookup: [findVersion] *)

Section FindVersion.
Variable compare : string -> string -> Z.
Variable isPlugin : string -> bool.
Variable isCompatible : RemotePackage -> bool.

(** The function mapped over the names: [Object.entries] of an absent
    mapping throws, which the [catch] turns into [undefined]. *)
Definition findVersion_entry (w : World) (name : string) (st : Installer)
  : option (string * string) * Installer * list Event :=
  let '(versions, st', ev) := await_getPackage compare isPlugin isCompatible w name st in
  (match versions with
   | Some ((v, _) :: _) => Some (name, v)
   | Some [] => None
   | None => None
   end, st', ev).

Fixpoint findVersion_all (w : World) (names : list string) (st : Installer)
  : list (option (string * string)) * Installer * list Event :=
  match names with
  | [] => ([], st, [])
  | name :: rest =>
      let '(e, st1, ev1) := findVersion_entry w name st in
      let '(es, st2, ev2) := findVersion_all w rest st1 in
      (e :: es, st2, ev1 ++ ev2)
  end.

(** [entries.find(Boolean)] *)
Fixpoint find_truthy {A : Type} (entries : list (option A)) : option A :=
  match entries with
  | [] => None
  | Some x :: _ => Some x
  | None :: rest => find_truthy rest
  end.

Definition findVersion (w : World) (names : list string) (st : Installer)
  : option (string * string) * Installer * list Event :=
  let '(entries, st', ev) := findVersion_all w names st in
  (find_truthy entries, st', ev).
End FindVersion.

(** * Vocabulary of the statements *)

(** Key order of a version mapping: no key is below a later one, and
    the strict form. *)
Definition descending (compare : string -> string -> Z) (keys : list string) : Prop :=
  StronglySorted (fun a b => compare b a <= 0) keys.

Definition strictly_descending (compare : string -> string -> Z) (keys : list string) : Prop :=
  StronglySorted (fun a b => compare b a < 0) keys.

Definition remote (v : string) : RemotePackage :=
  {| version := v; peerDependencies := None; peerDependenciesMeta := None;
     deprecated := None |}.

Definition example_versions : list RemotePackage :=
  [remote "1.9.0"; remote "1.10.0"; remote "2.0.0"].

Definition build_versions : list RemotePackage :=
  [remote "1.0.0+a"; remote "1.0.0+b"].

(** The text of a stream: its deliveries put end to end. *)
Definition join_chunks (chunks : list string) : string :=
  fold_right String.append EmptyString chunks.

Fixpoint has_newline (s : string) : bool :=
  match s with
  | EmptyString => false
  | String c s' => Ascii.eqb c newline || has_newline s'
  end.

(** The text made of the given lines, each closed by a line break,
    followed by an unfinished fragment. *)
Definition unlines (lines : list string) (rest : string) : string :=
  fold_right (fun line acc => line +:+ String newline acc) rest lines.

Definition chunks_of (s : Stream) (deliveries : list (Stream * Buffer)) : list Buffer :=
  map snd (List.filter (fun d => Stream_eqb (fst d) s) deliveries).

(** The text of a stream as the handlers see it: the texts of its
    deliveries, each decoded on its own, put end to end. *)
Definition decoded_text (Buffer_toString : Buffer -> string) (chunks : list Buffer) : string :=
  join_chunks (map Buffer_toString chunks).

(** The bytes of a text of one-byte characters. *)
Definition bytes_of (s : string) : Buffer := list_byte_of_string s.

Definition lines_of (s : Stream) (processed : list (Stream * string)) : list string :=
  map snd (List.filter (fun d => Stream_eqb (fst d) s) processed).

Definition quote : ascii := "034"%char.

(** The deliveries [{"foo] and [bar":1}] followed by a line break. *)
Definition split_json_deliveries : list (Stream * Buffer) :=
  [(Stdout, bytes_of (String "{"%char (String quote "foo")));
   (Stdout, bytes_of ("bar" +:+ String quote (":1}" +:+ String newline EmptyString)))].

(** The major version of a version string: its leading number. *)
Definition major_version (v : string) : N := fst (read_number v 0%N).

(** The tool with structured output, in the words of the
    specification: yarn at major version 2 or more. *)
Definition structured_output_tool (cfg : Config) : bool :=
  match agent cfg with
  | Some a => String.eqb (agent_name a) "yarn" && (2 <=? major_version (agent_version a))%N
  | None => false
  end.

Definition config_of (name v : string) : Config :=
  {| config_endpoint := None; endpoint := EmptyString;
     agent := Some {| agent_name := name; agent_version := v |} |}.

(** Events of the fetch coordinator and of the logger. *)
Definition fetch_event (e : Event) : bool :=
  match e with
  | EvHttpGet _ | EvFlushData | EvLog _ _ => true
  | _ => false
  end.

Definition count (p : Event -> bool) (ev : list Event) : nat :=
  length (List.filter p ev).

(** The local installation as the world shows it. *)
Definition workspace_linked (w : World) (name : string) : bool :=
  match loadManifest w name with
  | Some meta => dollar_workspace meta
  | None => false
  end.

Definition resolved_version (w : World) (name : string) : option string :=
  match loadManifest w name with
  | Some meta => local_version meta
  | None => None
  end.

(** An overridden name whose requested range is not empty and is
    satisfied by the version resolved locally. *)
Definition range_satisfied (satisfies : string -> string -> bool)
    (w : World) (deps : Dict string) (name : string) : bool :=
  match dict_get deps name, resolved_version w name with
  | Some range, Some v => truthy_string range && truthy_string v && satisfies v range
  | _, _ => false
  end.

(** An override that forces an install: neither workspace-linked nor
    satisfied. *)
Definition needs_install (satisfies : string -> string -> bool)
    (w : World) (deps : Dict string) (name : string) : bool :=
  negb (match dict_get deps name with
        | Some _ => workspace_linked w name
        | None => false
        end
        || range_satisfied satisfies w deps name).

(** Whether [install] runs the package manager, read off its inputs. *)
Definition install_forced (satisfies : string -> string -> bool)
    (w : World) (deps : Dict string) (forced : bool) : bool :=
  forced || existsb (needs_install satisfies w deps) (dict_keys deps).

Definition is_invalidate (op : Op) : bool :=
  match op with OpInvalidate => true | _ => false end.

(** An operation that leaves the task of [name] in the table. *)
Definition keeps_task (name : string) (op : Op) : bool :=
  match op with
  | OpInvalidate => false
  | OpSetPackage n _ => negb (String.eqb n name)
  | _ => true
  end.

(** An overridden package for which [install] asks for a reload: still
    declared after the override, not workspace-linked before it,
    resolved to another version than before, and not found missing from
    the module cache. *)
Definition reload_needed (w w' : World) (deps : Dict string) (name : string) : bool :=
  truthy_string (default EmptyString (dict_get deps name))
  && negb (workspace_linked w name)
  && negb (opt_string_eqb (resolved_version w' name) (resolved_version w name))
  && match require_cache w' name with
     | NotInCache => false
     | InCache | ResolveThrows => true
     end.

(** A name that has a fetch task or an entry in one of the caches. *)
Definition touched (st : Installer) (name : string) : Prop :=
  is_Some (pkgTasks st !! name) \/ is_Some (fullCache st !! name)
  \/ is_Some (tempCache st !! name).

(** The task table points into the heap, and a pending task is filed
    under the name it fetches. *)
Definition tasks_wf (st : Installer) : Prop :=
  forall name pid, pkgTasks st !! name = Some pid ->
    (pid < length (promises st))%nat
    /\ forall n, promises st !! pid = Some (Pending n) -> n = name.

(** Every name with a task or a cache entry has been requested in
    [ev]. *)
Definition fetched_in (ev : list Event) (st : Installer) : Prop :=
  tasks_wf st /\ forall n, touched st n -> In (EvHttpGet n) ev.

(** ** Instances for the examples *)

(** A stand-in for [localeCompare]: the order of the character codes. *)
Definition code_order (a b : string) : Z := Z_of_comparison (String.compare a b).

(** A stand-in for [satisfies] on ranges [^MAJOR.MINOR.PATCH]: same
    major version, and not below the version of the range. *)
Definition caret_satisfies (v range : string) : bool :=
  let r := match range with String "^"%char r => r | _ => range end in
  (major_version v =? major_version r)%N && (0 <=? semver_compare v r).

Definition example_install :=
  install semver_compare (fun _ => true) caret_satisfies code_order
    (fun _ => false) (fun _ => true) (fun _ => None) utf8_decode.

(** A reference for [valid] of semver on the versions written
    [MAJOR.MINOR.PATCH]: three numbers without superfluous leading zero,
    separated by dots, and nothing else. *)
Fixpoint skip_digits (s : string) : string :=
  match s with
  | String c s' => if is_digit c then skip_digits s' else s
  | EmptyString => s
  end.

(** What follows a number at the head of [s]. *)
Definition numeric_identifier (s : string) : option string :=
  match s with
  | String c s' =>
      if Ascii.eqb c "0"%char then Some s'
      else if is_digit c then Some (skip_digits s')
      else None
  | EmptyString => None
  end.

Definition expect_dot (s : string) : option string :=
  match s with
  | String "."%char s' => Some s'
  | _ => None
  end.

Definition main_version (s : string) : option string :=
  r1 ← numeric_identifier s;
  r2 ← expect_dot r1;
  r3 ← numeric_identifier r2;
  r4 ← expect_dot r3;
  numeric_identifier r4.

Definition semver_valid (s : string) : bool :=
  match main_version s with
  | Some EmptyString => true
  | _ => false
  end.

(** A reference for [validRange] of semver on the ranges made of
    comparators separated by a space, each a version with one of the
    operators [>=], [<=], [>], [<], [=], [^], [~] or none. *)
Definition strip_operator (s : string) : string :=
  match s with
  | String ">"%char (String "="%char r) => r
  | String "<"%char (String "="%char r) => r
  | String ">"%char r => r
  | String "<"%char r => r
  | String "="%char r => r
  | String "^"%char r => r
  | String "~"%char r => r
  | _ => s
  end.

Definition semver_validRange (s : string) : bool :=
  forallb (fun comparator => semver_valid (strip_operator comparator)) (js_split " "%char s).

Definition local_package (v : string) (ws : bool) : option LocalPackage :=
  Some {| local_version := Some v; dollar_workspace := ws |}.

Definition empty_world : World :=
  {| loadManifest := fun _ => None; http_get := fun _ => None;
     require_cache := fun _ => NotInCache |}.

Definition no_agent : Config :=
  {| config_endpoint := None; endpoint := EmptyString; agent := None |}.

Definition exits (code : Z) (w : World) : ChildProcess :=
  {| deliveries := []; outcome := Exited code; after := w |}.

Definition empty_installer : Installer :=
  {| manifest_dependencies := []; fullCache := ∅; tempCache := ∅;
     pkgTasks := ∅; promises := []; depTask := None |}.

(** left-pad installed at 1.0.5 from the registry. *)
Definition left_pad_world : World :=
  {| loadManifest := fun name =>
       if String.eqb name "left-pad" then local_package "1.0.5" false else None;
     http_get := fun _ => None;
     require_cache := fun _ => NotInCache |}.

(** A service that has fetched a package [old] and computed an (empty)
    snapshot. *)
Definition stale_installer : Installer :=
  {| manifest_dependencies := [];
     fullCache := {[ "old" := [] ]}; tempCache := {[ "old" := [] ]};
     pkgTasks := {[ "old" := 0%nat ]}; promises := [Resolved (Some [])];
     depTask := Some [] |}.

(** Two loaded packages [a] and [b], at 1.0.0 before the package
    manager runs and at 2.0.0 after. *)
Definition two_packages (v : string) : World :=
  {| loadManifest := fun name =>
       if String.eqb name "a" || String.eqb name "b" then local_package v false else None;
     http_get := fun _ => None;
     require_cache := fun _ => InCache |}.

Definition two_packages_installer : Installer :=
  {| manifest_dependencies := [("a", "^1.0.0"); ("b", "^1.0.0")];
     fullCache := ∅; tempCache := ∅; pkgTasks := ∅; promises := []; depTask := None |}.

(** A workspace-linked plugin. *)
Definition workspace_world : World :=
  {| loadManifest := fun name =>
       if String.eqb name "plugin-a" then local_package "1.0.0" true else None;
     http_get := fun _ => None;
     require_cache := fun _ => InCache |}.

Definition registry_config : Config :=
  {| config_endpoint := Some "https://registry.example";
     endpoint := "https://registry.example"; agent := None |}.

(** The text of [split_json_deliveries] in one delivery. *)
Definition whole_json_delivery : list (Stream * Buffer) :=
  [(Stdout, List.concat (chunks_of Stdout split_json_deliveries))].

(** ** Vocabulary of the further statements *)

(** What the registry holds for a name, as [_getPackage] stores it. *)
Definition registry_value (compare : string -> string -> Z)
    (isPlugin : string -> bool) (isCompatible : RemotePackage -> bool)
    (w : World) (name : string) : option VersionMap :=
  option_map
    (fun versions =>
       getVersions compare
         (List.filter (fun remote => negb (isPlugin name) || isCompatible remote) versions))
    (http_get w name).

(** The settled tasks of the table hold what the registry holds. *)
Definition agrees (compare : string -> string -> Z)
    (isPlugin : string -> bool) (isCompatible : RemotePackage -> bool)
    (w : World) (st : Installer) : Prop :=
  tasks_wf st
  /\ forall name pid v,
       pkgTasks st !! name = Some pid ->
       promises st !! pid = Some (Resolved v) ->
       v = registry_value compare isPlugin isCompatible w name.

(** The registry gives for [name] only records whose version is a
    version for semver, so that [compare] does not throw when
    [getVersions] sorts them. *)
Definition well_versioned (valid : string -> bool) (w : World) (name : string) : bool :=
  match http_get w name with
  | Some versions => forallb (fun r => valid (version r)) versions
  | None => true
  end.

(** A name that can be looked up in the tables of the service and
    fetched: an ordinary key, with proper versions on the registry. *)
Definition fetchable (valid : string -> bool) (w : World) (name : string) : bool :=
  ordinary_key name && well_versioned valid w name.

(** The first key of a version mapping. *)
Definition first_version (o : option VersionMap) : option string :=
  match o with
  | Some vm => head (dict_keys vm)
  | None => None
  end.

(** The record of a declared dependency, read off the world. *)
Definition expected_record (compare : string -> string -> Z) (valid : string -> bool)
    (isPlugin : string -> bool) (isCompatible : RemotePackage -> bool)
    (w : World) (e : string * string) : string * Dependency :=
  let name := fst e in
  let request := normalize_request (snd e) in
  (name,
   {| request := request;
      resolved := resolved_version w name;
      workspace := option_map dollar_workspace (loadManifest w name);
      invalid := if workspace_linked w name then None
                 else if valid request then None else Some true;
      latest := if workspace_linked w name then None
                else first_version (registry_value compare isPlugin isCompatible w name) |}).

(** The first name that the registry knows with at least one version. *)
Fixpoint first_known (compare : string -> string -> Z)
    (isPlugin : string -> bool) (isCompatible : RemotePackage -> bool)
    (w : World) (names : list string) : option (string * string) :=
  match names with
  | [] => None
  | name :: rest =>
      match first_version (registry_value compare isPlugin isCompatible w name) with
      | Some v => Some (name, v)
      | None => first_known compare isPlugin isCompatible w rest
      end
  end.

Fixpoint has_char (c : ascii) (s : string) : bool :=
  match s with
  | EmptyString => false
  | String a s' => Ascii.eqb a c || has_char c s'
  end.

(** The line breaks of a text. *)
Fixpoint newline_count (s : string) : nat :=
  match s with
  | EmptyString => 0%nat
  | String c s' => ((if Ascii.eqb c newline then 1 else 0) + newline_count s')%nat
  end.

Definition is_log (e : Event) : bool :=
  match e with EvLog _ _ => true | _ => false end.

Definition is_refreshData (e : Event) : bool :=
  match e with EvRefreshData => true | _ => false end.

(** The log entry of a line in plain-text mode. *)
Definition plain_log (sl : Stream * string) : Event :=
  EvLog (match fst sl with Stdout => "info" | Stderr => "warn" end) (LogText (snd sl)).

(** A service whose manifest declares left-pad with a range of two
    comparators. *)
Definition range_installer : Installer :=
  {| manifest_dependencies := [("left-pad", ">=1.0.0 <2.0.0")];
     fullCache := ∅; tempCache := ∅; pkgTasks := ∅; promises := []; depTask := None |}.

(** A service whose manifest declares left-pad in the usual way. *)
Definition left_pad_installer : Installer :=
  {| manifest_dependencies := [("left-pad", "^1.0.0")];
     fullCache := ∅; tempCache := ∅; pkgTasks := ∅; promises := []; depTask := None |}.

(** Two responses of the registry for the examples. *)
Definition registry_world : World :=
  {| loadManifest := fun name =>
       if String.eqb name "left-pad" then local_package "1.0.5" false else None;
     http_get := fun name =>
       if String.eqb name "left-pad" then Some example_versions else None;
     require_cache := fun _ => NotInCache |}.

(** The line breaks of the deliveries of a process. *)
Definition delivered_newlines (Buffer_toString : Buffer -> string)
    (ds : list (Stream * Buffer)) : nat :=
  list_sum (map (fun d => newline_count (Buffer_toString (snd d))) ds).

(** A stand-in for [localeCompare] that is easy to reason about: the
    shorter name first. *)
Definition length_order (a b : string) : Z :=
  Z.of_nat (String.length a) - Z.of_nat (String.length b).

(** The processing that the specification asks for, in its words: the
    complete (newline-terminated) lines of the concatenated output of a
    stream, whatever the deliveries. *)
Definition complete_lines_of_output (Buffer_toString : Buffer -> string)
    (s : Stream) (deliveries : list (Stream * Buffer)) : list string :=
  List.removelast (split_lines (Buffer_toString (List.concat (chunks_of s deliveries)))).

(** The character U+00E9 and a line break, in one delivery and cut
    between the two bytes of the character. *)
Definition whole_character_delivery : list (Stream * Buffer) :=
  [(Stdout, [Byte.xc3; Byte.xa9; Byte.x0a])].

Definition cut_character_deliveries : list (Stream * Buffer) :=
  [(Stdout, [Byte.xc3]); (Stdout, [Byte.xa9; Byte.x0a])].

(** * Properties *)

(** ** Dictionaries *)

Section DictFacts.
Context {V : Type}.
Implicit Types (d : Dict V) (k : string) (v : V).

Lemma dict_get_None d k : dict_get d k = None <-> ~ In k (dict_keys d).
Proof.
  induction d as [|[k' v'] d IH]; simpl.
  - tauto.
  - destruct (String.eqb_spec k' k) as [->|Hne].
    + split; [discriminate | tauto].
    + rewrite IH. tauto.
Qed.

Lemma dict_get_Some_In d k v : dict_get d k = Some v -> In k (dict_keys d).
Proof.
  intros H. destruct (in_dec string_dec k (dict_keys d)) as [|Hn]; [assumption|].
  apply dict_get_None in Hn. congruence.
Qed.

Lemma dict_get_set d k v k' :
  dict_get (dict_set d k v) k' = if String.eqb k k' then Some v else dict_get d k'.
Proof.
  induction d as [|[k0 v0] d IH]; simpl.
  - reflexivity.
  - destruct (String.eqb_spec k0 k) as [->|Hne]; simpl.
    + destruct (String.eqb_spec k k'); reflexivity.
    + rewrite IH. destruct (String.eqb_spec k0 k') as [->|]; [|reflexivity].
      destruct (String.eqb_spec k k'); congruence.
Qed.

Lemma dict_get_delete d k k' :
  dict_get (dict_delete d k) k' = if String.eqb k k' then None else dict_get d k'.
Proof.
  induction d as [|[k0 v0] d IH]; simpl.
  - destruct (String.eqb k k'); reflexivity.
  - destruct (String.eqb_spec k0 k) as [->|Hne]; simpl.
    + rewrite IH. destruct (String.eqb_spec k k'); reflexivity.
    + rewrite IH. destruct (String.eqb_spec k0 k') as [->|]; [|reflexivity].
      destruct (String.eqb_spec k k'); congruence.
Qed.

Lemma dict_keys_set_in d k v :
  In k (dict_keys d) -> dict_keys (dict_set d k v) = dict_keys d.
Proof.
  induction d as [|[k0 v0] d IH]; simpl; [tauto|].
  intros Hin. destruct (String.eqb_spec k0 k) as [->|Hne]; simpl; [reflexivity|].
  f_equal. apply IH. destruct Hin; congruence.
Qed.

Lemma dict_keys_set_notin d k v :
  ~ In k (dict_keys d) -> dict_keys (dict_set d k v) = dict_keys d ++ [k].
Proof.
  induction d as [|[k0 v0] d IH]; simpl; [reflexivity|].
  intros Hn. destruct (String.eqb_spec k0 k) as [->|Hne]; simpl; [tauto|].
  f_equal. apply IH. tauto.
Qed.

(** The keys of [Object.fromEntries]: those already there, then the
    new ones, each at its first occurrence. *)
Lemma fold_set_keys_In (entries : list (string * V)) d k :
  In k (dict_keys (fold_left (fun d e => dict_set d (fst e) (snd e)) entries d))
  <-> In k (dict_keys d) \/ In k (map fst entries).
Proof.
  revert d. induction entries as [|[k0 v0] es IH]; intros d; simpl.
  - tauto.
  - rewrite IH. destruct (in_dec string_dec k0 (dict_keys d)) as [Hin|Hn].
    + rewrite (dict_keys_set_in _ _ _ Hin). split; [tauto|].
      intros [H|[<-|H]]; tauto.
    + rewrite (dict_keys_set_notin _ _ _ Hn), in_app_iff. simpl. tauto.
Qed.

Lemma fromEntries_keys_In (entries : list (string * V)) k :
  In k (dict_keys (Object_fromEntries entries)) <-> In k (map fst entries).
Proof. unfold Object_fromEntries. rewrite fold_set_keys_In. simpl. tauto. Qed.

Lemma fold_set_keys_NoDup (entries : list (string * V)) d :
  NoDup (dict_keys d) ->
  NoDup (dict_keys (fold_left (fun d e => dict_set d (fst e) (snd e)) entries d)).
Proof.
  revert d. induction entries as [|[k0 v0] es IH]; intros d Hd; simpl; [assumption|].
  apply IH. destruct (in_dec string_dec k0 (dict_keys d)) as [Hin|Hn].
  - rewrite (dict_keys_set_in _ _ _ Hin). assumption.
  - rewrite (dict_keys_set_notin _ _ _ Hn).
    apply NoDup_app. split; [assumption|].
    split; [|apply NoDup_singleton].
    intros x Hx Hx'. apply list_elem_of_In in Hx. apply list_elem_of_singleton in Hx'.
    subst. tauto.
Qed.

Lemma fold_set_keys_sorted (R : string -> string -> Prop)
    (entries : list (string * V)) d :
  StronglySorted R (dict_keys d ++ map fst entries) ->
  StronglySorted R (dict_keys (fold_left (fun d e => dict_set d (fst e) (snd e)) entries d)).
Proof.
  revert d. induction entries as [|[k0 v0] es IH]; intros d Hs; simpl in *.
  - rewrite app_nil_r in Hs. assumption.
  - apply IH. destruct (in_dec string_dec k0 (dict_keys d)) as [Hin|Hn].
    + rewrite (dict_keys_set_in _ _ _ Hin).
      apply StronglySorted_app in Hs as (Hx & Hd & Hes).
      apply StronglySorted_app. split; [|split].
      * intros x1 x2 H1 H2. apply Hx; [assumption|]. apply elem_of_cons. tauto.
      * assumption.
      * apply StronglySorted_inv in Hes. tauto.
    + rewrite (dict_keys_set_notin _ _ _ Hn), <- app_assoc. assumption.
Qed.

Lemma dict_get_is_Some d k : is_Some (dict_get d k) <-> In k (dict_keys d).
Proof.
  rewrite <- not_eq_None_Some, dict_get_None.
  destruct (in_dec string_dec k (dict_keys d)); tauto.
Qed.

Lemma fromEntries_get_is_Some (entries : list (string * V)) k :
  is_Some (dict_get (Object_fromEntries entries) k) <-> In k (map fst entries).
Proof. rewrite dict_get_is_Some. apply fromEntries_keys_In. Qed.
End DictFacts.

Lemma dict_get_valueMap {V W : Type} (d : Dict V) (f : V -> string -> W) k :
  dict_get (valueMap d f) k = option_map (fun v => f v k) (dict_get d k).
Proof.
  induction d as [|[k' v'] d IH]; simpl; [reflexivity|].
  destruct (String.eqb_spec k' k) as [->|]; [reflexivity | assumption].
Qed.

Lemma dict_keys_valueMap {V W : Type} (d : Dict V) (f : V -> string -> W) :
  dict_keys (valueMap d f) = dict_keys d.
Proof. unfold dict_keys, valueMap. rewrite map_map. reflexivity. Qed.

(** ** Sorting *)

Section SortFacts.
Context {A : Type} (cmp : A -> A -> Z).

Lemma js_insert_In x l y : In y (js_insert cmp x l) <-> y = x \/ In y l.
Proof.
  induction l as [|z l IH]; simpl.
  - intuition congruence.
  - destruct (0 <? cmp x z); simpl; rewrite ?IH; intuition congruence.
Qed.

Lemma js_sort_In l y : In y (js_sort cmp l) <-> In y l.
Proof.
  induction l as [|x l IH]; simpl; [tauto|].
  rewrite js_insert_In, IH. intuition congruence.
Qed.

Hypothesis cmp_total : forall a b, 0 < cmp a b -> cmp b a <= 0.
Hypothesis cmp_trans : forall a b c, cmp a b <= 0 -> cmp b c <= 0 -> cmp a c <= 0.

Lemma js_insert_sorted x l :
  StronglySorted (fun a b => cmp a b <= 0) l ->
  StronglySorted (fun a b => cmp a b <= 0) (js_insert cmp x l).
Proof.
  induction 1 as [|y l Hl IH Hy]; simpl.
  - repeat constructor.
  - destruct (Z.ltb_spec 0 (cmp x y)) as [Hlt|Hle].
    + constructor; [assumption|].
      apply List.Forall_forall. intros z Hz. apply js_insert_In in Hz as [->|Hz].
      * auto.
      * rewrite List.Forall_forall in Hy. auto.
    + constructor; [constructor; assumption|].
      constructor; [assumption|].
      eapply List.Forall_impl; [|exact Hy]. simpl. eauto.
Qed.

Lemma js_sort_sorted l : StronglySorted (fun a b => cmp a b <= 0) (js_sort cmp l).
Proof.
  induction l as [|x l IH]; simpl; [constructor | apply js_insert_sorted; assumption].
Qed.
End SortFacts.

Lemma StronglySorted_strengthen {A : Type} (R R' : A -> A -> Prop) (l : list A) :
  (forall a b, In a l -> In b l -> a <> b -> R a b -> R' a b) ->
  NoDup l -> StronglySorted R l -> StronglySorted R' l.
Proof.
  induction l as [|x l IH]; intros HR Hnd Hs; [constructor|].
  apply NoDup_cons in Hnd as [Hx Hnd]. apply StronglySorted_inv in Hs as [Hs Hf].
  constructor.
  - apply IH; [|assumption|assumption].
    intros a b Ha Hb. apply HR; right; assumption.
  - apply List.Forall_forall. intros b Hb. rewrite List.Forall_forall in Hf.
    apply HR; [left; reflexivity | right; assumption | | auto].
    intros ->. apply Hx, list_elem_of_In. assumption.
Qed.

(** ** The reference comparison is a consistent comparison *)

Lemma core_compare_total a b :
  0 < Z_of_comparison (core_compare a b) -> Z_of_comparison (core_compare b a) <= 0.
Proof.
  destruct a as [[a1 a2] a3], b as [[b1 b2] b3]. unfold core_compare.
  destruct (N.compare_spec a1 b1), (N.compare_spec b1 a1); simpl; try lia;
    destruct (N.compare_spec a2 b2), (N.compare_spec b2 a2); simpl; try lia;
    destruct (N.compare_spec a3 b3), (N.compare_spec b3 a3); simpl; lia.
Qed.

Lemma core_compare_trans a b c :
  Z_of_comparison (core_compare a b) <= 0 ->
  Z_of_comparison (core_compare b c) <= 0 ->
  Z_of_comparison (core_compare a c) <= 0.
Proof.
  destruct a as [[a1 a2] a3], b as [[b1 b2] b3], c as [[c1 c2] c3]. unfold core_compare.
  destruct (N.compare_spec a1 b1), (N.compare_spec b1 c1), (N.compare_spec a1 c1);
    simpl; try lia;
    destruct (N.compare_spec a2 b2), (N.compare_spec b2 c2), (N.compare_spec a2 c2);
    simpl; try lia;
    destruct (N.compare_spec a3 b3), (N.compare_spec b3 c3), (N.compare_spec a3 c3);
    simpl; lia.
Qed.

Lemma semver_compare_total a b :
  0 < semver_compare a b -> semver_compare b a <= 0.
Proof. apply core_compare_total. Qed.

Lemma semver_compare_trans a b c :
  semver_compare a b <= 0 -> semver_compare b c <= 0 -> semver_compare a c <= 0.
Proof. apply core_compare_trans. Qed.

(** ** Version cache *)

Section GetVersionsFacts.
Variable compare : string -> string -> Z.
Hypothesis compare_total : forall a b, 0 < compare a b -> compare b a <= 0.
Hypothesis compare_trans :
  forall a b c, compare a b <= 0 -> compare b c <= 0 -> compare a c <= 0.

Lemma getVersions_keys_In versions v :
  In v (dict_keys (getVersions compare versions)) <-> In v (map version versions).
Proof.
  unfold getVersions. rewrite fromEntries_keys_In, !in_map_iff. split.
  - intros ([k m] & <- & Hin). apply js_sort_In, in_map_iff in Hin as (r & Hr & Hin).
    exists r. inversion Hr. auto.
  - intros (r & <- & Hin). exists (version r, pick r). split; [reflexivity|].
    apply js_sort_In, in_map_iff. eauto.
Qed.

Lemma getVersions_keys_NoDup versions :
  NoDup (dict_keys (getVersions compare versions)).
Proof. apply fold_set_keys_NoDup. constructor. Qed.

Lemma getVersions_keys_sorted versions :
  StronglySorted (fun a b => compare b a <= 0) (dict_keys (getVersions compare versions)).
Proof.
  apply fold_set_keys_sorted. simpl.
  apply (StronglySorted_fmap fst (fun x y => compare (fst y) (fst x) <= 0)); [auto|].
  apply js_sort_sorted; eauto.
Qed.

Lemma compare_refl_le a : compare a a <= 0.
Proof. destruct (Z.ltb_spec 0 (compare a a)); auto. Qed.
End GetVersionsFacts.

(** C10, as amended: under a consistent semver comparison, the keys of
    the mapping built by [getVersions] are the versions of the list, in
    descending order of precedence (no key is below a later one), so
    that the first key has the highest precedence; the order is strictly
    descending when no two different version strings of the list have
    equal precedence. *)
Theorem getVersions_keys_descending
    (compare : string -> string -> Z)
    (compare_total : forall a b, 0 < compare a b -> compare b a <= 0)
    (compare_trans : forall a b c, compare a b <= 0 -> compare b c <= 0 -> compare a c <= 0)
    (versions : list RemotePackage) :
  let keys := dict_keys (getVersions compare versions) in
  descending compare keys
  /\ (forall v, In v keys <-> In v (map version versions))
  /\ (forall first, head keys = Some first ->
        forall v, In v (map version versions) -> compare v first <= 0)
  /\ ((forall a b, In a (map version versions) -> In b (map version versions) ->
         compare a b = 0 -> a = b) ->
      strictly_descending compare keys).
Proof.
  intros keys.
  pose proof (getVersions_keys_sorted compare compare_total compare_trans versions) as Hs.
  pose proof (getVersions_keys_In compare versions) as Hin.
  fold keys in Hs, Hin.
  split; [exact Hs|]. split; [exact Hin|]. split.
  - intros first Hhd v Hv. apply Hin in Hv.
    destruct keys as [|k ks]; [discriminate|]. simpl in Hhd. injection Hhd as ->.
    apply StronglySorted_inv in Hs as [_ Hf]. destruct Hv as [<-|Hv].
    + apply compare_refl_le. assumption.
    + rewrite List.Forall_forall in Hf. auto.
  - intros Hinj. unfold strictly_descending.
    eapply StronglySorted_strengthen; [|apply getVersions_keys_NoDup|exact Hs].
    intros a b Ha Hb Hne Hle. simpl in Hle.
    assert (compare b a <> 0); [|lia].
    intros H0. apply Hne. symmetry. apply Hinj; [apply Hin..|]; assumption.
Qed.

(** The amended statement at the list 1.9.0, 1.10.0, 2.0.0 with the
    reference comparison: the mapping starts with 2.0.0 and puts 1.10.0
    before 1.9.0. *)
Lemma getVersions_keys_descending_witness :
  dict_keys (getVersions semver_compare example_versions) = ["2.0.0"; "1.10.0"; "1.9.0"]
  /\ strictly_descending semver_compare (dict_keys (getVersions semver_compare example_versions)).
Proof.
  split; [reflexivity|].
  apply (getVersions_keys_descending semver_compare
           semver_compare_total semver_compare_trans example_versions).
  intros a b Ha Hb. simpl in Ha, Hb.
  destruct Ha as [<-|[<-|[<-|[]]]], Hb as [<-|[<-|[<-|[]]]];
    vm_compute; congruence.
Defined.

(** C10 as stated fails: two versions that differ in build metadata
    only have equal precedence, and both become keys. *)
Lemma getVersions_not_strictly_descending :
  dict_keys (getVersions semver_compare build_versions) = ["1.0.0+a"; "1.0.0+b"]
  /\ semver_compare "1.0.0+a" "1.0.0+b" = 0
  /\ ~ Sorted (fun a b => semver_compare b a < 0)
         (dict_keys (getVersions semver_compare build_versions)).
Proof.
  split; [reflexivity|]. split; [reflexivity|].
  intros H. apply Sorted_inv in H as [_ H]. apply HdRel_inv in H.
  vm_compute in H. discriminate.
Qed.

(** ** Line buffering *)

Lemma append_cons c s t : String c s +:+ t = String c (s +:+ t).
Proof. reflexivity. Qed.

Lemma append_nil_r s : s +:+ EmptyString = s.
Proof. induction s as [|c s IH]; [reflexivity|]. rewrite append_cons, IH. reflexivity. Qed.

Lemma append_assoc s t u : (s +:+ t) +:+ u = s +:+ (t +:+ u).
Proof.
  induction s as [|c s IH]; [reflexivity|]. rewrite !append_cons, IH. reflexivity.
Qed.

Lemma split_lines_cons c s :
  split_lines (String c s) =
  if Ascii.eqb c newline then EmptyString :: split_lines s
  else match split_lines s with
       | [] => [String c EmptyString]
       | h :: t => String c h :: t
       end.
Proof. reflexivity. Qed.

Lemma split_lines_nonempty s : split_lines s <> [].
Proof.
  destruct s as [|c s]; [discriminate|]. rewrite split_lines_cons.
  destruct (Ascii.eqb c newline); [discriminate|].
  destruct (split_lines s); discriminate.
Qed.

Lemma split_lines_no_newline s : has_newline s = false -> split_lines s = [s].
Proof.
  induction s as [|c s IH]; [reflexivity|]. simpl has_newline. rewrite split_lines_cons.
  destruct (Ascii.eqb c newline); [discriminate|]. simpl. intros H.
  rewrite (IH H). reflexivity.
Qed.

Lemma split_lines_pieces s : Forall (fun l => has_newline l = false) (split_lines s).
Proof.
  induction s as [|c s IH]; [repeat constructor|]. rewrite split_lines_cons.
  destruct (Ascii.eqb c newline) eqn:Hc.
  - constructor; [reflexivity | assumption].
  - destruct (split_lines s) as [|h t]; [repeat constructor; simpl; rewrite Hc; reflexivity|].
    apply Forall_cons in IH as [Hh Ht]. constructor; [|assumption].
    simpl. rewrite Hc, Hh. reflexivity.
Qed.

Lemma removelast_cons2 {A : Type} (x y : A) t :
  List.removelast (x :: y :: t) = x :: List.removelast (y :: t).
Proof. reflexivity. Qed.

Lemma last_cons2 {A : Type} (x y : A) t d :
  List.last (x :: y :: t) d = List.last (y :: t) d.
Proof. reflexivity. Qed.

Lemma last_In_nonempty {A : Type} (l : list A) d : l <> [] -> In (List.last l d) l.
Proof.
  induction l as [|x [|y t] IH]; intros H; [congruence | left; reflexivity |].
  rewrite last_cons2. right. apply IH. discriminate.
Qed.

Lemma unlines_cons line lines rest :
  unlines (line :: lines) rest = line +:+ String newline (unlines lines rest).
Proof. reflexivity. Qed.

Lemma split_lines_unlines s :
  unlines (List.removelast (split_lines s)) (List.last (split_lines s) EmptyString) = s.
Proof.
  induction s as [|c s IH]; [reflexivity|]. rewrite split_lines_cons.
  pose proof (split_lines_nonempty s) as Hne.
  destruct (split_lines s) as [|h t] eqn:E; [congruence|].
  destruct (Ascii.eqb_spec c newline) as [->|Hc].
  - rewrite removelast_cons2, last_cons2, unlines_cons, IH. reflexivity.
  - destruct t as [|h' t].
    + simpl in *. congruence.
    + rewrite removelast_cons2, last_cons2 in *. rewrite unlines_cons in *.
      rewrite append_cons. congruence.
Qed.

(** Splitting a text in two: the lines of the first part but the last,
    then the lines of what remains. *)
Lemma split_lines_app a b :
  split_lines (a +:+ b) =
  List.removelast (split_lines a) ++ split_lines (List.last (split_lines a) EmptyString +:+ b).
Proof.
  induction a as [|c a IH]; [reflexivity|].
  rewrite append_cons, !split_lines_cons.
  pose proof (split_lines_nonempty a) as Hne.
  destruct (split_lines a) as [|h t] eqn:E; [congruence|].
  destruct (Ascii.eqb c newline) eqn:Hc.
  - rewrite IH. reflexivity.
  - rewrite IH. destruct t as [|h' t].
    + simpl List.removelast. simpl List.last. rewrite !app_nil_l, append_cons, split_lines_cons, Hc. reflexivity.
    + reflexivity.
Qed.

Lemma lines_of_app s a b : lines_of s (a ++ b) = lines_of s a ++ lines_of s b.
Proof. unfold lines_of. rewrite List.filter_app, map_app. reflexivity. Qed.

Lemma lines_of_tagged s s' lines :
  lines_of s (map (pair s') lines) = if Stream_eqb s' s then lines else [].
Proof.
  unfold lines_of. induction lines as [|l ls IH]; simpl.
  - destruct (Stream_eqb s' s); reflexivity.
  - destruct (Stream_eqb s' s); simpl in *; congruence.
Qed.

Lemma chunks_of_cons s s' data rest :
  chunks_of s ((s', data) :: rest)
  = if Stream_eqb s' s then data :: chunks_of s rest else chunks_of s rest.
Proof. unfold chunks_of. simpl. destruct (Stream_eqb s' s); reflexivity. Qed.

Section BufferingFacts.
Variable Buffer_toString : Buffer -> string.

Local Abbreviation on_data_ := (on_data Buffer_toString).
Local Abbreviation feed_ := (feed Buffer_toString).
Local Abbreviation handle := (handle_data Buffer_toString).

Lemma feed_split_lines chunks pending :
  has_newline pending = false ->
  fst (feed_ pending chunks) ++ [snd (feed_ pending chunks)]
  = split_lines (pending +:+ decoded_text Buffer_toString chunks).
Proof.
  revert pending. induction chunks as [|data rest IH]; intros pending Hp.
  - simpl. unfold decoded_text. simpl. rewrite append_nil_r. symmetry.
    apply split_lines_no_newline. assumption.
  - simpl feed. unfold on_data.
    set (L := split_lines (pending +:+ Buffer_toString data)).
    assert (Hl : has_newline (List.last L EmptyString) = false).
    { pose proof (split_lines_pieces (pending +:+ Buffer_toString data)) as Hf. fold L in Hf.
      rewrite List.Forall_forall in Hf. apply Hf.
      apply last_In_nonempty, split_lines_nonempty. }
    specialize (IH _ Hl).
    destruct (feed_ (List.last L EmptyString) rest) as [more final]. simpl in *.
    rewrite <- app_assoc, IH. unfold decoded_text. simpl join_chunks.
    rewrite <- append_assoc. fold L. symmetry. apply split_lines_app.
Qed.

Lemma feed_cons pending data rest :
  fst (feed_ pending (data :: rest))
  = fst (on_data_ pending data) ++ fst (feed_ (snd (on_data_ pending data)) rest).
Proof.
  cbn [feed]. destruct (on_data_ pending data) as [lines pending']. cbn [fst snd].
  destruct (feed_ pending' rest). reflexivity.
Qed.

Lemma handle_data_lines deliveries stdout stderr s :
  lines_of s (handle stdout stderr deliveries)
  = fst (feed_ (match s with Stdout => stdout | Stderr => stderr end)
           (chunks_of s deliveries)).
Proof.
  revert stdout stderr.
  induction deliveries as [|[[] data] rest IH]; intros stdout stderr; [reflexivity|..].
  - cbn [handle_data]. destruct (on_data_ stdout data) as [lines stdout'] eqn:E.
    rewrite lines_of_app, lines_of_tagged, IH, chunks_of_cons.
    destruct s; cbn [Stream_eqb]; [|reflexivity].
    rewrite feed_cons, E. reflexivity.
  - cbn [handle_data]. destruct (on_data_ stderr data) as [lines stderr'] eqn:E.
    rewrite lines_of_app, lines_of_tagged, IH, chunks_of_cons.
    destruct s; cbn [Stream_eqb]; [reflexivity|].
    rewrite feed_cons, E. reflexivity.
Qed.

(** The lines handled on a stream, with the fragment left pending, are
    the pieces of the decoded text of the stream. *)
Lemma handle_data_split_lines deliveries s :
  lines_of s (handle EmptyString EmptyString deliveries)
    ++ [snd (feed_ EmptyString (chunks_of s deliveries))]
  = split_lines (decoded_text Buffer_toString (chunks_of s deliveries)).
Proof.
  rewrite handle_data_lines.
  replace (match s with Stdout => EmptyString | Stderr => EmptyString end)
    with EmptyString by (destruct s; reflexivity).
  apply (feed_split_lines (chunks_of s deliveries) EmptyString). reflexivity.
Qed.
End BufferingFacts.

(** The handlers of [exec] decode each delivery on its own and pass to
    the per-line code, on each stream, exactly the lines closed by a
    line break of the text made of the decoded deliveries put end to
    end, once each and in order: that text is these lines, each followed
    by a line break, and then a fragment without line break, which stays
    pending; deliveries with the same decoded text give the same lines;
    and what [exec] logs is the log of these lines. *)
Theorem line_buffering_complete_lines
    (JSON_parse : string -> option YarnLog)
    (Buffer_toString : Buffer -> string)
    (cfg : Config) (child : ChildProcess) (args : list string) (s : Stream) :
  let deliveries := deliveries child in
  let text := decoded_text Buffer_toString (chunks_of s deliveries) in
  let handled := handle_data Buffer_toString EmptyString EmptyString deliveries in
  snd (exec JSON_parse Buffer_toString cfg child args)
  = EvSpawn (agent_name_or_npm cfg) (exec_args cfg args)
      :: flat_map (log_line JSON_parse (useJson cfg)) handled
  /\ exists rest,
       text = unlines (lines_of s handled) rest
       /\ Forall (fun line => has_newline line = false) (lines_of s handled)
       /\ has_newline rest = false
       /\ forall deliveries',
            decoded_text Buffer_toString (chunks_of s deliveries') = text ->
            lines_of s (handle_data Buffer_toString EmptyString EmptyString deliveries')
            = lines_of s handled.
Proof.
  intros ds text handled. split; [reflexivity|].
  pose proof (handle_data_split_lines Buffer_toString ds s) as H. fold handled text in H.
  exists (snd (feed Buffer_toString EmptyString (chunks_of s ds))).
  set (rest := snd (feed Buffer_toString EmptyString (chunks_of s ds))) in *.
  pose proof (split_lines_unlines text) as Hu.
  pose proof (split_lines_pieces text) as Hp.
  rewrite <- H in Hu, Hp. rewrite removelast_last, last_last in Hu.
  apply Forall_app in Hp as [Hl Hr]. apply Forall_cons in Hr as [Hr _].
  repeat split; [congruence | assumption | assumption |].
  intros ds' Heq. pose proof (handle_data_split_lines Buffer_toString ds' s) as H'.
  rewrite Heq, <- H in H'. apply app_inj_tail in H' as [H' _]. exact H'.
Qed.

(** The scenario of a JSON record cut in two: nothing is processed at
    the first delivery, one line at the second. *)
Example split_json_record_processed_once :
  handle_data utf8_decode EmptyString EmptyString
    [hd (Stdout, []) split_json_deliveries] = []
  /\ handle_data utf8_decode EmptyString EmptyString split_json_deliveries
     = [(Stdout, String "{"%char (String quote ("foobar" +:+ String quote ":1}")))].
Proof. split; reflexivity. Qed.

(** C9 fails on the code: the character U+00E9, bytes C3 A9, followed
    by a line break.  Delivered whole, the line handled is that
    character, the complete line of the output; cut between its two
    bytes, the output is the same, but each delivery is decoded on its
    own and the line handled, and logged by [exec], is two replacement
    characters. *)
Theorem line_cut_inside_a_character :
  List.concat (chunks_of Stdout cut_character_deliveries)
    = List.concat (chunks_of Stdout whole_character_delivery)
  /\ complete_lines_of_output utf8_decode Stdout cut_character_deliveries
     = [String "195"%char (String "169"%char EmptyString)]
  /\ handle_data utf8_decode EmptyString EmptyString whole_character_delivery
     = [(Stdout, String "195"%char (String "169"%char EmptyString))]
  /\ handle_data utf8_decode EmptyString EmptyString cut_character_deliveries
     = [(Stdout, replacement_character +:+ replacement_character)]
  /\ lines_of Stdout (handle_data utf8_decode EmptyString EmptyString cut_character_deliveries)
     <> complete_lines_of_output utf8_decode Stdout cut_character_deliveries
  /\ snd (exec (fun _ => None) utf8_decode no_agent
            {| deliveries := cut_character_deliveries; outcome := Exited 0;
               after := empty_world |} [])
     = [EvSpawn "npm" ["install"];
        EvLog "info" (LogText (replacement_character +:+ replacement_character))].
Proof. repeat split; try reflexivity. discriminate. Qed.

(** ** Process runner: choice of the output mode *)

(** What the comparison [version >= '2'] computes: a test on the first
    character of the version string. *)
Lemma js_string_geb_2 v :
  js_string_geb v "2" =
  match v with
  | String c _ => (50 <=? N_of_ascii c)%N
  | EmptyString => false
  end.
Proof.
  unfold js_string_geb, String.leb. destruct v as [|c v]; [reflexivity|].
  change "2" with (String "2"%char EmptyString). cbn [String.compare].
  unfold Ascii.compare. change (N_of_ascii "2") with 50%N.
  destruct (N.compare_spec 50 (N_of_ascii c)) as [H|H|H];
    destruct (N.leb_spec 50 (N_of_ascii c)); try lia; try reflexivity.
  destruct v; reflexivity.
Qed.

Lemma useJson_yarn v :
  useJson (config_of "yarn" v) =
  match v with
  | String c _ => (50 <=? N_of_ascii c)%N
  | EmptyString => false
  end.
Proof. unfold useJson. simpl. apply js_string_geb_2. Qed.

Lemma useJson_not_yarn cfg : agent_name_or_npm cfg <> "yarn" -> useJson cfg = false.
Proof.
  intros H. unfold useJson. destruct (String.eqb_spec (agent_name_or_npm cfg) "yarn"); tauto.
Qed.

(** The flag is passed exactly in the JSON mode. *)
Lemma exec_args_json_flag cfg args :
  exec_args cfg args =
  (if String.eqb (agent_name_or_npm cfg) "yarn" then args else "install" :: args)
    ++ (if useJson cfg then ["--json"] else []).
Proof.
  unfold exec_args. destruct (String.eqb (agent_name_or_npm cfg) "yarn"), (useJson cfg);
    simpl; rewrite ?app_nil_r; reflexivity.
Qed.

(** For the majors 2 to 9 the mode is the one the specification names. *)
Example useJson_yarn_versions :
  useJson (config_of "yarn" "1.22.19") = false
  /\ useJson (config_of "yarn" "2.4.3") = true
  /\ useJson (config_of "yarn" "3.6.4") = true
  /\ useJson (config_of "yarn" "4.0.2") = true
  /\ useJson (config_of "npm" "9.8.1") = false
  /\ useJson (config_of "pnpm" "8.6.0") = false.
Proof. repeat split; reflexivity. Qed.

(** C5 fails on the code: with yarn at version 10.0.0 the code compares
    the strings [10.0.0] and [2] character by character, finds the
    former smaller, and runs in plain-text mode without the [--json]
    flag, although the major version is 10. *)
Theorem useJson_yarn_10 :
  structured_output_tool (config_of "yarn" "10.0.0") = true
  /\ major_version "10.0.0" = 10%N
  /\ useJson (config_of "yarn" "10.0.0") = false
  /\ exec_args (config_of "yarn" "10.0.0") [] = [].
Proof. repeat split; reflexivity. Qed.

(** ** The service: events of its parts *)

Lemma filter_nil_of_Forall (p q : Event -> bool) ev :
  (forall e, q e = true -> p e = false) ->
  Forall (fun e => q e = true) ev -> List.filter p ev = [].
Proof.
  intros Hpq. induction 1 as [|e ev He _ IH]; [reflexivity|].
  simpl. rewrite (Hpq e He). assumption.
Qed.

Lemma count_app p a b : count p (a ++ b) = (count p a + count p b)%nat.
Proof. unfold count. rewrite List.filter_app, length_app. reflexivity. Qed.

Section ServiceFacts.
Variable compare : string -> string -> Z.
Variable valid : string -> bool.
Variable satisfies : string -> string -> bool.
Variable localeCompare : string -> string -> Z.
Variable isPlugin : string -> bool.
Variable isCompatible : RemotePackage -> bool.
Variable JSON_parse : string -> option YarnLog.
Variable Buffer_toString : Buffer -> string.

Local Abbreviation getPackage_resume := (_getPackage_resume compare isPlugin isCompatible).
Local Abbreviation await := (await_getPackage compare isPlugin isCompatible).
Local Abbreviation entry := (getDeps_entry compare valid isPlugin isCompatible).
Local Abbreviation loop := (getDeps_loop compare valid isPlugin isCompatible).
Local Abbreviation getDeps_ := (_getDeps compare valid isPlugin isCompatible).
Local Abbreviation refresh_ := (refresh compare valid isPlugin isCompatible).
Local Abbreviation install_ :=
  (install compare valid satisfies localeCompare isPlugin isCompatible JSON_parse Buffer_toString).

Lemma resume_events pid name response st :
  Forall (fun e => fetch_event e = true) (snd (getPackage_resume pid name response st)).
Proof. destruct response; repeat constructor. Qed.

Lemma await_events w name st :
  Forall (fun e => fetch_event e = true) (snd (await w name st)).
Proof.
  unfold await_getPackage, getPackage.
  destruct (pkgTasks st !! name) as [pid|]; cbn [_getPackage_start].
  - destruct (promises st !! pid) as [[n|v]|]; try constructor.
    pose proof (resume_events pid n (http_get w n) st) as H.
    destruct (getPackage_resume pid n (http_get w n) st) as [[v st2] ev2]. exact H.
  - match goal with |- context [promises ?s !! ?i] => destruct (promises s !! i) as [[n|v]|] end;
      try (repeat constructor).
    match goal with |- context [getPackage_resume ?a ?b ?c ?d] =>
      pose proof (resume_events a b c d) as H;
      destruct (getPackage_resume a b c d) as [[v st2] ev2] end.
    constructor; [reflexivity | exact H].
Qed.

Lemma entry_events w name dep st :
  Forall (fun e => fetch_event e = true) (snd (entry w name dep st)).
Proof.
  unfold getDeps_entry.
  destruct (match loadManifest w name with Some m => dollar_workspace m | None => false end);
    [constructor|].
  pose proof (await_events w name st) as H.
  destruct (await w name st) as [[v st'] ev]. exact H.
Qed.

Lemma loop_events w entries st :
  Forall (fun e => fetch_event e = true) (snd (loop w entries st)).
Proof.
  revert st. induction entries as [|[name dep] rest IH]; intros st; [constructor|].
  cbn [getDeps_loop]. pose proof (entry_events w name dep st) as H.
  destruct (entry w name dep st) as [[dep' st1] ev1].
  specialize (IH st1). destruct (loop w rest st1) as [[rest' st2] ev2].
  apply Forall_app. split; assumption.
Qed.

Lemma refresh_events w st :
  Forall (fun e => fetch_event e = true) (snd (refresh_ w false st)).
Proof.
  unfold refresh, _getDeps.
  match goal with |- context [loop ?a ?b ?c] =>
    pose proof (loop_events a b c) as H; destruct (loop a b c) as [[d st'] ev] end.
  exact H.
Qed.

Lemma exec_events cfg child args :
  snd (exec JSON_parse Buffer_toString cfg child args)
  = EvSpawn (agent_name_or_npm cfg) (exec_args cfg args)
      :: flat_map (log_line JSON_parse (useJson cfg))
           (handle_data Buffer_toString EmptyString EmptyString (deliveries child)).
Proof. reflexivity. Qed.

Lemma log_line_events useJson sl :
  Forall (fun e => fetch_event e = true) (log_line JSON_parse useJson sl).
Proof.
  destruct sl as [[] line]; unfold log_line, stdout_line, stderr_line; cbn [fst snd].
  - destruct (negb useJson || negb (starts_with_brace line)); [repeat constructor|].
    destruct (JSON_parse line) as [log|]; [destruct (levelMap (log_type log))|];
      repeat constructor.
  - repeat constructor.
Qed.

Lemma logs_events useJson lines :
  Forall (fun e => fetch_event e = true) (flat_map (log_line JSON_parse useJson) lines).
Proof.
  induction lines as [|sl lines IH]; [constructor|]. simpl.
  apply Forall_app. split; [apply log_line_events | assumption].
Qed.

(** [getDeps] right after [refresh] returns the task that [refresh]
    has just stored. *)
Lemma getDeps_after_refresh w w' st :
  getDeps compare valid isPlugin isCompatible w' (fst (refresh_ w false st))
  = (fst (fst (getDeps_ w (cleared st))), fst (refresh_ w false st), []).
Proof.
  unfold refresh. destruct (getDeps_ w (cleared st)) as [[d st'] ev]. reflexivity.
Qed.
End ServiceFacts.

(** ** Install: the shape of a run *)

Section InstallFacts.
Variable compare : string -> string -> Z.
Variable valid : string -> bool.
Variable satisfies : string -> string -> bool.
Variable localeCompare : string -> string -> Z.
Variable isPlugin : string -> bool.
Variable isCompatible : RemotePackage -> bool.
Variable JSON_parse : string -> option YarnLog.
Variable Buffer_toString : Buffer -> string.

Local Abbreviation getDeps_ := (_getDeps compare valid isPlugin isCompatible).
Local Abbreviation refresh_ := (refresh compare valid isPlugin isCompatible).
Local Abbreviation install_ :=
  (install compare valid satisfies localeCompare isPlugin isCompatible JSON_parse Buffer_toString).

Lemma satisfied_local w deps name :
  satisfied satisfies deps (_getLocalDeps w deps) name
  = negb (needs_install satisfies w deps name).
Proof.
  unfold satisfied, needs_install, range_satisfied, _getLocalDeps,
    workspace_linked, resolved_version.
  rewrite dict_get_valueMap, negb_involutive.
  destruct (dict_get deps name) as [range|]; simpl; [|reflexivity].
  destruct (loadManifest w name) as [meta|]; simpl.
  - destruct (local_version meta) as [v|]; simpl; [reflexivity|].
    rewrite andb_false_r. reflexivity.
  - rewrite andb_false_r. reflexivity.
Qed.

Lemma decide_loop_forced deps localDeps names :
  fst (decide_loop satisfies deps localDeps names)
  = existsb (fun name => negb (satisfied satisfies deps localDeps name)) names.
Proof.
  induction names as [|name rest IH]; [reflexivity|]. simpl.
  destruct (satisfied satisfies deps localDeps name); simpl; [|reflexivity].
  destruct (decide_loop satisfies deps localDeps rest). exact IH.
Qed.

(** The names tested by the loop: those before the first unsatisfied
    one, and that one. *)
Lemma decide_loop_seen deps localDeps names :
  exists before after,
    names = before ++ after
    /\ forallb (satisfied satisfies deps localDeps) before = true
    /\ snd (decide_loop satisfies deps localDeps names) = before ++ firstn 1 after
    /\ match after with
       | name :: _ => satisfied satisfies deps localDeps name = false
       | [] => True
       end.
Proof.
  induction names as [|name rest (before & after & Hn & Hb & Hs & Ha)].
  - exists [], []. repeat split.
  - simpl. destruct (satisfied satisfies deps localDeps name) eqn:E.
    + exists (name :: before), after. subst rest.
      destruct (decide_loop satisfies deps localDeps (before ++ after)).
      simpl in *. rewrite E, Hb, Hs. repeat split. exact Ha.
    + exists [], (name :: rest). repeat split. exact E.
Qed.

Lemma install_decision w deps forced :
  forced || fst (decide_loop satisfies deps (_getLocalDeps w deps) (dict_keys deps))
  = install_forced satisfies w deps forced.
Proof.
  unfold install_forced. rewrite decide_loop_forced. f_equal.
  induction (dict_keys deps) as [|name rest IH]; [reflexivity|]. simpl.
  rewrite satisfied_local, negb_involutive, IH. reflexivity.
Qed.

(** The two ways a call of [install] ends. *)
Lemma install_eq cfg w child deps forced st :
  let st1 := fst (override localeCompare deps st) in
  let ev1 := snd (override localeCompare deps st) in
  let forced' := install_forced satisfies w deps forced in
  let w' := if forced' then after child else w in
  let localDeps := _getLocalDeps w deps in
  install_ cfg w child deps forced st =
  if forced' && truthy_code (exit_code child) then
    (default 0 (exit_code child), st1,
     ev1 ++ snd (_install JSON_parse Buffer_toString cfg child))
  else
    (0, fst (refresh_ w' false st1),
     ev1 ++ (if forced' then snd (_install JSON_parse Buffer_toString cfg child) else [])
       ++ snd (refresh_ w' false st1)
       ++ flat_map (reload_entry w' (fst (fst (getDeps_ w' (cleared st1)))) localDeps)
            (dict_keys localDeps)
       ++ [EvRefreshData]).
Proof.
  intros st1 ev1 forced' w' localDeps. unfold install.
  rewrite install_decision. fold forced' localDeps.
  destruct (override localeCompare deps st) as [s1 e1] eqn:Eo.
  subst st1 ev1. cbn [fst snd].
  destruct forced'; cbn [andb].
  - unfold _install at 1, exec at 1.
    destruct (truthy_code (exit_code child)) eqn:Ec.
    + reflexivity.
    + fold w'. pose proof (getDeps_after_refresh compare valid isPlugin isCompatible w' w' s1) as Hg.
      destruct (refresh_ w' false s1) as [s2 e3] eqn:Er. cbn [fst snd] in *.
      rewrite Hg. reflexivity.
  - cbn [truthy_code negb Z.eqb]. fold w'.
    pose proof (getDeps_after_refresh compare valid isPlugin isCompatible w' w' s1) as Hg.
    destruct (refresh_ w' false s1) as [s2 e3] eqn:Er. cbn [fst snd] in *.
    rewrite Hg. reflexivity.
Qed.
End InstallFacts.

(** ** Install: what a run does on the outside *)

Lemma filter_flat_map_nil {A : Type} (p : Event -> bool) (f : A -> list Event) l :
  (forall x, List.filter p (f x) = []) -> List.filter p (flat_map f l) = [].
Proof.
  intros H. induction l as [|x l IH]; [reflexivity|].
  simpl. rewrite List.filter_app, H, IH. reflexivity.
Qed.

Lemma reload_entry_no_spawn w newDeps localDeps name :
  List.filter is_spawn (reload_entry w newDeps localDeps name) = [].
Proof.
  unfold reload_entry. destruct (dict_get newDeps name) as [newDep|]; [|reflexivity].
  destruct (truthy_opt_bool _); [reflexivity|].
  destruct (opt_string_eqb _ _); [reflexivity|].
  destruct (require_cache w name); reflexivity.
Qed.

Lemma reload_entry_no_write w newDeps localDeps name :
  List.filter is_write (reload_entry w newDeps localDeps name) = [].
Proof.
  unfold reload_entry. destruct (dict_get newDeps name) as [newDep|]; [|reflexivity].
  destruct (truthy_opt_bool _); [reflexivity|].
  destruct (opt_string_eqb _ _); [reflexivity|].
  destruct (require_cache w name); reflexivity.
Qed.

Lemma fetch_event_not_spawn e : fetch_event e = true -> is_spawn e = false.
Proof. destruct e; simpl; congruence. Qed.

Lemma fetch_event_not_write e : fetch_event e = true -> is_write e = false.
Proof. destruct e; simpl; congruence. Qed.

Lemma fetch_event_not_reload e : fetch_event e = true -> is_reload e = false.
Proof. destruct e; simpl; congruence. Qed.

Section InstallEffects.
Variable compare : string -> string -> Z.
Variable valid : string -> bool.
Variable satisfies : string -> string -> bool.
Variable localeCompare : string -> string -> Z.
Variable isPlugin : string -> bool.
Variable isCompatible : RemotePackage -> bool.
Variable JSON_parse : string -> option YarnLog.
Variable Buffer_toString : Buffer -> string.

Local Abbreviation refresh_ := (refresh compare valid isPlugin isCompatible).
Local Abbreviation install_ :=
  (install compare valid satisfies localeCompare isPlugin isCompatible JSON_parse Buffer_toString).

Lemma _install_spawns cfg child :
  List.filter is_spawn (snd (_install JSON_parse Buffer_toString cfg child))
  = [EvSpawn (agent_name_or_npm cfg)
       (exec_args cfg (if truthy_opt_string (config_endpoint cfg)
                       then ["--registry"; endpoint cfg] else []))].
Proof.
  unfold _install. rewrite exec_events. cbn [List.filter is_spawn]. f_equal.
  eapply filter_nil_of_Forall; [apply fetch_event_not_spawn | apply logs_events].
Qed.

Lemma _install_no_write cfg child :
  List.filter is_write (snd (_install JSON_parse Buffer_toString cfg child)) = [].
Proof.
  unfold _install. rewrite exec_events. cbn [List.filter is_write].
  eapply filter_nil_of_Forall; [apply fetch_event_not_write | apply logs_events].
Qed.

Lemma install_spawns cfg w child deps forced st :
  List.filter is_spawn (snd (install_ cfg w child deps forced st))
  = if install_forced satisfies w deps forced
    then List.filter is_spawn (snd (_install JSON_parse Buffer_toString cfg child))
    else [].
Proof.
  rewrite install_eq.
  destruct (install_forced satisfies w deps forced); cbn [andb];
    [destruct (truthy_code (exit_code child))|]; cbn [snd];
    rewrite !List.filter_app;
    rewrite ?(filter_nil_of_Forall is_spawn fetch_event _ fetch_event_not_spawn
                (refresh_events compare valid isPlugin isCompatible _ _)),
            ?(filter_flat_map_nil is_spawn _ _ (reload_entry_no_spawn _ _ _));
    simpl; rewrite ?app_nil_r; reflexivity.
Qed.

Lemma install_writes cfg w child deps forced st :
  List.filter is_write (snd (install_ cfg w child deps forced st))
  = snd (override localeCompare deps st).
Proof.
  rewrite install_eq.
  destruct (install_forced satisfies w deps forced); cbn [andb];
    [destruct (truthy_code (exit_code child))|]; cbn [snd];
    rewrite !List.filter_app, ?_install_no_write;
    rewrite ?(filter_nil_of_Forall is_write fetch_event _ fetch_event_not_write
                (refresh_events compare valid isPlugin isCompatible _ _)),
            ?(filter_flat_map_nil is_write _ _ (reload_entry_no_write _ _ _));
    simpl; rewrite ?app_nil_r; reflexivity.
Qed.

Lemma install_code cfg w child deps forced st :
  fst (fst (install_ cfg w child deps forced st))
  = if install_forced satisfies w deps forced && truthy_code (exit_code child)
    then default 0 (exit_code child) else 0.
Proof.
  rewrite install_eq.
  destruct (install_forced satisfies w deps forced && truthy_code (exit_code child));
    reflexivity.
Qed.

(** The result is 0 exactly when [install] goes through to its end. *)
Lemma install_code_zero cfg w child deps forced st :
  (fst (fst (install_ cfg w child deps forced st)) =? 0)
  = negb (install_forced satisfies w deps forced && truthy_code (exit_code child)).
Proof.
  rewrite install_code.
  destruct (install_forced satisfies w deps forced); cbn [andb]; [|reflexivity].
  destruct (exit_code child) as [c|]; cbn [truthy_code default from_option id]; [|reflexivity].
  destruct (Z.eqb_spec c 0) as [->|Hc]; cbn [negb]; [reflexivity|].
  apply Z.eqb_neq. exact Hc.
Qed.
End InstallEffects.

(** C1, as amended: with no override and without the forced flag,
    [install] writes the manifest once (its dependencies as they were,
    sorted by name), runs no process and returns 0. *)
Theorem install_empty_overrides
    (compare : string -> string -> Z) (valid : string -> bool)
    (satisfies : string -> string -> bool) (localeCompare : string -> string -> Z)
    (isPlugin : string -> bool) (isCompatible : RemotePackage -> bool)
    (JSON_parse : string -> option YarnLog)
    (Buffer_toString : Buffer -> string)
    (cfg : Config) (w : World) (child : ChildProcess) (st : Installer) :
  let result := install compare valid satisfies localeCompare isPlugin isCompatible
                  JSON_parse Buffer_toString cfg w child [] false st in
  fst (fst result) = 0
  /\ List.filter is_spawn (snd result) = []
  /\ List.filter is_write (snd result)
     = [EvWriteFile (Object_fromEntries
          (js_sort (fun a b => localeCompare (fst a) (fst b)) (manifest_dependencies st)))].
Proof.
  intros result. subst result.
  rewrite install_code, install_spawns, install_writes. repeat split.
Qed.

(** C1 as stated fails: the call with no override writes the manifest. *)
Lemma install_empty_overrides_writes :
  existsb is_write (snd (example_install no_agent empty_world (exits 0 empty_world)
                           [] false empty_installer)) = true.
Proof. vm_compute. reflexivity. Qed.

Lemma needs_install_workspace satisfies w deps name :
  In name (dict_keys deps) -> workspace_linked w name = true ->
  needs_install satisfies w deps name = false.
Proof.
  intros Hin Hw. unfold needs_install.
  apply dict_get_is_Some in Hin as [range Hr]. rewrite Hr, Hw. reflexivity.
Qed.

Lemma install_spawn_decision
    (compare : string -> string -> Z) (valid : string -> bool)
    (satisfies : string -> string -> bool) (localeCompare : string -> string -> Z)
    (isPlugin : string -> bool) (isCompatible : RemotePackage -> bool)
    (JSON_parse : string -> option YarnLog)
    (Buffer_toString : Buffer -> string)
    (cfg : Config) (w : World) (child : ChildProcess)
    (deps : Dict string) (forced : bool) (st : Installer) :
  existsb is_spawn (snd (install compare valid satisfies localeCompare isPlugin isCompatible
                           JSON_parse Buffer_toString cfg w child deps forced st))
  = install_forced satisfies w deps forced.
Proof.
  pose proof (install_spawns compare valid satisfies localeCompare isPlugin isCompatible
                JSON_parse Buffer_toString cfg w child deps forced st) as Hev.
  rewrite _install_spawns in Hev.
  destruct (install_forced satisfies w deps forced).
  - apply existsb_exists.
    match type of Hev with _ = [?e] =>
      assert (Hin : In e (List.filter is_spawn
        (snd (install compare valid satisfies localeCompare isPlugin isCompatible
                JSON_parse Buffer_toString cfg w child deps forced st))))
        by (rewrite Hev; left; reflexivity) end.
    apply filter_In in Hin. eauto.
  - destruct (existsb is_spawn _) eqn:E; [|reflexivity].
    apply existsb_exists in E as (e & He & Hs).
    assert (Hin : In e (List.filter is_spawn
        (snd (install compare valid satisfies localeCompare isPlugin isCompatible
                JSON_parse Buffer_toString cfg w child deps forced st)))) by (apply filter_In; auto).
    rewrite Hev in Hin. destruct Hin.
Qed.

(** C2: [install] runs the package manager exactly when the forced flag
    is set or some overridden name is neither workspace-linked nor has
    a non-empty requested range satisfied by its resolved local version;
    it runs it at most once; the loop tests the names in order up to the
    first such override and no further; when every overridden name is
    workspace-linked and the flag is not set, nothing is run. *)
Theorem install_runs_package_manager_iff
    (compare : string -> string -> Z) (valid : string -> bool)
    (satisfies : string -> string -> bool) (localeCompare : string -> string -> Z)
    (isPlugin : string -> bool) (isCompatible : RemotePackage -> bool)
    (JSON_parse : string -> option YarnLog)
    (Buffer_toString : Buffer -> string)
    (cfg : Config) (w : World) (child : ChildProcess)
    (deps : Dict string) (forced : bool) (st : Installer) :
  let ev := snd (install compare valid satisfies localeCompare isPlugin isCompatible
                   JSON_parse Buffer_toString cfg w child deps forced st) in
  let tested := snd (decide_loop satisfies deps (_getLocalDeps w deps) (dict_keys deps)) in
  existsb is_spawn ev = forced || existsb (needs_install satisfies w deps) (dict_keys deps)
  /\ (count is_spawn ev <= 1)%nat
  /\ (exists before after,
        dict_keys deps = before ++ after
        /\ forallb (fun name => negb (needs_install satisfies w deps name)) before = true
        /\ tested = before ++ firstn 1 after
        /\ match after with
           | name :: _ => needs_install satisfies w deps name = true
           | [] => True
           end)
  /\ (forced = false ->
      forallb (workspace_linked w) (dict_keys deps) = true ->
      existsb is_spawn ev = false).
Proof.
  intros ev tested.
  assert (Hev : List.filter is_spawn ev
                = if install_forced satisfies w deps forced
                  then List.filter is_spawn (snd (_install JSON_parse Buffer_toString cfg child)) else []).
  { apply install_spawns. }
  rewrite _install_spawns in Hev.
  assert (Hex : existsb is_spawn ev = install_forced satisfies w deps forced)
    by apply install_spawn_decision.
  split; [exact Hex|]. split; [|split].
  - unfold count. rewrite Hev.
    destruct (install_forced satisfies w deps forced); simpl; lia.
  - destruct (decide_loop_seen satisfies deps (_getLocalDeps w deps) (dict_keys deps))
      as (before & after & Hk & Hb & Hs & Ha).
    exists before, after. split; [exact Hk|]. split; [|split; [exact Hs|]].
    + rewrite <- Hb. clear. induction before as [|n l IH]; [reflexivity|].
      simpl. rewrite satisfied_local, IH. reflexivity.
    + destruct after as [|name rest]; [exact I|].
      rewrite satisfied_local in Ha. apply negb_false_iff. exact Ha.
  - intros -> Hws. rewrite Hex. unfold install_forced. cbn [orb].
    apply not_true_is_false. intros E.
    apply existsb_exists in E as (name & Hin & Hn).
    rewrite forallb_forall in Hws.
    rewrite (needs_install_workspace satisfies w deps name Hin (Hws name Hin)) in Hn.
    discriminate.
Qed.

(** When the process exits by itself or cannot be started, [exec]
    resolves to its exit code or to -1, and a call of [install] that
    runs the process returns that value. *)
Lemma install_propagates_exit_code
    (compare : string -> string -> Z) (valid : string -> bool)
    (satisfies : string -> string -> bool) (localeCompare : string -> string -> Z)
    (isPlugin : string -> bool) (isCompatible : RemotePackage -> bool)
    (JSON_parse : string -> option YarnLog)
    (Buffer_toString : Buffer -> string)
    (cfg : Config) (w : World) (child : ChildProcess)
    (deps : Dict string) (forced : bool) (st : Installer) (args : list string) :
  let result := install compare valid satisfies localeCompare isPlugin isCompatible
                  JSON_parse Buffer_toString cfg w child deps forced st in
  outcome child <> Killed ->
  exists code,
    fst (exec JSON_parse Buffer_toString cfg child args) = Some code
    /\ code = match outcome child with Exited c => c | _ => -1 end
    /\ fst (fst result) = if existsb is_spawn (snd result) then code else 0.
Proof.
  intros result Hk. subst result.
  rewrite (install_spawn_decision compare valid satisfies localeCompare
             isPlugin isCompatible JSON_parse Buffer_toString cfg w child deps forced st).
  rewrite install_code. unfold exec, exit_code. cbn [fst].
  destruct (outcome child) as [c| |]; [| |congruence].
  - exists c. split; [reflexivity|]. split; [reflexivity|].
    destruct (install_forced satisfies w deps forced); cbn [andb truthy_code]; [|reflexivity].
    destruct (Z.eqb_spec c 0) as [->|]; reflexivity.
  - exists (-1). split; [reflexivity|]. split; [reflexivity|].
    destruct (install_forced satisfies w deps forced); reflexivity.
Qed.

(** C8 fails on the code: when a signal ends the process, the ['exit']
    event carries [null]; [exec] resolves to [null], which is no exit
    code, and [install], which has run the process, takes it for a
    success: it goes on to the refresh and returns 0. *)
Theorem exec_killed_by_signal
    (compare : string -> string -> Z) (valid : string -> bool)
    (satisfies : string -> string -> bool) (localeCompare : string -> string -> Z)
    (isPlugin : string -> bool) (isCompatible : RemotePackage -> bool)
    (JSON_parse : string -> option YarnLog)
    (Buffer_toString : Buffer -> string)
    (cfg : Config) (w w' : World) (output : list (Stream * Buffer))
    (deps : Dict string) (st : Installer) (args : list string) :
  let child := {| deliveries := output; outcome := Killed; after := w' |} in
  let result := install compare valid satisfies localeCompare isPlugin isCompatible
                  JSON_parse Buffer_toString cfg w child deps true st in
  fst (exec JSON_parse Buffer_toString cfg child args) = None
  /\ existsb is_spawn (snd result) = true
  /\ fst (fst result) = 0
  /\ In EvRefreshData (snd result).
Proof.
  intros child result. split; [reflexivity|]. subst result. split; [|split].
  - rewrite install_spawn_decision. reflexivity.
  - rewrite install_code. reflexivity.
  - rewrite install_eq. cbn [install_forced orb andb exit_code outcome child truthy_code snd].
    rewrite !in_app_iff. right. right. right. right. left. reflexivity.
Qed.

(** ** Fetch tasks *)

Section FetchFacts.
Variable compare : string -> string -> Z.
Variable isPlugin : string -> bool.
Variable isCompatible : RemotePackage -> bool.

Local Abbreviation resume := (_getPackage_resume compare isPlugin isCompatible).
Local Abbreviation step_ := (step compare isPlugin isCompatible).
Local Abbreviation run_ := (run compare isPlugin isCompatible).

Lemma getPackage_present name st pid :
  pkgTasks st !! name = Some pid -> getPackage name st = (pid, st, []).
Proof. intros H. unfold getPackage. rewrite H. reflexivity. Qed.

Lemma getPackage_absent name st :
  pkgTasks st !! name = None ->
  getPackage name st
  = (length (promises st),
     with_tasks (<[name := length (promises st)]> (pkgTasks st))
       (promises st ++ [Pending name]) st,
     [EvHttpGet name]).
Proof. intros H. unfold getPackage. rewrite H. reflexivity. Qed.

Lemma resume_tasks pid name response st :
  pkgTasks (snd (fst (resume pid name response st))) = pkgTasks st.
Proof. destruct response; reflexivity. Qed.

Lemma resume_no_fetch pid name response st n :
  List.filter (is_fetch_of n) (snd (resume pid name response st)) = [].
Proof. destruct response; reflexivity. Qed.

(** What one operation adds to the requests for [name], given whether
    a task for [name] was there. *)
Lemma step_fetches op st name :
  let st' := fst (step_ op st) in
  let open (s : Installer) := match pkgTasks s !! name with Some _ => 0%nat | None => 1%nat end in
  (count (is_fetch_of name) (snd (step_ op st)) + open st'
   <= open st + (if is_invalidate op then 1%nat else 0%nat))%nat.
Proof.
  destruct op as [n|n versions|pid response| |]; cbn [step is_invalidate].
  - destruct (pkgTasks st !! n) as [p|] eqn:E.
    + rewrite (getPackage_present _ _ _ E). simpl. lia.
    + rewrite (getPackage_absent _ _ E). cbn [fst snd with_tasks pkgTasks].
      unfold count. cbn [List.filter is_fetch_of].
      destruct (String.eqb_spec n name) as [->|Hne].
      * rewrite lookup_insert_eq, E. simpl. lia.
      * rewrite lookup_insert_ne by assumption. simpl. lia.
  - unfold setPackage. cbn [fst snd with_tasks with_caches pkgTasks].
    destruct (decide (n = name)) as [->|Hne].
    + rewrite lookup_insert_eq. unfold count. simpl. lia.
    + rewrite lookup_insert_ne by assumption. unfold count. simpl. lia.
  - destruct (promises st !! pid) as [[n|v]|]; try (unfold count; simpl; lia).
    pose proof (resume_tasks pid n response st) as Ht.
    pose proof (resume_no_fetch pid n response st name) as Hf.
    destruct (resume pid n response st) as [[v st'] ev]. cbn [fst snd] in *.
    unfold count. rewrite Hf, Ht. simpl. lia.
  - unfold count. simpl. lia.
  - unfold count. simpl. rewrite lookup_empty.
    destruct (pkgTasks st !! name); lia.
Qed.

Lemma run_fetches ops st name :
  (count (is_fetch_of name) (snd (run_ ops st))
   <= (match pkgTasks st !! name with Some _ => 0%nat | None => 1%nat end)
      + length (List.filter is_invalidate ops))%nat.
Proof.
  revert st. induction ops as [|op ops IH]; intros st.
  - unfold count. simpl. lia.
  - cbn [run]. pose proof (step_fetches op st name) as Hs.
    destruct (step_ op st) as [st1 ev1]. specialize (IH st1).
    destruct (run_ ops st1) as [st2 ev2]. cbn [fst snd] in *.
    rewrite count_app. cbn [List.filter]. destruct (is_invalidate op); simpl in *; lia.
Qed.

Lemma step_keeps_task op st name pid :
  keeps_task name op = true ->
  pkgTasks st !! name = Some pid ->
  pkgTasks (fst (step_ op st)) !! name = Some pid.
Proof.
  intros Hk Hp. destruct op as [n|n versions|p response| |]; cbn [step keeps_task] in *.
  - destruct (pkgTasks st !! n) as [q|] eqn:E.
    + rewrite (getPackage_present _ _ _ E). exact Hp.
    + rewrite (getPackage_absent _ _ E). cbn [fst with_tasks pkgTasks].
      rewrite lookup_insert_ne; [exact Hp | congruence].
  - unfold setPackage. cbn [fst with_tasks with_caches pkgTasks].
    apply negb_true_iff, String.eqb_neq in Hk. rewrite lookup_insert_ne; assumption.
  - destruct (promises st !! p) as [[n|v]|]; try exact Hp.
    pose proof (resume_tasks p n response st) as Ht.
    destruct (resume p n response st) as [[v st'] ev]. cbn [fst snd] in *. congruence.
  - exact Hp.
  - discriminate.
Qed.

Lemma run_keeps_task ops st name pid :
  forallb (keeps_task name) ops = true ->
  pkgTasks st !! name = Some pid ->
  pkgTasks (fst (run_ ops st)) !! name = Some pid.
Proof.
  revert st. induction ops as [|op ops IH]; intros st Hk Hp; [exact Hp|].
  cbn [run forallb] in *. apply andb_true_iff in Hk as [Hk Hks].
  pose proof (step_keeps_task op st name pid Hk Hp) as Hs.
  destruct (step_ op st) as [st1 ev1]. specialize (IH st1 Hks Hs).
  destruct (run_ ops st1) as [st2 ev2]. exact IH.
Qed.

(** A settled task keeps its value. *)
Lemma step_settled op st pid v :
  promises st !! pid = Some (Resolved v) ->
  promises (fst (step_ op st)) !! pid = Some (Resolved v).
Proof.
  intros Hp. destruct op as [n|n versions|p response| |]; cbn [step].
  - destruct (pkgTasks st !! n) as [q|] eqn:E.
    + rewrite (getPackage_present _ _ _ E). exact Hp.
    + rewrite (getPackage_absent _ _ E). cbn [fst with_tasks promises].
      apply lookup_app_l_Some. exact Hp.
  - unfold setPackage. cbn [fst with_tasks with_caches promises].
    apply lookup_app_l_Some. exact Hp.
  - destruct (promises st !! p) as [[n|v']|] eqn:E; try exact Hp.
    assert (p <> pid) by congruence.
    destruct response; cbn [_getPackage_resume fst snd with_tasks with_caches promises];
      rewrite list_lookup_insert_ne; assumption.
  - exact Hp.
  - exact Hp.
Qed.

Lemma run_settled ops st pid v :
  promises st !! pid = Some (Resolved v) ->
  promises (fst (run_ ops st)) !! pid = Some (Resolved v).
Proof.
  revert st. induction ops as [|op ops IH]; intros st Hp; [exact Hp|].
  cbn [run]. pose proof (step_settled op st pid v Hp) as Hs.
  destruct (step_ op st) as [st1 ev1]. specialize (IH st1 Hs).
  destruct (run_ ops st1) as [st2 ev2]. exact IH.
Qed.
End FetchFacts.

(** C7, as amended: over any sequence of calls, responses and timer
    ticks, the network requests for one name number at most one more
    than the invalidations; [getPackage] on a name that has a task
    returns that task, changes nothing and sends nothing; as long as the
    cache is not invalidated and [setPackage] is not called for the
    name, a later caller gets the same task as an earlier one; and a
    task once settled keeps its value. *)
Theorem getPackage_deduplicates
    (compare : string -> string -> Z)
    (isPlugin : string -> bool) (isCompatible : RemotePackage -> bool)
    (ops : list Op) (st : Installer) (name : string) :
  let first := getPackage name st in
  let st1 := snd (fst first) in
  let st2 := fst (run compare isPlugin isCompatible ops st1) in
  (count (is_fetch_of name) (snd first ++ snd (run compare isPlugin isCompatible ops st1))
   <= 1 + length (List.filter is_invalidate ops))%nat
  /\ (forall pid, pkgTasks st !! name = Some pid -> first = (pid, st, []))
  /\ (forallb (keeps_task name) ops = true ->
      getPackage name st2 = (fst (fst first), st2, []))
  /\ (forall pid v, promises st1 !! pid = Some (Resolved v) ->
                    promises st2 !! pid = Some (Resolved v)).
Proof.
  intros first st1 st2.
  assert (Htask : pkgTasks st1 !! name = Some (fst (fst first))).
  { subst st1 first. destruct (pkgTasks st !! name) as [p|] eqn:E.
    - rewrite (getPackage_present _ _ _ E). exact E.
    - rewrite (getPackage_absent _ _ E). cbn [fst snd with_tasks pkgTasks].
      apply lookup_insert_eq. }
  split; [|split; [|split]].
  - rewrite count_app.
    pose proof (run_fetches compare isPlugin isCompatible ops st1 name) as Hr.
    rewrite Htask in Hr.
    assert (count (is_fetch_of name) (snd first) <= 1)%nat; [|lia].
    subst first. unfold getPackage, count. destruct (pkgTasks st !! name); simpl; [lia|].
    destruct (String.eqb name name); simpl; lia.
  - intros pid Hp. apply getPackage_present. exact Hp.
  - intros Hk. apply getPackage_present.
    apply (run_keeps_task compare isPlugin isCompatible ops st1 name _ Hk Htask).
  - intros pid v. apply run_settled.
Qed.

(** C7 as stated fails: with no invalidation in between, a caller that
    asks for a name while its request is pending and a caller that asks
    after [setPackage] has been called for the name hold different
    tasks, and these settle to different results: the first to nothing
    when its request fails, the second to the versions set by hand.  No
    second request is sent. *)
Lemma getPackage_task_replaced_by_setPackage :
  let ops := [OpSetPackage "left-pad" example_versions] in
  let first := getPackage "left-pad" empty_installer in
  let st2 := fst (run semver_compare (fun _ => false) (fun _ => true) ops (snd (fst first))) in
  let second := getPackage "left-pad" st2 in
  let st3 := fst (step semver_compare (fun _ => false) (fun _ => true) (OpSettle 0 None)
                    (snd (fst second))) in
  List.filter is_invalidate ops = []
  /\ promises (snd (fst first)) !! fst (fst first) = Some (Pending "left-pad")
  /\ fst (fst second) <> fst (fst first)
  /\ snd second = []
  /\ promises st3 !! fst (fst first) = Some (Resolved None)
  /\ promises st3 !! fst (fst second)
     = Some (Resolved (Some (getVersions semver_compare example_versions))).
Proof. vm_compute. repeat split. discriminate. Qed.

(** ** Dependency snapshot *)

Section SnapshotFacts.
Variable compare : string -> string -> Z.
Variable valid : string -> bool.
Variable isPlugin : string -> bool.
Variable isCompatible : RemotePackage -> bool.

Local Abbreviation await := (await_getPackage compare isPlugin isCompatible).
Local Abbreviation entry := (getDeps_entry compare valid isPlugin isCompatible).
Local Abbreviation loop := (getDeps_loop compare valid isPlugin isCompatible).

(** The record built for one name, field by field. *)
Lemma entry_fields w name dep st :
  let dep' := fst (fst (entry w name dep st)) in
  request dep' = request dep
  /\ resolved dep' = match loadManifest w name with
                     | Some meta => local_version meta
                     | None => resolved dep
                     end
  /\ workspace dep' = match loadManifest w name with
                      | Some meta => Some (dollar_workspace meta)
                      | None => workspace dep
                      end
  /\ invalid dep' = if workspace_linked w name then invalid dep
                    else if valid (request dep) then invalid dep else Some true.
Proof.
  unfold getDeps_entry, workspace_linked.
  destruct (loadManifest w name) as [meta|]; [destruct (dollar_workspace meta) eqn:Ew|].
  - cbn. rewrite ?Ew. repeat split.
  - destruct (await w name st) as [[[vm|] st'] ev]; cbn;
      destruct (valid (request dep)); cbn; rewrite ?Ew; repeat split.
  - destruct (await w name st) as [[[vm|] st'] ev]; cbn;
      destruct (valid (request dep)); repeat split.
Qed.

(** The snapshot has the names of the entries, in their order, each
    with the record built for it. *)
Lemma loop_result w entries st :
  Forall2 (fun e r => fst r = fst e
                      /\ exists st0, snd r = fst (fst (entry w (fst e) (snd e) st0)))
    entries (fst (fst (loop w entries st))).
Proof.
  revert st. induction entries as [|[name dep] rest IH]; intros st; [constructor|].
  cbn [getDeps_loop]. destruct (entry w name dep st) as [[dep' st1] ev1] eqn:E.
  specialize (IH st1). destruct (loop w rest st1) as [[rest' st2] ev2].
  cbn [fst] in *. constructor; [|exact IH].
  split; [reflexivity|]. exists st. cbn [fst snd]. rewrite E. reflexivity.
Qed.

Lemma loop_keys w entries st :
  dict_keys (fst (fst (loop w entries st))) = dict_keys entries.
Proof.
  pose proof (loop_result w entries st) as H.
  induction H as [|e r es rs [Hk _] _ IH]; [reflexivity|].
  simpl. rewrite Hk. f_equal. exact IH.
Qed.

Lemma loop_get_None w entries st name :
  dict_get entries name = None ->
  dict_get (fst (fst (loop w entries st))) name = None.
Proof.
  intros H. apply dict_get_None. rewrite loop_keys. apply dict_get_None. exact H.
Qed.

Lemma loop_get_Some w entries st name dep :
  dict_get entries name = Some dep ->
  exists st0,
    dict_get (fst (fst (loop w entries st))) name = Some (fst (fst (entry w name dep st0))).
Proof.
  pose proof (loop_result w entries st) as H.
  induction H as [|[k d] [k' d'] es rs [Hk [st0 Hd]] _ IH]; [discriminate|].
  simpl in Hk, Hd. subst k'. simpl.
  destruct (String.eqb_spec k name) as [->|Hne]; [|exact IH].
  intros [= <-]. exists st0. rewrite Hd. reflexivity.
Qed.
End SnapshotFacts.

(** C4, as amended: in the snapshot built by [_getDeps], the [invalid]
    flag of a record is set exactly when [valid] of semver, the test for
    a single version, rejects its request string and the package is not
    a workspace link; a workspace-linked package is never marked.  The
    request string of a record is the declared one without its leading
    [^] or [~], and the workspace flag is the one of the local
    installation. *)
Theorem snapshot_invalid_flag
    (compare : string -> string -> Z) (valid : string -> bool)
    (isPlugin : string -> bool) (isCompatible : RemotePackage -> bool)
    (w : World) (st : Installer) :
  let snapshot := fst (fst (_getDeps compare valid isPlugin isCompatible w st)) in
  Forall (fun nd =>
            (invalid (snd nd) = Some true
             <-> valid (request (snd nd)) = false /\ workspace (snd nd) <> Some true)
            /\ invalid (snd nd) <> Some false
            /\ (workspace_linked w (fst nd) = true <-> workspace (snd nd) = Some true))
    snapshot
  /\ map (fun nd => (fst nd, request (snd nd))) snapshot
     = map (fun e => (fst e, normalize_request (snd e))) (manifest_dependencies st).
Proof.
  intros snapshot. subst snapshot. unfold _getDeps.
  pose proof (loop_result compare valid isPlugin isCompatible w
    (valueMap (manifest_dependencies st)
       (fun request _ => new_dependency (normalize_request request))) st) as H.
  remember (fst (fst (getDeps_loop compare valid isPlugin isCompatible w _ st))) as snapshot
    eqn:Es. clear Es.
  unfold valueMap in H. apply Forall2_fmap_l in H.
  induction H as [|e [name dep'] es rs [Hk [st0 Hd]] _ [IH1 IH2]]; [split; constructor|].
  cbn [fst snd] in *. subst name.
  destruct (entry_fields compare valid isPlugin isCompatible w (fst e)
              (new_dependency (normalize_request (snd e))) st0) as (Hr & _ & Hw & Hi).
  rewrite <- Hd in Hr, Hw, Hi. cbn [new_dependency request workspace invalid] in Hr, Hw, Hi.
  split.
  - constructor; [|exact IH1]. cbn [fst snd]. rewrite Hr, Hw, Hi.
    unfold workspace_linked.
    destruct (loadManifest w (fst e)) as [meta|]; [destruct (dollar_workspace meta)|];
      destruct (valid (normalize_request (snd e))); cbn;
      repeat split; try congruence; try tauto; intros; intuition congruence.
  - cbn [map fst snd]. rewrite Hr, IH2. reflexivity.
Qed.

(** C4 as stated fails: the request [>=1.0.0 <2.0.0] of a package that
    is not workspace-linked is a range for semver, and its record is
    marked invalid all the same, because the test applied is the one for
    a single version. *)
Lemma snapshot_marks_valid_range :
  let snapshot := fst (fst (_getDeps semver_compare semver_valid (fun _ => false) (fun _ => true)
                              left_pad_world range_installer)) in
  semver_validRange ">=1.0.0 <2.0.0" = true
  /\ semver_valid ">=1.0.0 <2.0.0" = false
  /\ workspace_linked left_pad_world "left-pad" = false
  /\ snapshot = [("left-pad",
                  {| request := ">=1.0.0 <2.0.0"; resolved := Some "1.0.5";
                     workspace := Some false; invalid := Some true; latest := None |})].
Proof. vm_compute. repeat split. Qed.

(** ** Manifest override *)

Lemma apply_overrides_other deps names m name :
  ~ In name names -> dict_get (apply_overrides deps names m) name = dict_get m name.
Proof.
  revert m. induction names as [|key rest IH]; intros m Hn; [reflexivity|].
  simpl in *. rewrite IH by tauto.
  destruct (truthy_string _); rewrite ?dict_get_set, ?dict_get_delete;
    destruct (String.eqb_spec key name); tauto.
Qed.

Lemma apply_overrides_get deps names m name :
  In name names ->
  dict_get (apply_overrides deps names m) name
  = let value := default EmptyString (dict_get deps name) in
    if truthy_string value then Some value else None.
Proof.
  revert m. induction names as [|key rest IH]; intros m Hin; [destruct Hin|].
  simpl. destruct (in_dec string_dec name rest) as [Hr|Hr]; [apply IH; exact Hr|].
  destruct Hin as [->|]; [|tauto].
  rewrite apply_overrides_other by assumption.
  destruct (truthy_string _); rewrite ?dict_get_set, ?dict_get_delete, String.eqb_refl;
    reflexivity.
Qed.

Lemma apply_overrides_keys deps names m name :
  In name (dict_keys (apply_overrides deps names m)) ->
  In name (dict_keys m) \/ In name names.
Proof.
  intros H. destruct (in_dec string_dec name names) as [Hin|Hn]; [right; exact Hin | left].
  apply dict_get_is_Some. rewrite <- (apply_overrides_other deps names m name Hn).
  apply dict_get_is_Some. exact H.
Qed.

(** [override] brings in no name: the names of the new manifest are
    among those of the old one and of the override. *)
Lemma override_keys localeCompare deps st name :
  In name (dict_keys (manifest_dependencies (fst (override localeCompare deps st)))) ->
  In name (dict_keys (manifest_dependencies st)) \/ In name (dict_keys deps).
Proof.
  unfold override. cbn [fst with_manifest manifest_dependencies]. intros Hk.
  apply (proj1 (fromEntries_keys_In _ _)) in Hk.
  apply in_map_iff in Hk as (e & <- & He).
  apply js_sort_In in He. apply (apply_overrides_keys deps).
  apply in_map. exact He.
Qed.

(** After [override], an overridden name is declared exactly when its
    new range is not empty. *)
Lemma override_declares localeCompare deps st name :
  In name (dict_keys deps) ->
  is_Some (dict_get (manifest_dependencies (fst (override localeCompare deps st))) name)
  <-> truthy_string (default EmptyString (dict_get deps name)) = true.
Proof.
  intros Hin. unfold override. cbn [fst with_manifest manifest_dependencies].
  rewrite fromEntries_get_is_Some.
  set (d1 := apply_overrides deps (dict_keys deps) (manifest_dependencies st)).
  assert (Hs : In name (map fst (js_sort (fun a b => localeCompare (fst a) (fst b)) d1))
               <-> In name (dict_keys d1)).
  { unfold dict_keys. rewrite !in_map_iff. split; intros (e & He & Hi); exists e;
      (split; [exact He|]); apply js_sort_In in Hi || apply js_sort_In; assumption. }
  rewrite Hs, <- dict_get_is_Some. subst d1. rewrite (apply_overrides_get _ _ _ _ Hin).
  cbv zeta. destruct (truthy_string _); split; intros H; eauto; try discriminate.
  destruct H; discriminate.
Qed.

(** ** Reload after install *)

Lemma count_flat_map {A : Type} (p : Event -> bool) (f : A -> list Event)
    (q : A -> bool) (l : list A) :
  (forall x, In x l -> count p (f x) = if q x then 1%nat else 0%nat) ->
  count p (flat_map f l) = length (List.filter q l).
Proof.
  induction l as [|x l IH]; intros H; [reflexivity|].
  simpl. rewrite count_app, (H x) by (left; reflexivity).
  rewrite IH by (intros y Hy; apply H; right; exact Hy).
  destruct (q x); reflexivity.
Qed.

Lemma count_nil_of_Forall (p q : Event -> bool) ev :
  (forall e, q e = true -> p e = false) ->
  Forall (fun e => q e = true) ev -> count p ev = 0%nat.
Proof. intros Hpq H. unfold count. rewrite (filter_nil_of_Forall p q ev Hpq H). reflexivity. Qed.

Section ReloadFacts.
Variable compare : string -> string -> Z.
Variable valid : string -> bool.
Variable satisfies : string -> string -> bool.
Variable localeCompare : string -> string -> Z.
Variable isPlugin : string -> bool.
Variable isCompatible : RemotePackage -> bool.
Variable JSON_parse : string -> option YarnLog.
Variable Buffer_toString : Buffer -> string.

Local Abbreviation getDeps_ := (_getDeps compare valid isPlugin isCompatible).
Local Abbreviation refresh_ := (refresh compare valid isPlugin isCompatible).
Local Abbreviation install_ :=
  (install compare valid satisfies localeCompare isPlugin isCompatible JSON_parse Buffer_toString).

(** The record of the rebuilt snapshot for a declared name. *)
Lemma snapshot_get w st name :
  match dict_get (fst (fst (getDeps_ w st))) name with
  | Some dep => is_Some (dict_get (manifest_dependencies st) name)
                /\ resolved dep = resolved_version w name
  | None => dict_get (manifest_dependencies st) name = None
  end.
Proof.
  unfold _getDeps.
  set (entries := valueMap (manifest_dependencies st)
                    (fun request _ => new_dependency (normalize_request request))).
  assert (He : dict_get entries name
               = option_map (fun request => new_dependency (normalize_request request))
                   (dict_get (manifest_dependencies st) name))
    by apply dict_get_valueMap.
  destruct (dict_get (manifest_dependencies st) name) as [request|]; simpl in He.
  - destruct (loop_get_Some compare valid isPlugin isCompatible w entries st name _ He)
      as [st0 ->].
    split; [eauto|].
    destruct (entry_fields compare valid isPlugin isCompatible w name
                (new_dependency (normalize_request request)) st0) as (_ & Hr & _).
    rewrite Hr. unfold resolved_version. destruct (loadManifest w name); reflexivity.
  - rewrite (loop_get_None compare valid isPlugin isCompatible w entries st name He).
    reflexivity.
Qed.

Lemma reload_entry_count w w' deps st name :
  In name (dict_keys deps) ->
  let st1 := fst (override localeCompare deps st) in
  count is_reload
    (reload_entry w' (fst (fst (getDeps_ w' (cleared st1)))) (_getLocalDeps w deps) name)
  = if reload_needed w w' deps name then 1%nat else 0%nat.
Proof.
  intros Hin st1. unfold reload_entry, reload_needed.
  pose proof (snapshot_get w' (cleared st1) name) as Hs.
  pose proof (override_declares localeCompare deps st name Hin) as Hd. fold st1 in Hd.
  change (manifest_dependencies (cleared st1)) with (manifest_dependencies st1) in Hs.
  assert (Hl : dict_get (_getLocalDeps w deps) name
               = option_map (fun request =>
                   match loadManifest w name with
                   | Some meta => set_local meta (new_dependency request)
                   | None => new_dependency request
                   end) (dict_get deps name))
    by apply dict_get_valueMap.
  apply dict_get_is_Some in Hin as [range Hr]. rewrite Hr in Hl. simpl in Hl.
  rewrite Hl, Hr in *. cbn [default from_option id] in *.
  assert (Hw : truthy_opt_bool (workspace
                 match loadManifest w name with
                 | Some meta => set_local meta (new_dependency range)
                 | None => new_dependency range
                 end) = workspace_linked w name).
  { unfold workspace_linked. destruct (loadManifest w name); reflexivity. }
  assert (Hv : resolved
                 match loadManifest w name with
                 | Some meta => set_local meta (new_dependency range)
                 | None => new_dependency range
                 end = resolved_version w name).
  { unfold resolved_version. destruct (loadManifest w name); reflexivity. }
  rewrite Hw, Hv.
  destruct (truthy_string range) eqn:Et;
    destruct (dict_get (fst (fst (getDeps_ w' (cleared st1)))) name) as [newDep|].
  - destruct Hs as [_ ->]. cbn [andb].
    destruct (workspace_linked w name); [reflexivity|]. cbn [negb andb].
    destruct (opt_string_eqb _ _); [reflexivity|]. cbn [negb andb].
    destruct (require_cache w' name); reflexivity.
  - assert (Hsome : is_Some (dict_get (manifest_dependencies st1) name))
      by (apply Hd; reflexivity).
    rewrite Hs in Hsome. destruct Hsome; discriminate.
  - destruct Hs as [Hsome _]. apply Hd in Hsome. discriminate.
  - reflexivity.
Qed.

Lemma install_reloads cfg w child deps forced st :
  let result := install_ cfg w child deps forced st in
  let w' := if install_forced satisfies w deps forced then after child else w in
  count is_reload (snd result)
  = if fst (fst result) =? 0
    then length (List.filter (reload_needed w w' deps) (dict_keys deps))
    else 0%nat.
Proof.
  intros result w'. subst result. rewrite install_code_zero, install_eq. fold w'.
  assert (Hlog : count is_reload (snd (_install JSON_parse Buffer_toString cfg child)) = 0%nat).
  { unfold _install. rewrite exec_events. unfold count. cbn [List.filter is_reload].
    fold (count is_reload (flat_map (log_line JSON_parse (useJson cfg))
            (handle_data Buffer_toString EmptyString EmptyString (deliveries child)))).
    eapply count_nil_of_Forall; [apply fetch_event_not_reload | apply logs_events]. }
  assert (Hwr : count is_reload (snd (override localeCompare deps st)) = 0%nat)
    by reflexivity.
  assert (Hrf : forall s, count is_reload (snd (refresh_ w' false s)) = 0%nat).
  { intros s. eapply count_nil_of_Forall;
      [apply fetch_event_not_reload | apply refresh_events]. }
  assert (Hrl : count is_reload
                  (flat_map (reload_entry w'
                     (fst (fst (getDeps_ w' (cleared (fst (override localeCompare deps st))))))
                     (_getLocalDeps w deps)) (dict_keys (_getLocalDeps w deps)))
                = length (List.filter (reload_needed w w' deps) (dict_keys deps))).
  { unfold _getLocalDeps at 2. rewrite dict_keys_valueMap.
    apply count_flat_map. intros name Hin. apply reload_entry_count. exact Hin. }
  destruct (install_forced satisfies w deps forced); cbn [andb].
  - destruct (truthy_code (exit_code child)); cbn [negb snd].
    + rewrite !count_app, Hwr, Hlog. reflexivity.
    + rewrite !count_app, Hwr, Hlog, Hrf, Hrl. unfold count. simpl. lia.
  - cbn [negb snd]. rewrite !count_app, Hwr, Hrf, Hrl. unfold count. simpl. lia.
Qed.
End ReloadFacts.

(** ** Invalidation *)

Section RefreshFacts.
Variable compare : string -> string -> Z.
Variable valid : string -> bool.
Variable isPlugin : string -> bool.
Variable isCompatible : RemotePackage -> bool.

Local Abbreviation resume := (_getPackage_resume compare isPlugin isCompatible).
Local Abbreviation await := (await_getPackage compare isPlugin isCompatible).
Local Abbreviation entry := (getDeps_entry compare valid isPlugin isCompatible).
Local Abbreviation loop := (getDeps_loop compare valid isPlugin isCompatible).
Local Abbreviation getDeps_ := (_getDeps compare valid isPlugin isCompatible).
Local Abbreviation refresh_ := (refresh compare valid isPlugin isCompatible).

Lemma resume_inv pid name response st ev0 :
  fetched_in ev0 st ->
  promises st !! pid = Some (Pending name) ->
  is_Some (pkgTasks st !! name) ->
  fetched_in ev0 (snd (fst (resume pid name response st))).
Proof.
  intros [Hwf Ht] Hp Hn.
  destruct response as [versions|]; cbn [_getPackage_resume fst snd].
  - split.
    + intros name' pid' Hl. cbn [with_tasks with_caches pkgTasks promises] in *.
      destruct (Hwf name' pid' Hl) as [Hlt Hpn]. rewrite length_insert.
      split; [exact Hlt|]. intros n Hq.
      destruct (decide (pid = pid')) as [<-|Hne].
      * rewrite list_lookup_insert_eq in Hq by assumption. discriminate.
      * rewrite list_lookup_insert_ne in Hq by assumption. auto.
    + intros n [H|[H|H]]; cbn [with_tasks with_caches pkgTasks fullCache tempCache] in H.
      * apply Ht. left. exact H.
      * destruct (decide (name = n)) as [<-|Hne]; [apply Ht; left; exact Hn|].
        rewrite lookup_insert_ne in H by assumption. apply Ht. right. left. exact H.
      * destruct (decide (name = n)) as [<-|Hne]; [apply Ht; left; exact Hn|].
        rewrite lookup_insert_ne in H by assumption. apply Ht. right. right. exact H.
  - split.
    + intros name' pid' Hl. cbn [with_tasks pkgTasks promises] in *.
      destruct (Hwf name' pid' Hl) as [Hlt Hpn]. rewrite length_insert.
      split; [exact Hlt|]. intros n Hq.
      destruct (decide (pid = pid')) as [<-|Hne].
      * rewrite list_lookup_insert_eq in Hq by assumption. discriminate.
      * rewrite list_lookup_insert_ne in Hq by assumption. auto.
    + intros n H. apply Ht. exact H.
Qed.

Lemma getPackage_inv name st ev0 :
  fetched_in ev0 st ->
  let '(pid, st1, ev1) := getPackage name st in
  fetched_in (ev0 ++ ev1) st1
  /\ pkgTasks st1 !! name = Some pid.
Proof.
  intros [Hwf Ht]. destruct (pkgTasks st !! name) as [p|] eqn:E.
  - rewrite (getPackage_present _ _ _ E). cbv beta iota zeta. rewrite app_nil_r.
    split; [split|]; assumption.
  - rewrite (getPackage_absent _ _ E). cbv beta iota zeta.
    split; [|apply lookup_insert_eq]. split.
    + intros name' pid' Hl. cbn [with_tasks pkgTasks promises] in *.
      rewrite length_app. cbn [length].
      destruct (decide (name = name')) as [<-|Hne].
      * rewrite lookup_insert_eq in Hl. injection Hl as <-. split; [lia|].
        intros n Hq. rewrite lookup_app_r in Hq by lia.
        rewrite Nat.sub_diag in Hq. simpl in Hq. congruence.
      * rewrite lookup_insert_ne in Hl by assumption.
        destruct (Hwf name' pid' Hl) as [Hlt Hpn]. split; [lia|].
        intros n Hq. rewrite lookup_app_l in Hq by assumption. auto.
    + intros n [H|H]; cbn [with_tasks pkgTasks fullCache tempCache] in H.
      * destruct (decide (name = n)) as [<-|Hne];
          [apply in_or_app; right; left; reflexivity|].
        rewrite lookup_insert_ne in H by assumption.
        apply in_or_app. left. apply Ht. left. exact H.
      * apply in_or_app. left. apply Ht. right. exact H.
Qed.

Lemma await_inv w name st ev0 :
  fetched_in ev0 st ->
  fetched_in (ev0 ++ snd (await w name st)) (snd (fst (await w name st))).
Proof.
  intros Hf. unfold await_getPackage.
  pose proof (getPackage_inv name st ev0 Hf) as Hg.
  destruct (getPackage name st) as [[pid st1] ev1]. destruct Hg as [Hf1 Hp].
  destruct (promises st1 !! pid) as [[n|v]|] eqn:E; cbn [fst snd]; try exact Hf1.
  assert (n = name) as -> by (destruct Hf1 as [Hwf _]; apply (Hwf name pid Hp); exact E).
  pose proof (resume_inv pid name (http_get w name) st1 (ev0 ++ ev1) Hf1 E
                (ex_intro _ pid Hp)) as Hr.
  destruct (resume pid name (http_get w name) st1) as [[v st2] ev2]. cbn [fst snd] in *.
  destruct Hr as [Hwf Ht]. split; [exact Hwf|].
  intros m Hm. rewrite app_assoc. apply in_or_app. left. apply Ht. exact Hm.
Qed.

Lemma entry_inv w name dep st ev0 :
  fetched_in ev0 st ->
  fetched_in (ev0 ++ snd (entry w name dep st)) (snd (fst (entry w name dep st))).
Proof.
  intros Hf. unfold getDeps_entry.
  destruct (match loadManifest w name with Some m => dollar_workspace m | None => false end).
  - cbn [fst snd]. rewrite app_nil_r. exact Hf.
  - pose proof (await_inv w name st ev0 Hf) as Ha.
    destruct (await w name st) as [[v st'] ev]. exact Ha.
Qed.

Lemma loop_inv w entries st ev0 :
  fetched_in ev0 st ->
  fetched_in (ev0 ++ snd (loop w entries st)) (snd (fst (loop w entries st))).
Proof.
  revert st ev0. induction entries as [|[name dep] rest IH]; intros st ev0 Hf.
  - cbn [getDeps_loop fst snd]. rewrite app_nil_r. exact Hf.
  - cbn [getDeps_loop]. pose proof (entry_inv w name dep st ev0 Hf) as He.
    destruct (entry w name dep st) as [[dep' st1] ev1]. cbn [fst snd] in He.
    specialize (IH st1 (ev0 ++ ev1) He).
    destruct (loop w rest st1) as [[rest' st2] ev2]. cbn [fst snd] in *.
    rewrite app_assoc. exact IH.
Qed.

Lemma cleared_fetched st : fetched_in [] (cleared st).
Proof.
  split.
  - intros name pid H. cbn in H. rewrite lookup_empty in H. discriminate.
  - intros n [H|[H|H]]; cbn in H; rewrite lookup_empty in H; destruct H; discriminate.
Qed.

Lemma await_manifest w name st :
  manifest_dependencies (snd (fst (await w name st))) = manifest_dependencies st.
Proof.
  unfold await_getPackage, getPackage.
  destruct (pkgTasks st !! name) as [pid|]; cbn [_getPackage_start].
  - destruct (promises st !! pid) as [[n|v]|]; try reflexivity.
    destruct (http_get w n); reflexivity.
  - match goal with |- context [promises ?s !! ?i] =>
      destruct (promises s !! i) as [[n|v]|] end; try reflexivity.
    destruct (http_get w n); reflexivity.
Qed.

Lemma loop_manifest w entries st :
  manifest_dependencies (snd (fst (loop w entries st))) = manifest_dependencies st.
Proof.
  revert st. induction entries as [|[name dep] rest IH]; intros st; [reflexivity|].
  cbn [getDeps_loop].
  assert (He : manifest_dependencies (snd (fst (entry w name dep st)))
               = manifest_dependencies st).
  { unfold getDeps_entry.
    destruct (match loadManifest w name with Some m => dollar_workspace m | None => false end);
      [reflexivity|].
    pose proof (await_manifest w name st) as Ha.
    destruct (await w name st) as [[v st'] ev]. exact Ha. }
  destruct (entry w name dep st) as [[dep' st1] ev1]. specialize (IH st1).
  destruct (loop w rest st1) as [[rest' st2] ev2]. cbn [fst snd] in *. congruence.
Qed.

(** After [refresh], every task and every cache entry comes from a
    request made by this [refresh], and the stored snapshot is the one
    computed from the current manifest with the tables emptied. *)
Lemma refresh_fresh w st :
  let st' := fst (refresh_ w false st) in
  (forall n, touched st' n -> In (EvHttpGet n) (snd (refresh_ w false st)))
  /\ depTask st' = Some (fst (fst (getDeps_ w (cleared st))))
  /\ manifest_dependencies st' = manifest_dependencies st
  /\ dict_keys (fst (fst (getDeps_ w (cleared st)))) = dict_keys (manifest_dependencies st).
Proof.
  unfold refresh, _getDeps. cbn [app].
  set (entries := valueMap (manifest_dependencies (cleared st))
                    (fun request _ => new_dependency (normalize_request request))).
  pose proof (loop_inv w entries (cleared st) [] (cleared_fetched st)) as [_ Ht].
  pose proof (loop_manifest w entries (cleared st)) as Hm.
  pose proof (loop_keys compare valid isPlugin isCompatible w entries (cleared st)) as Hk.
  destruct (loop w entries (cleared st)) as [[d st'] ev]. cbn [fst snd app] in *.
  repeat split.
  - intros n Hn. apply Ht. exact Hn.
  - exact Hm.
  - rewrite Hk. apply dict_keys_valueMap.
Qed.
End RefreshFacts.

(** C3, as amended: when [install] does not run the package manager, or
    runs it and it exits with code 0, every fetch task and every entry
    of the two caches left at the end comes from a request made during
    this call (the tables were emptied), and the stored snapshot is the
    one computed anew from the overridden manifest; when the package
    manager ends with another code, [install] returns at once and the
    tasks, the caches and the snapshot stay as they were. *)
Theorem install_invalidates_unless_failed
    (compare : string -> string -> Z) (valid : string -> bool)
    (satisfies : string -> string -> bool) (localeCompare : string -> string -> Z)
    (isPlugin : string -> bool) (isCompatible : RemotePackage -> bool)
    (JSON_parse : string -> option YarnLog)
    (Buffer_toString : Buffer -> string)
    (cfg : Config) (w : World) (child : ChildProcess)
    (deps : Dict string) (forced : bool) (st : Installer) :
  let result := install compare valid satisfies localeCompare isPlugin isCompatible
                  JSON_parse Buffer_toString cfg w child deps forced st in
  let st' := snd (fst result) in
  let st1 := fst (override localeCompare deps st) in
  let w' := if install_forced satisfies w deps forced then after child else w in
  let snapshot := fst (fst (_getDeps compare valid isPlugin isCompatible w' (cleared st1))) in
  if fst (fst result) =? 0 then
    (forall name, touched st' name -> In (EvHttpGet name) (snd result))
    /\ depTask st' = Some snapshot
    /\ dict_keys snapshot = dict_keys (manifest_dependencies st')
  else
    pkgTasks st' = pkgTasks st /\ fullCache st' = fullCache st
    /\ tempCache st' = tempCache st /\ depTask st' = depTask st.
Proof.
  intros result st' st1 w' snapshot. subst result st'.
  rewrite install_code_zero, install_eq. fold st1 w'.
  destruct (refresh_fresh compare valid isPlugin isCompatible w' st1) as (Ht & Hd & Hm & Hk).
  fold snapshot in Hd, Hk.
  assert (Hok : forall ev2,
    let ev := snd (override localeCompare deps st) ++ ev2
              ++ snd (refresh compare valid isPlugin isCompatible w' false st1)
              ++ flat_map (reload_entry w' snapshot (_getLocalDeps w deps))
                   (dict_keys (_getLocalDeps w deps))
              ++ [EvRefreshData] in
    (forall name,
        touched (fst (refresh compare valid isPlugin isCompatible w' false st1)) name ->
        In (EvHttpGet name) ev)
    /\ depTask (fst (refresh compare valid isPlugin isCompatible w' false st1)) = Some snapshot
    /\ dict_keys snapshot
       = dict_keys (manifest_dependencies
                      (fst (refresh compare valid isPlugin isCompatible w' false st1)))).
  { intros ev2 ev. split; [|split; [exact Hd | congruence]].
    intros name Hn. subst ev. apply in_or_app. right. apply in_or_app. right.
    apply in_or_app. left. apply Ht. exact Hn. }
  destruct (install_forced satisfies w deps forced); cbn [andb].
  - destruct (truthy_code (exit_code child)); cbn [negb fst snd].
    + repeat split.
    + apply Hok.
  - cbn [negb fst snd]. apply (Hok []).
Qed.

(** C3 as stated fails: when the package manager exits with code 1, the
    task and the cache entries of an earlier fetch are still there, no
    request has been made, and the snapshot is the old one although the
    manifest has changed. *)
Lemma install_failure_keeps_caches :
  let result := example_install no_agent left_pad_world (exits 1 left_pad_world)
                  [("left-pad", "^2.0.0")] false stale_installer in
  fst (fst result) = 1
  /\ pkgTasks (snd (fst result)) !! "old" = Some 0%nat
  /\ fullCache (snd (fst result)) !! "old" = Some []
  /\ tempCache (snd (fst result)) !! "old" = Some []
  /\ existsb (is_fetch_of "old") (snd result) = false
  /\ manifest_dependencies (snd (fst result)) = [("left-pad", "^2.0.0")]
  /\ depTask (snd (fst result)) = Some [].
Proof. vm_compute. repeat split. Qed.

(** C6, as amended: after an install that returns 0, the loader gets
    one full-reload signal for each overridden package that is still
    declared, was not workspace-linked, is resolved to another version
    than before the override, and is in the module cache or cannot be
    resolved by the module system; so a reload is asked for exactly when
    there is such a package.  An install that returns another code asks
    for none. *)
Theorem install_reload_signals
    (compare : string -> string -> Z) (valid : string -> bool)
    (satisfies : string -> string -> bool) (localeCompare : string -> string -> Z)
    (isPlugin : string -> bool) (isCompatible : RemotePackage -> bool)
    (JSON_parse : string -> option YarnLog)
    (Buffer_toString : Buffer -> string)
    (cfg : Config) (w : World) (child : ChildProcess)
    (deps : Dict string) (forced : bool) (st : Installer) :
  let result := install compare valid satisfies localeCompare isPlugin isCompatible
                  JSON_parse Buffer_toString cfg w child deps forced st in
  let w' := if install_forced satisfies w deps forced then after child else w in
  count is_reload (snd result)
  = (if fst (fst result) =? 0
     then length (List.filter (reload_needed w w' deps) (dict_keys deps))
     else 0%nat)
  /\ (In EvFullReload (snd result)
      <-> fst (fst result) = 0
          /\ exists name, In name (dict_keys deps) /\ reload_needed w w' deps name = true).
Proof.
  intros result w'.
  pose proof (install_reloads compare valid satisfies localeCompare isPlugin isCompatible
                JSON_parse Buffer_toString cfg w child deps forced st) as Hc.
  cbv zeta in Hc. fold result w' in Hc. split; [exact Hc|].
  assert (Hin : In EvFullReload (snd result) <-> (0 < count is_reload (snd result))%nat).
  { unfold count. generalize (snd result) as ev. induction ev as [|e ev IH]; simpl.
    - split; [tauto | lia].
    - destruct e; simpl; rewrite <- ?IH; split;
        try (intros [H|H]; [discriminate | exact H]); try tauto; try lia;
        try (intros; lia). }
  rewrite Hin, Hc. destruct (Z.eqb_spec (fst (fst result)) 0) as [Hz|Hz].
  - split.
    + intros Hl. split; [exact Hz|].
      destruct (List.filter (reload_needed w w' deps) (dict_keys deps)) as [|name l] eqn:E;
        [simpl in Hl; lia|].
      assert (Hn : In name (List.filter (reload_needed w w' deps) (dict_keys deps)))
        by (rewrite E; left; reflexivity).
      apply filter_In in Hn. eauto.
    + intros [_ (name & Hn & Hr)].
      assert (Hf : In name (List.filter (reload_needed w w' deps) (dict_keys deps)))
        by (apply filter_In; auto).
      destruct (List.filter (reload_needed w w' deps) (dict_keys deps));
        [destruct Hf | simpl; lia].
  - split; [lia | tauto].
Qed.

(** C6 as stated fails: with two packages that qualify, the loader gets
    two signals. *)
Lemma install_reloads_once_per_package :
  let result := example_install no_agent (two_packages "1.0.0")
                  (exits 0 (two_packages "2.0.0"))
                  [("a", "^2.0.0"); ("b", "^2.0.0")] false two_packages_installer in
  fst (fst result) = 0
  /\ count is_reload (snd result) = 2%nat
  /\ count is_reload (snd result) <> 1%nat.
Proof. vm_compute. repeat split. discriminate. Qed.

(** ** The statements at concrete inputs *)

(** An override of a workspace-linked plugin runs nothing, whatever the
    range. *)
Lemma install_runs_package_manager_iff_witness :
  existsb is_spawn
    (snd (example_install no_agent workspace_world (exits 0 workspace_world)
            [("plugin-a", "^2.0.0")] false empty_installer)) = false.
Proof.
  pose proof (install_runs_package_manager_iff semver_compare (fun _ => true)
                caret_satisfies code_order (fun _ => false) (fun _ => true)
                (fun _ => None) utf8_decode no_agent workspace_world (exits 0 workspace_world)
                [("plugin-a", "^2.0.0")] false empty_installer) as H.
  cbv zeta in H. destruct H as (_ & _ & _ & H). apply H; reflexivity.
Defined.

(** A second call for a name whose request has failed in between gets
    the task of the first call and sends nothing. *)
Lemma getPackage_deduplicates_witness :
  snd (getPackage "a"
         (fst (run semver_compare (fun _ => false) (fun _ => true)
                 [OpGetPackage "b"; OpSettle 0 None; OpGetPackage "a"]
                 (snd (fst (getPackage "a" empty_installer)))))) = [].
Proof.
  pose proof (getPackage_deduplicates semver_compare (fun _ => false) (fun _ => true)
                [OpGetPackage "b"; OpSettle 0 None; OpGetPackage "a"]
                empty_installer "a") as H.
  cbv zeta in H. destruct H as (_ & _ & H & _). rewrite H; reflexivity.
Defined.

(** The JSON record delivered in one piece or in two gives the same
    line. *)
Lemma line_buffering_complete_lines_witness :
  lines_of Stdout (handle_data utf8_decode EmptyString EmptyString whole_json_delivery)
  = lines_of Stdout (handle_data utf8_decode EmptyString EmptyString split_json_deliveries).
Proof.
  destruct (line_buffering_complete_lines (fun _ => None) utf8_decode no_agent
              {| deliveries := split_json_deliveries; outcome := Exited 0;
                 after := empty_world |} [] Stdout)
    as (_ & rest & _ & _ & _ & H).
  apply H. reflexivity.
Defined.

(** Scenario: left-pad declared as ^1.0.0 and installed at 1.0.5; the
    override ^1.0.0 is satisfied: nothing is spawned, the result is 0. *)
Example install_left_pad_satisfied :
  let result := example_install no_agent left_pad_world (exits 1 left_pad_world)
                  [("left-pad", "^1.0.0")] false empty_installer in
  fst (fst result) = 0 /\ List.filter is_spawn (snd result) = [].
Proof. vm_compute. split; reflexivity. Qed.

(** Scenario: the override ^2.0.0 with 1.0.5 installed forces the
    install; the process gets the install verb and, when an endpoint is
    configured, the registry argument. *)
Example install_left_pad_forced :
  List.filter is_spawn
    (snd (example_install no_agent left_pad_world (exits 0 left_pad_world)
            [("left-pad", "^2.0.0")] false empty_installer))
  = [EvSpawn "npm" ["install"]]
  /\ List.filter is_spawn
       (snd (example_install registry_config left_pad_world (exits 0 left_pad_world)
               [("left-pad", "^2.0.0")] false empty_installer))
     = [EvSpawn "npm" ["install"; "--registry"; "https://registry.example"]].
Proof. vm_compute. split; reflexivity. Qed.

(** Scenario: the severity of a JSON record in structured mode. *)
Example stdout_line_levels :
  stdout_line (fun _ => Some {| log_type := "error"; log_data := "boom" |}) true "{}"
  = [EvLog "warn" (LogText "boom")]
  /\ stdout_line (fun _ => Some {| log_type := "bogus"; log_data := "x" |}) true "{}"
     = [EvLog "info" (LogText "x")]
  /\ stdout_line (fun _ => Some {| log_type := "constructor"; log_data := "x" |}) true "{}"
     = [EvLog "warn" (LogText "{}"); EvLog "warn" LogError]
  /\ stdout_line (fun _ => None) true "{oops" = [EvLog "warn" (LogText "{oops"); EvLog "warn" LogError]
  /\ stdout_line (fun _ => None) true "progress" = [EvLog "info" (LogText "progress")].
Proof. repeat split; reflexivity. Qed.


(** * Further properties of the service *)

(** ** Prefixes and substrings *)

Lemma js_startsWith_app p s : js_startsWith (p +:+ s) p = true.
Proof.
  induction p as [|a p IH]; [reflexivity|].
  rewrite append_cons. simpl. rewrite Ascii.eqb_refl. exact IH.
Qed.

Lemma js_startsWith_inv s p : js_startsWith s p = true -> exists b, s = p +:+ b.
Proof.
  revert s. induction p as [|a p IH]; intros s H.
  - exists s. reflexivity.
  - destruct s as [|c s]; [discriminate|]. simpl in H.
    apply andb_true_iff in H as [Hc Hs]. apply Ascii.eqb_eq in Hc. subst c.
    destruct (IH s Hs) as [b ->]. exists b. reflexivity.
Qed.

Lemma js_includes_app a sub b : js_includes (a +:+ sub +:+ b) sub = true.
Proof.
  induction a as [|c a IH].
  - change (EmptyString +:+ sub +:+ b) with (sub +:+ b).
    destruct (sub +:+ b) eqn:E; simpl; rewrite <- ?E, js_startsWith_app; reflexivity.
  - rewrite append_cons. simpl. rewrite IH. apply orb_true_r.
Qed.

Lemma js_includes_inv s sub :
  js_includes s sub = true -> exists a b, s = a +:+ sub +:+ b.
Proof.
  induction s as [|c s IH]; simpl; intros H.
  - apply orb_true_iff in H as [H|H]; [|discriminate].
    apply js_startsWith_inv in H as [b ->]. exists EmptyString, b. reflexivity.
  - apply orb_true_iff in H as [H|H].
    + apply js_startsWith_inv in H as [b ->]. exists EmptyString, b. reflexivity.
    + destruct (IH H) as (a & b & ->). exists (String c a), b. reflexivity.
Qed.

(** ** Name resolution *)

Lemma resolveName_official s : resolveName ("@koishijs/plugin-" +:+ s) = ["@koishijs/plugin-" +:+ s].
Proof. unfold resolveName. rewrite js_startsWith_app. reflexivity. Qed.

Lemma resolveName_community_prefix s :
  resolveName ("koishi-plugin-" +:+ s) = ["koishi-plugin-" +:+ s].
Proof.
  unfold resolveName, matches_community_plugin. rewrite (js_startsWith_app "koishi-plugin-").
  destruct (js_startsWith _ "@koishijs/plugin-"); reflexivity.
Qed.

Lemma resolveName_community_scoped left right :
  resolveName (left +:+ "/koishi-plugin-" +:+ right) = [left +:+ "/koishi-plugin-" +:+ right].
Proof.
  unfold resolveName, matches_community_plugin. rewrite js_includes_app, orb_true_r.
  destruct (js_startsWith _ "@koishijs/plugin-"); reflexivity.
Qed.

(** Every name proposed by [resolveName] is a full name: resolving it
    again gives that name and no other.  There are one or two
    proposals. *)
Theorem resolveName_candidates_are_resolved (name : string) :
  Forall (fun candidate => resolveName candidate = [candidate]) (resolveName name)
  /\ (1 <= length (resolveName name) <= 2)%nat.
Proof.
  remember (resolveName name) as r eqn:Hr. unfold resolveName in Hr.
  destruct (js_startsWith name "@koishijs/plugin-") eqn:E1.
  - subst r. split; [|simpl; lia]. constructor; [|constructor].
    unfold resolveName. rewrite E1. reflexivity.
  - destruct (matches_community_plugin name) eqn:E2.
    + subst r. split; [|simpl; lia]. constructor; [|constructor].
      unfold resolveName. rewrite E1, E2. reflexivity.
    + assert (Hplain : Forall (fun c => resolveName c = [c])
                         ["@koishijs/plugin-" +:+ name; "koishi-plugin-" +:+ name]).
      { constructor; [apply resolveName_official|].
        constructor; [apply resolveName_community_prefix | constructor]. }
      destruct name as [|c rest]; [subst r; split; [exact Hplain | simpl; lia]|].
      destruct (Ascii.eqb_spec c "@"%char) as [->|Hc].
      * subst r. split; [|simpl; lia]. constructor; [|constructor].
        apply resolveName_community_scoped.
      * assert (Hm : forall (A : Type) (x y : A),
                  match c with "@"%char => x | _ => y end = y).
        { intros A x y. destruct c as [[] [] [] [] [] [] [] []]; try reflexivity.
          exfalso. apply Hc. reflexivity. }
        rewrite Hm in Hr. subst r. split; [exact Hplain | simpl; lia].
Qed.

Lemma has_char_app c a b : has_char c (a +:+ b) = has_char c a || has_char c b.
Proof.
  induction a as [|x a IH]; [reflexivity|].
  rewrite append_cons. simpl. rewrite IH, orb_assoc. reflexivity.
Qed.

Lemma js_split_no_sep sep s : has_char sep s = false -> js_split sep s = [s].
Proof.
  induction s as [|c s IH]; [reflexivity|]. simpl.
  destruct (Ascii.eqb c sep); [discriminate|]. simpl. intros H. rewrite (IH H). reflexivity.
Qed.

Lemma js_includes_has_char s c rest :
  js_includes s (String c rest) = true -> has_char c s = true.
Proof.
  intros H. apply js_includes_inv in H as (a & b & ->).
  rewrite has_char_app, append_cons. simpl. rewrite Ascii.eqb_refl. apply orb_true_r.
Qed.

(** A scope with no package part: the missing piece of the split is
    printed as the word [undefined]. *)
Theorem resolveName_scope_without_package (scope : string) :
  has_char "/"%char scope = false ->
  resolveName (String "@"%char scope)
  = [String "@"%char scope +:+ "/koishi-plugin-undefined"].
Proof.
  intros Hs. unfold resolveName, matches_community_plugin.
  assert (Hat : has_char "/"%char (String "@"%char scope) = false) by exact Hs.
  destruct (js_startsWith (String "@"%char scope) "@koishijs/plugin-") eqn:E1.
  { apply js_startsWith_inv in E1 as [b Hb]. rewrite Hb in Hat.
    rewrite has_char_app in Hat. discriminate. }
  assert (E2 : js_includes (String "@"%char scope) "/koishi-plugin-" = false).
  { destruct (js_includes _ _) eqn:E; [|reflexivity].
    apply js_includes_has_char in E. congruence. }
  rewrite E2. cbn [js_startsWith Ascii.eqb Bool.eqb andb orb].
  rewrite (js_split_no_sep _ _ Hat). reflexivity.
Qed.

Lemma resolveName_scope_without_package_witness :
  resolveName "@koishijs" = ["@koishijs/koishi-plugin-undefined"].
Proof. apply (resolveName_scope_without_package "koishijs"). reflexivity. Defined.

(** ** Tasks that hold what the registry holds *)

Lemma Dependency_eq (a b : Dependency) :
  request a = request b -> resolved a = resolved b -> workspace a = workspace b ->
  invalid a = invalid b -> latest a = latest b -> a = b.
Proof. destruct a, b. simpl. intros; subst; reflexivity. Qed.

Section RegistryFacts.
Variable compare : string -> string -> Z.
Variable valid : string -> bool.
Variable isPlugin : string -> bool.
Variable isCompatible : RemotePackage -> bool.

Local Abbreviation resume := (_getPackage_resume compare isPlugin isCompatible).
Local Abbreviation await := (await_getPackage compare isPlugin isCompatible).
Local Abbreviation entry := (getDeps_entry compare valid isPlugin isCompatible).
Local Abbreviation loop := (getDeps_loop compare valid isPlugin isCompatible).
Local Abbreviation agrees_ := (agrees compare isPlugin isCompatible).
Local Abbreviation registry := (registry_value compare isPlugin isCompatible).

Lemma resume_value pid name w st :
  fst (fst (resume pid name (http_get w name) st)) = registry w name.
Proof. unfold registry_value. destruct (http_get w name); reflexivity. Qed.

Lemma resume_state pid name response st :
  pkgTasks (snd (fst (resume pid name response st))) = pkgTasks st
  /\ promises (snd (fst (resume pid name response st)))
     = <[pid := Resolved (fst (fst (resume pid name response st)))]> (promises st).
Proof. destruct response; split; reflexivity. Qed.

Lemma cleared_agrees w st : agrees_ w (cleared st).
Proof.
  split; [apply (cleared_fetched st)|].
  intros name pid v H. cbn in H. rewrite lookup_empty in H. discriminate.
Qed.

(** Settling the pending task of [name] keeps the agreement. *)
Lemma resume_agrees w pid name st :
  agrees_ w st ->
  pkgTasks st !! name = Some pid ->
  promises st !! pid = Some (Pending name) ->
  agrees_ w (snd (fst (resume pid name (http_get w name) st))).
Proof.
  intros [Hwf Hag] Ht Hp.
  pose proof (resume_value pid name w st) as Hv.
  destruct (resume_state pid name (http_get w name) st) as [Hts Hps].
  destruct (resume pid name (http_get w name) st) as [[v st'] ev]. cbn [fst snd] in *.
  assert (Hlt : (pid < length (promises st))%nat) by (apply (Hwf name pid Ht)).
  split.
  - intros name' pid' Hl. rewrite Hts in Hl. rewrite Hps, length_insert.
    destruct (Hwf name' pid' Hl) as [Hlt' Hpn]. split; [exact Hlt'|].
    intros n Hq. destruct (decide (pid = pid')) as [<-|Hne].
    + rewrite list_lookup_insert_eq in Hq by assumption. discriminate.
    + rewrite list_lookup_insert_ne in Hq by assumption. auto.
  - intros name' pid' v' Hl Hq. rewrite Hts in Hl. rewrite Hps in Hq.
    destruct (decide (pid = pid')) as [<-|Hne].
    + rewrite list_lookup_insert_eq in Hq by assumption. injection Hq as <-.
      assert (name = name') as <- by (apply (proj2 (Hwf name' pid Hl)); exact Hp).
      exact Hv.
    + rewrite list_lookup_insert_ne in Hq by assumption. eauto.
Qed.

(** In such a state, [await this.getPackage(name)] gives what the
    registry holds for [name]. *)
Lemma await_agrees w name st :
  agrees_ w st ->
  fst (fst (await w name st)) = registry w name
  /\ agrees_ w (snd (fst (await w name st))).
Proof.
  intros Hag. unfold await_getPackage.
  destruct (pkgTasks st !! name) as [pid|] eqn:E.
  - rewrite (getPackage_present _ _ _ E).
    destruct Hag as [Hwf Hv]. destruct (Hwf name pid E) as [Hlt Hpn].
    destruct (promises st !! pid) as [[n|v]|] eqn:Ep.
    + assert (n = name) as -> by (apply Hpn; reflexivity).
      pose proof (resume_value pid name w st) as Hval.
      pose proof (resume_agrees w pid name st (conj Hwf Hv) E Ep) as Hr.
      destruct (resume pid name (http_get w name) st) as [[v st'] ev]. split; assumption.
    + cbn [fst snd]. split; [eapply Hv; eassumption | split; assumption].
    + apply lookup_lt_is_Some_2 in Hlt. rewrite Ep in Hlt. destruct Hlt; discriminate.
  - rewrite (getPackage_absent _ _ E).
    set (st1 := with_tasks (<[name := length (promises st)]> (pkgTasks st))
                  (promises st ++ [Pending name]) st).
    assert (Hp1 : promises st1 !! length (promises st) = Some (Pending name)).
    { cbn. rewrite lookup_app_r by lia. rewrite Nat.sub_diag. reflexivity. }
    rewrite Hp1.
    assert (Hag1 : agrees_ w st1).
    { destruct Hag as [Hwf Hv]. split.
      - intros name' pid' Hl. cbn [st1 with_tasks pkgTasks promises] in *.
        rewrite length_app. cbn [length].
        destruct (decide (name = name')) as [<-|Hne].
        + rewrite lookup_insert_eq in Hl. injection Hl as <-. split; [lia|].
          intros n Hq. rewrite lookup_app_r in Hq by lia.
          rewrite Nat.sub_diag in Hq. simpl in Hq. congruence.
        + rewrite lookup_insert_ne in Hl by assumption.
          destruct (Hwf name' pid' Hl) as [Hlt Hpn]. split; [lia|].
          intros n Hq. rewrite lookup_app_l in Hq by assumption. auto.
      - intros name' pid' v Hl Hq. cbn [st1 with_tasks pkgTasks promises] in *.
        destruct (decide (name = name')) as [<-|Hne].
        + rewrite lookup_insert_eq in Hl. injection Hl as <-.
          rewrite lookup_app_r in Hq by lia. rewrite Nat.sub_diag in Hq. discriminate.
        + rewrite lookup_insert_ne in Hl by assumption.
          destruct (Hwf name' pid' Hl) as [Hlt _].
          rewrite lookup_app_l in Hq by assumption. eauto. }
    assert (Ht1 : pkgTasks st1 !! name = Some (length (promises st)))
      by (cbn; apply lookup_insert_eq).
    pose proof (resume_value (length (promises st)) name w st1) as Hval.
    pose proof (resume_agrees w _ name st1 Hag1 Ht1 Hp1) as Hr.
    destruct (resume (length (promises st)) name (http_get w name) st1) as [[v st'] ev].
    split; assumption.
Qed.
End RegistryFacts.

(** ** The snapshot and the version lookup, read off the world *)

Section SnapshotValue.
Variable compare : string -> string -> Z.
Variable valid : string -> bool.
Variable isPlugin : string -> bool.
Variable isCompatible : RemotePackage -> bool.

Local Abbreviation await := (await_getPackage compare isPlugin isCompatible).
Local Abbreviation entry := (getDeps_entry compare valid isPlugin isCompatible).
Local Abbreviation loop := (getDeps_loop compare valid isPlugin isCompatible).
Local Abbreviation getDeps_ := (_getDeps compare valid isPlugin isCompatible).
Local Abbreviation refresh_ := (refresh compare valid isPlugin isCompatible).
Local Abbreviation agrees_ := (agrees compare isPlugin isCompatible).
Local Abbreviation registry := (registry_value compare isPlugin isCompatible).
Local Abbreviation expected := (expected_record compare valid isPlugin isCompatible).
Local Abbreviation findVersion_ := (findVersion compare isPlugin isCompatible).

Lemma entry_expected w name raw st :
  agrees_ w st ->
  (name, fst (fst (entry w name (new_dependency (normalize_request raw)) st)))
  = expected w (name, raw)
  /\ agrees_ w (snd (fst (entry w name (new_dependency (normalize_request raw)) st))).
Proof.
  intros Hag. unfold getDeps_entry, expected_record, workspace_linked, resolved_version.
  cbn [fst snd].
  destruct (loadManifest w name) as [meta|]; [destruct (dollar_workspace meta) eqn:Ew|].
  - unfold set_local, new_dependency. cbn. rewrite Ew. split; [reflexivity | exact Hag].
  - destruct (await_agrees compare isPlugin isCompatible w name st Hag) as [Hv Ha].
    destruct (await w name st) as [[v st'] ev]. cbn [fst snd] in *. subst v.
    split; [|exact Ha]. unfold first_version, set_latest, set_invalid, set_local, new_dependency.
    destruct (registry w name); cbn; destruct (valid (normalize_request raw)); cbn;
      rewrite ?Ew; reflexivity.
  - destruct (await_agrees compare isPlugin isCompatible w name st Hag) as [Hv Ha].
    destruct (await w name st) as [[v st'] ev]. cbn [fst snd] in *. subst v.
    split; [|exact Ha]. unfold first_version, set_latest, set_invalid, new_dependency.
    destruct (registry w name); cbn; destruct (valid (normalize_request raw)); reflexivity.
Qed.

Lemma loop_expected w (m : Dict string) st :
  agrees_ w st ->
  fst (fst (loop w (valueMap m (fun request _ => new_dependency (normalize_request request))) st))
  = map (expected w) m.
Proof.
  revert st. induction m as [|[name raw] m IH]; intros st Hag; [reflexivity|].
  cbn [valueMap map fst snd getDeps_loop].
  destruct (entry_expected w name raw st Hag) as [He Ha].
  destruct (entry w name (new_dependency (normalize_request raw)) st) as [[dep' st1] ev1].
  cbn [fst snd] in *. specialize (IH st1 Ha). unfold valueMap in IH.
  destruct (loop w _ st1) as [[rest' st2] ev2]. cbn [fst snd] in *.
  rewrite He, IH. reflexivity.
Qed.

Lemma findVersion_expected w names st :
  agrees_ w st ->
  fst (fst (findVersion_ w names st)) = first_known compare isPlugin isCompatible w names.
Proof.
  unfold findVersion.
  assert (H : forall st, agrees_ w st ->
            find_truthy (fst (fst (findVersion_all compare isPlugin isCompatible w names st)))
            = first_known compare isPlugin isCompatible w names).
  { induction names as [|name rest IH]; intros s Hag; [reflexivity|].
    cbn [findVersion_all first_known]. unfold findVersion_entry.
    destruct (await_agrees compare isPlugin isCompatible w name s Hag) as [Hv Ha].
    destruct (await w name s) as [[v s1] ev1]. cbn [fst snd] in *. subst v.
    specialize (IH s1 Ha).
    destruct (findVersion_all compare isPlugin isCompatible w rest s1) as [[es s2] ev2].
    cbn [fst snd] in *. unfold first_version.
    destruct (registry w name) as [[|[v meta] vm]|]; cbn; [exact IH | reflexivity | exact IH]. }
  intros Hag. specialize (H st Hag).
  destruct (findVersion_all compare isPlugin isCompatible w names st) as [[es s2] ev2].
  exact H.
Qed.
End SnapshotValue.

(** The first version given for a name with proper versions on the
    registry is a version. *)
Lemma first_version_valid
    (compare : string -> string -> Z) (valid : string -> bool)
    (isPlugin : string -> bool) (isCompatible : RemotePackage -> bool)
    (w : World) (name v : string) :
  well_versioned valid w name = true ->
  first_version (registry_value compare isPlugin isCompatible w name) = Some v ->
  valid v = true.
Proof.
  unfold well_versioned, registry_value, first_version.
  destruct (http_get w name) as [versions|]; [|discriminate]. cbn [option_map].
  intros Hv Hh. rewrite forallb_forall in Hv.
  assert (Hin : In v (dict_keys (getVersions compare
                  (List.filter (fun remote => negb (isPlugin name) || isCompatible remote)
                     versions)))).
  { destruct (dict_keys (getVersions compare _)) as [|k ks]; [discriminate|].
    injection Hh as ->. left. reflexivity. }
  apply getVersions_keys_In, in_map_iff in Hin as (r & <- & Hr).
  apply filter_In in Hr as [Hr _]. apply Hv. exact Hr.
Qed.

Lemma refresh_snapshot_value
    (compare : string -> string -> Z) (valid : string -> bool)
    (isPlugin : string -> bool) (isCompatible : RemotePackage -> bool)
    (w : World) (flag : bool) (st : Installer) :
  depTask (fst (refresh compare valid isPlugin isCompatible w flag st))
  = Some (map (expected_record compare valid isPlugin isCompatible w)
            (manifest_dependencies st)).
Proof.
  unfold refresh, _getDeps.
  pose proof (loop_expected compare valid isPlugin isCompatible w
                (manifest_dependencies (cleared st)) (cleared st)
                (cleared_agrees compare isPlugin isCompatible w st)) as H.
  destruct (getDeps_loop compare valid isPlugin isCompatible w _ (cleared st))
    as [[d st'] ev]. cbn [fst snd] in *. rewrite H. reflexivity.
Qed.

(** After [refresh], when the declared names are ordinary keys and the
    registry gives proper versions for them, the stored snapshot lists
    the declared dependencies in the order of the manifest, each with
    the record read off the world: the request without its leading [^]
    or [~], the version and the workspace flag of the local
    installation, the validity mark, and as [latest] the first version
    the registry gives for the name; a workspace package has neither
    mark nor [latest]. *)
Theorem refresh_snapshot
    (compare : string -> string -> Z) (valid : string -> bool)
    (isPlugin : string -> bool) (isCompatible : RemotePackage -> bool)
    (w : World) (flag : bool) (st : Installer) :
  forallb (fetchable valid w) (dict_keys (manifest_dependencies st)) = true ->
  depTask (fst (refresh compare valid isPlugin isCompatible w flag st))
  = Some (map (expected_record compare valid isPlugin isCompatible w)
            (manifest_dependencies st))
  /\ forall snapshot name dep v,
       depTask (fst (refresh compare valid isPlugin isCompatible w flag st)) = Some snapshot ->
       In (name, dep) snapshot -> latest dep = Some v ->
       valid v = true /\ workspace_linked w name = false.
Proof.
  intros Hf. rewrite refresh_snapshot_value. split; [reflexivity|].
  intros snapshot name dep v [= <-] Hin Hl.
  apply in_map_iff in Hin as ([n raw] & He & Hin). unfold expected_record in He.
  cbn [fst snd] in He. injection He as <- <-. cbn [latest] in Hl.
  destruct (workspace_linked w n); [discriminate|]. split; [|reflexivity].
  rewrite forallb_forall in Hf.
  assert (Hn : fetchable valid w n = true).
  { apply Hf. apply (in_map fst) in Hin. exact Hin. }
  apply andb_true_iff in Hn as [_ Hn].
  exact (first_version_valid compare valid isPlugin isCompatible w n v Hn Hl).
Qed.

Lemma refresh_snapshot_witness :
  depTask (fst (refresh semver_compare semver_valid (fun _ => false) (fun _ => true)
                  registry_world false left_pad_installer))
  = Some [("left-pad",
           {| request := "1.0.0"; resolved := Some "1.0.5"; workspace := Some false;
              invalid := None; latest := Some "2.0.0" |})].
Proof.
  apply (refresh_snapshot semver_compare semver_valid (fun _ => false) (fun _ => true)
           registry_world false left_pad_installer).
  reflexivity.
Defined.

(** When the settled tasks hold what the registry holds (as after an
    invalidation), and the names asked for are ordinary keys for which
    the registry gives proper versions, [findVersion] returns the first
    of the names for which the registry has at least one version, with
    the first version of its mapping; a name whose request fails or that
    has no version is passed over. *)
Theorem findVersion_first_known
    (compare : string -> string -> Z) (valid : string -> bool)
    (isPlugin : string -> bool) (isCompatible : RemotePackage -> bool)
    (w : World) (names : list string) (st : Installer) :
  agrees compare isPlugin isCompatible w st ->
  forallb (fetchable valid w) names = true ->
  fst (fst (findVersion compare isPlugin isCompatible w names st))
  = first_known compare isPlugin isCompatible w names
  /\ forall name v,
       fst (fst (findVersion compare isPlugin isCompatible w names st)) = Some (name, v) ->
       In name names /\ valid v = true.
Proof.
  intros Hag Hf. rewrite (findVersion_expected compare isPlugin isCompatible w names st Hag).
  split; [reflexivity|]. clear Hag.
  induction names as [|n rest IH]; intros name v Hk; [discriminate|].
  cbn [forallb] in Hf. apply andb_true_iff in Hf as [Hn Hf].
  cbn [first_known] in Hk.
  destruct (first_version (registry_value compare isPlugin isCompatible w n)) as [v'|] eqn:E.
  - injection Hk as <- <-. split; [left; reflexivity|].
    apply andb_true_iff in Hn as [_ Hn].
    exact (first_version_valid compare valid isPlugin isCompatible w n v' Hn E).
  - destruct (IH Hf name v Hk) as [Hin Hv]. split; [right; exact Hin | exact Hv].
Qed.

Lemma findVersion_first_known_witness :
  fst (fst (findVersion semver_compare (fun _ => false) (fun _ => true) registry_world
              ["@koishijs/plugin-left-pad"; "left-pad"] (cleared stale_installer)))
  = Some ("left-pad", "2.0.0").
Proof.
  destruct (findVersion_first_known semver_compare semver_valid (fun _ => false)
              (fun _ => true) registry_world ["@koishijs/plugin-left-pad"; "left-pad"]
              (cleared stale_installer)
              (cleared_agrees semver_compare (fun _ => false) (fun _ => true)
                 registry_world stale_installer)) as [H _]; [reflexivity|].
  rewrite H. reflexivity.
Defined.

(** The first version given for a name is the version of a record that
    passes the compatibility filter, and no record that passes has a
    higher one. *)
Theorem registry_latest_is_highest_compatible
    (compare : string -> string -> Z)
    (compare_total : forall a b, 0 < compare a b -> compare b a <= 0)
    (compare_trans : forall a b c, compare a b <= 0 -> compare b c <= 0 -> compare a c <= 0)
    (isPlugin : string -> bool) (isCompatible : RemotePackage -> bool)
    (w : World) (name v : string) :
  first_version (registry_value compare isPlugin isCompatible w name) = Some v ->
  exists versions,
    http_get w name = Some versions
    /\ (exists r, In r versions /\ version r = v
                  /\ negb (isPlugin name) || isCompatible r = true)
    /\ forall r, In r versions -> negb (isPlugin name) || isCompatible r = true ->
                 compare (version r) v <= 0.
Proof.
  unfold registry_value, first_version.
  destruct (http_get w name) as [versions|]; [|discriminate]. cbn [option_map].
  set (kept := List.filter (fun remote => negb (isPlugin name) || isCompatible remote) versions).
  intros Hh. exists versions. split; [reflexivity|].
  pose proof (getVersions_keys_sorted compare compare_total compare_trans kept) as Hs.
  pose proof (getVersions_keys_In compare kept) as Hin.
  destruct (dict_keys (getVersions compare kept)) as [|k ks]; [discriminate|].
  injection Hh as ->. split.
  - assert (Hv : In v (map version kept)) by (apply Hin; left; reflexivity).
    apply in_map_iff in Hv as (r & Hr & Hk). apply filter_In in Hk as [Hk Hc]. eauto.
  - intros r Hr Hc.
    assert (Hv : In (version r) (v :: ks)).
    { apply Hin, in_map_iff. exists r. split; [reflexivity|]. apply filter_In. auto. }
    apply StronglySorted_inv in Hs as [_ Hf]. destruct Hv as [<-|Hv].
    + apply compare_refl_le. assumption.
    + rewrite List.Forall_forall in Hf. auto.
Qed.

Lemma registry_latest_is_highest_compatible_witness :
  exists versions,
    http_get registry_world "left-pad" = Some versions
    /\ (exists r, In r versions /\ version r = "2.0.0" /\ negb false || true = true)
    /\ forall r, In r versions -> negb false || true = true ->
                 semver_compare (version r) "2.0.0" <= 0.
Proof.
  apply (registry_latest_is_highest_compatible semver_compare
           semver_compare_total semver_compare_trans (fun _ => false) (fun _ => true)
           registry_world "left-pad" "2.0.0").
  reflexivity.
Defined.

(** ** Requests made by a refresh *)

Section RequestFacts.
Variable compare : string -> string -> Z.
Variable valid : string -> bool.
Variable isPlugin : string -> bool.
Variable isCompatible : RemotePackage -> bool.

Local Abbreviation resume := (_getPackage_resume compare isPlugin isCompatible).
Local Abbreviation await := (await_getPackage compare isPlugin isCompatible).
Local Abbreviation entry := (getDeps_entry compare valid isPlugin isCompatible).
Local Abbreviation loop := (getDeps_loop compare valid isPlugin isCompatible).

Lemma await_effect w name st n :
  count (is_fetch_of n) (snd (await w name st))
  = match pkgTasks st !! name with
    | None => if String.eqb name n then 1%nat else 0%nat
    | Some _ => 0%nat
    end
  /\ (pkgTasks (snd (fst (await w name st))) !! n = None
      <-> pkgTasks st !! n = None /\ name <> n).
Proof.
  unfold await_getPackage.
  destruct (pkgTasks st !! name) as [pid|] eqn:E.
  - rewrite (getPackage_present _ _ _ E).
    assert (Hn : pkgTasks st !! n = None <-> pkgTasks st !! n = None /\ name <> n).
    { split; [|tauto]. intros H. split; [exact H | congruence]. }
    destruct (promises st !! pid) as [[m|v]|]; cbn [fst snd]; try (split; [reflexivity | exact Hn]).
    pose proof (resume_tasks compare isPlugin isCompatible pid m (http_get w m) st) as Ht.
    pose proof (resume_no_fetch compare isPlugin isCompatible pid m (http_get w m) st n) as Hf.
    destruct (resume pid m (http_get w m) st) as [[v st'] ev]. cbn [fst snd app] in *.
    unfold count. rewrite Hf, Ht. split; [reflexivity | exact Hn].
  - rewrite (getPackage_absent _ _ E).
    set (st1 := with_tasks (<[name := length (promises st)]> (pkgTasks st))
                  (promises st ++ [Pending name]) st).
    assert (Hn : pkgTasks st1 !! n = None <-> pkgTasks st !! n = None /\ name <> n).
    { cbn. destruct (decide (name = n)) as [<-|Hne].
      - rewrite lookup_insert_eq. split; [discriminate | tauto].
      - rewrite lookup_insert_ne by assumption. tauto. }
    assert (Hc : count (is_fetch_of n) [EvHttpGet name]
                 = if String.eqb name n then 1%nat else 0%nat).
    { unfold count. simpl. destruct (String.eqb name n); reflexivity. }
    destruct (promises st1 !! length (promises st)) as [[m|v]|]; cbn [fst snd];
      try (split; [exact Hc | exact Hn]).
    pose proof (resume_tasks compare isPlugin isCompatible (length (promises st)) m
                  (http_get w m) st1) as Ht.
    pose proof (resume_no_fetch compare isPlugin isCompatible (length (promises st)) m
                  (http_get w m) st1 n) as Hf.
    destruct (resume (length (promises st)) m (http_get w m) st1) as [[v st'] ev].
    cbn [fst snd] in *. rewrite count_app. unfold count at 2. rewrite Hf, Ht.
    split; [rewrite Hc; simpl; lia | exact Hn].
Qed.

Lemma loop_fetch_count w entries st n :
  count (is_fetch_of n) (snd (loop w entries st))
  = match pkgTasks st !! n with
    | Some _ => 0%nat
    | None =>
        if existsb (fun e => String.eqb (fst e) n) entries && negb (workspace_linked w n)
        then 1%nat else 0%nat
    end.
Proof.
  revert st. induction entries as [|[name dep] rest IH]; intros st.
  - cbn. destruct (pkgTasks st !! n); reflexivity.
  - cbn [getDeps_loop existsb fst]. unfold getDeps_entry.
    fold (workspace_linked w name).
    destruct (workspace_linked w name) eqn:Ew.
    + specialize (IH st). destruct (loop w rest st) as [[rest' st2] ev2].
      cbn [fst snd app] in *. rewrite IH.
      destruct (pkgTasks st !! n); [reflexivity|].
      destruct (String.eqb_spec name n) as [->|]; [|reflexivity].
      rewrite Ew, !andb_false_r. reflexivity.
    + destruct (await_effect w name st n) as [Hc Ht].
      destruct (await w name st) as [[v st1] ev1]. cbn [fst snd] in *.
      specialize (IH st1). destruct (loop w rest st1) as [[rest' st2] ev2].
      cbn [fst snd] in *. rewrite count_app, Hc, IH.
      assert (Hsome : is_Some (pkgTasks st !! n) -> pkgTasks st1 !! n <> None).
      { intros [x Hx] X. apply Ht in X as [X _]. congruence. }
      destruct (String.eqb_spec name n) as [->|Hne].
      * rewrite Ew. cbn [orb negb andb].
        assert (Hn : pkgTasks st1 !! n <> None).
        { intros X. apply Ht in X as [_ X]. congruence. }
        destruct (pkgTasks st1 !! n); [|congruence].
        destruct (pkgTasks st !! n); simpl; lia.
      * cbn [orb].
        replace (match pkgTasks st !! name with
                 | Some _ => 0%nat | None => 0%nat end) with 0%nat
          by (destruct (pkgTasks st !! name); reflexivity).
        cbn [Nat.add]. destruct (pkgTasks st !! n) eqn:E.
        -- destruct (pkgTasks st1 !! n); [reflexivity|]. exfalso. apply Hsome; eauto.
        -- assert (E1 : pkgTasks st1 !! n = None) by (apply Ht; auto). rewrite E1. reflexivity.
Qed.
End RequestFacts.

Lemma existsb_keys_valueMap {V W : Type} (m : Dict V) (f : V -> string -> W) name :
  existsb (fun e => String.eqb (fst e) name) (valueMap m f)
  = existsb (String.eqb name) (dict_keys m).
Proof.
  induction m as [|[k v] m IH]; [reflexivity|].
  cbn [valueMap map dict_keys existsb fst]. unfold valueMap, dict_keys in IH.
  rewrite IH, (String.eqb_sym name k). reflexivity.
Qed.

(** When the declared names are ordinary keys, a refresh sends one
    request to the registry for each declared dependency that is not a
    workspace package, and none for any other name. *)
Theorem refresh_requests_once_per_dependency
    (compare : string -> string -> Z) (valid : string -> bool)
    (isPlugin : string -> bool) (isCompatible : RemotePackage -> bool)
    (w : World) (st : Installer) (name : string) :
  forallb ordinary_key (dict_keys (manifest_dependencies st)) = true ->
  count (is_fetch_of name) (snd (refresh compare valid isPlugin isCompatible w false st))
  = (if existsb (String.eqb name) (dict_keys (manifest_dependencies st))
        && negb (workspace_linked w name)
     then 1%nat else 0%nat)
  /\ (In (EvHttpGet name) (snd (refresh compare valid isPlugin isCompatible w false st)) ->
      ordinary_key name = true).
Proof.
  intros Ho.
  assert (Hc : count (is_fetch_of name)
                 (snd (refresh compare valid isPlugin isCompatible w false st))
               = if existsb (String.eqb name) (dict_keys (manifest_dependencies st))
                    && negb (workspace_linked w name)
                 then 1%nat else 0%nat).
  { unfold refresh, _getDeps.
    pose proof (loop_fetch_count compare valid isPlugin isCompatible w
                  (valueMap (manifest_dependencies (cleared st))
                     (fun request _ => new_dependency (normalize_request request)))
                  (cleared st) name) as H.
    destruct (getDeps_loop compare valid isPlugin isCompatible w _ (cleared st))
      as [[d st'] ev]. cbn [fst snd app] in *. rewrite H.
    change (pkgTasks (cleared st)) with (∅ : gmap string nat). rewrite lookup_empty.
    change (manifest_dependencies (cleared st)) with (manifest_dependencies st).
    rewrite existsb_keys_valueMap. reflexivity. }
  split; [exact Hc|]. intros Hin.
  destruct (existsb (String.eqb name) (dict_keys (manifest_dependencies st))) eqn:E.
  - apply existsb_exists in E as (k & Hk & He). apply String.eqb_eq in He. subst k.
    rewrite forallb_forall in Ho. apply Ho. exact Hk.
  - cbn [andb] in Hc. exfalso.
    assert (Hf : In (EvHttpGet name)
                   (List.filter (is_fetch_of name)
                      (snd (refresh compare valid isPlugin isCompatible w false st)))).
    { apply filter_In. split; [exact Hin | apply String.eqb_refl]. }
    unfold count in Hc.
    destruct (List.filter (is_fetch_of name)
                (snd (refresh compare valid isPlugin isCompatible w false st)));
      [destruct Hf | discriminate].
Qed.

Lemma refresh_requests_once_per_dependency_witness :
  count (is_fetch_of "a")
    (snd (refresh semver_compare semver_valid (fun _ => false) (fun _ => true)
            (two_packages "1.0.0") false two_packages_installer)) = 1%nat
  /\ count (is_fetch_of "left-pad")
       (snd (refresh semver_compare semver_valid (fun _ => false) (fun _ => true)
               (two_packages "1.0.0") false two_packages_installer)) = 0%nat.
Proof.
  split;
    [apply (refresh_requests_once_per_dependency semver_compare semver_valid
              (fun _ => false) (fun _ => true) (two_packages "1.0.0")
              two_packages_installer "a")
    |apply (refresh_requests_once_per_dependency semver_compare semver_valid
              (fun _ => false) (fun _ => true) (two_packages "1.0.0")
              two_packages_installer "left-pad")]; reflexivity.
Defined.

(** [getDeps] is memoized: once it has run, a later call returns the
    same snapshot without any request, also when the manifest has been
    overridden and the world has changed in between. *)
Theorem getDeps_memoized
    (compare : string -> string -> Z) (valid : string -> bool)
    (localeCompare : string -> string -> Z)
    (isPlugin : string -> bool) (isCompatible : RemotePackage -> bool)
    (w w' : World) (deps : Dict string) (st : Installer) :
  let first := getDeps compare valid isPlugin isCompatible w st in
  let st1 := fst (override localeCompare deps (snd (fst first))) in
  getDeps compare valid isPlugin isCompatible w' st1 = (fst (fst first), st1, []).
Proof.
  intros first st1.
  assert (H : depTask st1 = Some (fst (fst first))).
  { subst st1 first. unfold getDeps. destruct (depTask st) as [d|] eqn:E.
    - cbn. exact E.
    - destruct (_getDeps compare valid isPlugin isCompatible w st) as [[d st'] ev].
      reflexivity. }
  unfold getDeps. rewrite H. reflexivity.
Qed.


(** ** Invariants of the tables *)

Section TableFacts.
Variable compare : string -> string -> Z.
Variable isPlugin : string -> bool.
Variable isCompatible : RemotePackage -> bool.

Local Abbreviation step_ := (step compare isPlugin isCompatible).
Local Abbreviation run_ := (run compare isPlugin isCompatible).

Lemma append_task_wf st name r :
  tasks_wf st ->
  (forall n, r = Pending n -> n = name) ->
  tasks_wf (with_tasks (<[name := length (promises st)]> (pkgTasks st))
              (promises st ++ [r]) st).
Proof.
  intros Hwf Hr name' pid' Hl. cbn [with_tasks pkgTasks promises] in *.
  rewrite length_app. cbn [length].
  destruct (decide (name = name')) as [<-|Hn].
  - rewrite lookup_insert_eq in Hl. injection Hl as <-. split; [lia|].
    intros m Hq. rewrite lookup_app_r in Hq by lia.
    rewrite Nat.sub_diag in Hq. simpl in Hq. apply Hr. congruence.
  - rewrite lookup_insert_ne in Hl by assumption.
    destruct (Hwf name' pid' Hl) as [Hlt Hpn]. split; [lia|].
    intros m Hq. rewrite lookup_app_l in Hq by assumption. auto.
Qed.

Lemma step_invariants op st :
  tasks_wf st -> tempCache st ⊆ fullCache st ->
  tasks_wf (fst (step_ op st)) /\ tempCache (fst (step_ op st)) ⊆ fullCache (fst (step_ op st)).
Proof.
  intros Hwf Hsub. destruct op as [n|n versions|pid response| |]; cbn [step].
  - destruct (pkgTasks st !! n) as [p|] eqn:E.
    + rewrite (getPackage_present _ _ _ E). split; assumption.
    + rewrite (getPackage_absent _ _ E). cbn [fst]. split; [|exact Hsub].
      apply append_task_wf; [exact Hwf | congruence].
  - unfold setPackage. cbn [fst]. split.
    + apply (append_task_wf
               (with_caches (<[n := getVersions compare versions]> (fullCache st))
                  (<[n := getVersions compare versions]> (tempCache st)) st));
        [exact Hwf | discriminate].
    + cbn. apply insert_mono. exact Hsub.
  - destruct (promises st !! pid) as [[n|v]|] eqn:E; try (split; assumption).
    destruct (resume_state compare isPlugin isCompatible pid n response st) as [Hts Hps].
    assert (Hc : tempCache (snd (fst (_getPackage_resume compare isPlugin isCompatible
                                         pid n response st)))
                 ⊆ fullCache (snd (fst (_getPackage_resume compare isPlugin isCompatible
                                          pid n response st)))).
    { destruct response; cbn; [apply insert_mono|]; exact Hsub. }
    destruct (_getPackage_resume compare isPlugin isCompatible pid n response st)
      as [[v st'] ev]. cbn [fst snd] in *. split; [|exact Hc].
    intros name' pid' Hl. rewrite Hts in Hl. rewrite Hps, length_insert.
    destruct (Hwf name' pid' Hl) as [Hlt Hpn]. split; [exact Hlt|].
    intros m Hq. destruct (decide (pid = pid')) as [<-|Hne].
    + rewrite list_lookup_insert_eq in Hq by assumption. discriminate.
    + rewrite list_lookup_insert_ne in Hq by assumption. auto.
  - cbn. split; [exact Hwf | apply map_empty_subseteq].
  - cbn. split; [apply (cleared_fetched st) | apply map_empty_subseteq].
Qed.

Lemma run_invariants ops st :
  tasks_wf st -> tempCache st ⊆ fullCache st ->
  tasks_wf (fst (run_ ops st)) /\ tempCache (fst (run_ ops st)) ⊆ fullCache (fst (run_ ops st)).
Proof.
  revert st. induction ops as [|op ops IH]; intros st Hwf Hsub; [split; assumption|].
  cbn [run]. destruct (step_invariants op st Hwf Hsub) as [H1 H2].
  destruct (step_ op st) as [st1 ev1]. cbn [fst] in *.
  specialize (IH st1 H1 H2). destruct (run_ ops st1) as [st2 ev2]. exact IH.
Qed.
End TableFacts.

(** Whatever calls, responses, timer ticks and invalidations follow one
    another, the delta cache stays contained in the full cache, every
    task of the table points to a promise of the heap, and a pending
    task is filed under the name it fetches. *)
Theorem tables_stay_consistent
    (compare : string -> string -> Z)
    (isPlugin : string -> bool) (isCompatible : RemotePackage -> bool)
    (ops : list Op) (st : Installer) :
  tasks_wf st -> tempCache st ⊆ fullCache st ->
  let st' := fst (run compare isPlugin isCompatible ops st) in
  tasks_wf st' /\ tempCache st' ⊆ fullCache st'.
Proof. intros Hwf Hsub. apply run_invariants; assumption. Qed.

Lemma tables_stay_consistent_witness :
  let st' := fst (run semver_compare (fun _ => false) (fun _ => true)
                    [OpGetPackage "a"; OpSettle 0 (Some example_versions); OpFlush;
                     OpSetPackage "b" []; OpInvalidate; OpGetPackage "a"]
                    empty_installer) in
  tasks_wf st' /\ tempCache st' ⊆ fullCache st'.
Proof.
  apply (tables_stay_consistent semver_compare (fun _ => false) (fun _ => true)).
  - intros name pid H. cbn in H. rewrite lookup_empty in H. discriminate.
  - cbn. reflexivity.
Defined.



(** ** Process runner: what is logged *)

Lemma newline_count_app a b : newline_count (a +:+ b) = (newline_count a + newline_count b)%nat.
Proof.
  induction a as [|c a IH]; [reflexivity|].
  rewrite append_cons. simpl. rewrite IH. lia.
Qed.

Lemma newline_count_none s : has_newline s = false -> newline_count s = 0%nat.
Proof.
  induction s as [|c s IH]; [reflexivity|]. simpl.
  destruct (Ascii.eqb c newline); [discriminate|]. exact IH.
Qed.

Lemma split_lines_length s : length (split_lines s) = S (newline_count s).
Proof.
  induction s as [|c s IH]; [reflexivity|]. rewrite split_lines_cons. simpl newline_count.
  destruct (Ascii.eqb c newline).
  - simpl. rewrite IH. reflexivity.
  - destruct (split_lines s); simpl in *; lia.
Qed.

Lemma on_data_lines (Buffer_toString : Buffer -> string) pending data :
  has_newline pending = false ->
  length (fst (on_data Buffer_toString pending data)) = newline_count (Buffer_toString data)
  /\ has_newline (snd (on_data Buffer_toString pending data)) = false.
Proof.
  intros Hp. unfold on_data. cbn [fst snd]. set (text := Buffer_toString data). split.
  - pose proof (split_lines_length (pending +:+ text)) as H.
    rewrite newline_count_app, (newline_count_none _ Hp) in H.
    pose proof (split_lines_nonempty (pending +:+ text)) as Hne.
    destruct (split_lines (pending +:+ text)) as [|h t] using rev_ind; [congruence|].
    rewrite removelast_last. rewrite length_app in H. simpl in H. lia.
  - pose proof (split_lines_pieces (pending +:+ text)) as Hf.
    rewrite List.Forall_forall in Hf. apply Hf.
    apply last_In_nonempty, split_lines_nonempty.
Qed.

Lemma handle_data_length (Buffer_toString : Buffer -> string) ds stdout stderr :
  has_newline stdout = false -> has_newline stderr = false ->
  length (handle_data Buffer_toString stdout stderr ds) = delivered_newlines Buffer_toString ds.
Proof.
  revert stdout stderr. induction ds as [|[[] data] rest IH]; intros stdout stderr Ho He;
    [reflexivity|..]; cbn [handle_data]; unfold delivered_newlines; cbn [map list_sum snd].
  - destruct (on_data_lines Buffer_toString stdout data Ho) as [Hl Hp].
    destruct (on_data Buffer_toString stdout data) as [lines stdout']. cbn [fst snd] in *.
    rewrite length_app, length_map, Hl, (IH stdout' stderr Hp He). reflexivity.
  - destruct (on_data_lines Buffer_toString stderr data He) as [Hl Hp].
    destruct (on_data Buffer_toString stderr data) as [lines stderr']. cbn [fst snd] in *.
    rewrite length_app, length_map, Hl, (IH stdout stderr' Ho Hp). reflexivity.
Qed.

(** In plain-text mode [exec] logs one entry for each line break the
    process delivers, and nothing else: the lines of the standard
    output at level info and those of the standard error at level warn,
    in the order in which they are completed.  What follows the last
    line break of a stream is never logged. *)
Theorem exec_plain_text_logs
    (JSON_parse : string -> option YarnLog)
    (Buffer_toString : Buffer -> string)
    (cfg : Config) (child : ChildProcess) (args : list string) :
  useJson cfg = false ->
  snd (exec JSON_parse Buffer_toString cfg child args)
  = EvSpawn (agent_name_or_npm cfg) (exec_args cfg args)
      :: map plain_log (handle_data Buffer_toString EmptyString EmptyString (deliveries child))
  /\ count is_log (snd (exec JSON_parse Buffer_toString cfg child args))
     = delivered_newlines Buffer_toString (deliveries child).
Proof.
  intros Hj. rewrite exec_events, Hj.
  assert (Hm : forall lines,
            flat_map (log_line JSON_parse false) lines = map plain_log lines).
  { induction lines as [|[[] line] lines IH]; [reflexivity|..]; simpl; rewrite IH; reflexivity. }
  rewrite Hm. split; [reflexivity|].
  unfold count. cbn [List.filter is_log].
  rewrite <- (handle_data_length Buffer_toString (deliveries child) EmptyString EmptyString
                eq_refl eq_refl).
  induction (handle_data Buffer_toString EmptyString EmptyString (deliveries child)) as [|sl l IH];
    [reflexivity|]. simpl. rewrite IH. reflexivity.
Qed.

Lemma exec_plain_text_logs_witness :
  count is_log (snd (exec (fun _ => None) utf8_decode no_agent
                       {| deliveries := [(Stdout, bytes_of "added 1 pack");
                                         (Stderr, bytes_of "warn");
                                         (Stdout, bytes_of ("age" +:+ String newline "done"))];
                          outcome := Exited 0; after := empty_world |} []))
  = 1%nat.
Proof.
  apply (exec_plain_text_logs (fun _ => None) utf8_decode no_agent
           {| deliveries := [(Stdout, bytes_of "added 1 pack"); (Stderr, bytes_of "warn");
                             (Stdout, bytes_of ("age" +:+ String newline "done"))];
              outcome := Exited 0; after := empty_world |} []).
  reflexivity.
Defined.

(** ** Dictionaries with distinct keys *)

Section DictNoDup.
Context {V : Type}.
Implicit Types (d : Dict V) (k : string) (v : V).

Lemma dict_get_In d k v : NoDup (dict_keys d) -> (dict_get d k = Some v <-> In (k, v) d).
Proof.
  induction d as [|[k' v'] d IH]; simpl; intros Hnd.
  - split; [discriminate | tauto].
  - apply NoDup_cons in Hnd as [Hk Hnd]. destruct (String.eqb_spec k' k) as [->|Hne].
    + split.
      * intros [= ->]. left. reflexivity.
      * intros [[= ->]|Hin]; [reflexivity|]. exfalso. apply Hk.
        apply list_elem_of_In. apply (in_map fst) in Hin. exact Hin.
    + rewrite (IH Hnd). split; [tauto|]. intros [[= ? ?]|Hin]; [congruence | exact Hin].
Qed.

Lemma dict_get_same_elements d1 d2 k :
  NoDup (dict_keys d1) -> NoDup (dict_keys d2) ->
  (forall e, In e d1 <-> In e d2) ->
  dict_get d1 k = dict_get d2 k.
Proof.
  intros H1 H2 He. destruct (dict_get d1 k) as [v|] eqn:E1.
  - symmetry. apply (dict_get_In d2 k v H2), He, (dict_get_In d1 k v H1). exact E1.
  - destruct (dict_get d2 k) as [v|] eqn:E2; [|reflexivity].
    apply (dict_get_In d2 k v H2), He, (dict_get_In d1 k v H1) in E2. congruence.
Qed.

Lemma dict_set_fresh d k v : ~ In k (dict_keys d) -> dict_set d k v = d ++ [(k, v)].
Proof.
  induction d as [|[k' v'] d IH]; simpl; intros Hn; [reflexivity|].
  destruct (String.eqb_spec k' k) as [->|]; [tauto|]. rewrite IH by tauto. reflexivity.
Qed.

Lemma fold_set_distinct (entries : list (string * V)) d :
  NoDup (dict_keys (d ++ entries)) ->
  fold_left (fun d e => dict_set d (fst e) (snd e)) entries d = d ++ entries.
Proof.
  revert d. induction entries as [|[k v] es IH]; intros d Hnd; simpl.
  - rewrite app_nil_r. reflexivity.
  - assert (Hk : ~ In k (dict_keys d)).
    { unfold dict_keys in *. rewrite map_app in Hnd. apply NoDup_app in Hnd as (_ & Hd & _).
      intros Hin. apply list_elem_of_In in Hin. apply (Hd k Hin). left. }
    rewrite (dict_set_fresh d k v Hk), IH; rewrite <- app_assoc; [reflexivity | exact Hnd].
Qed.

(** [Object.fromEntries] of entries with distinct keys is the list of
    the entries. *)
Lemma fromEntries_distinct (entries : list (string * V)) :
  NoDup (dict_keys entries) -> Object_fromEntries entries = entries.
Proof. intros H. unfold Object_fromEntries. rewrite fold_set_distinct; [reflexivity | exact H]. Qed.

Lemma dict_delete_keys_In d k k' :
  In k' (dict_keys (dict_delete d k)) -> In k' (dict_keys d).
Proof.
  induction d as [|[k0 v0] d IH]; simpl; [tauto|].
  destruct (String.eqb k0 k); simpl; tauto.
Qed.

Lemma dict_delete_NoDup d k : NoDup (dict_keys d) -> NoDup (dict_keys (dict_delete d k)).
Proof.
  induction d as [|[k0 v0] d IH]; simpl; intros Hnd; [constructor|].
  apply NoDup_cons in Hnd as [Hk Hnd]. destruct (String.eqb k0 k); [auto|].
  simpl. apply NoDup_cons. split; [|auto].
  intros Hin. apply Hk. apply list_elem_of_In. apply list_elem_of_In in Hin.
  eapply dict_delete_keys_In. exact Hin.
Qed.

Lemma dict_set_NoDup d k v : NoDup (dict_keys d) -> NoDup (dict_keys (dict_set d k v)).
Proof.
  intros Hnd. destruct (in_dec string_dec k (dict_keys d)) as [Hin|Hn].
  - rewrite (dict_keys_set_in _ _ _ Hin). exact Hnd.
  - rewrite (dict_keys_set_notin _ _ _ Hn). apply NoDup_app. split; [exact Hnd|].
    split; [|apply NoDup_singleton].
    intros x Hx Hx'. apply list_elem_of_In in Hx. apply list_elem_of_singleton in Hx'.
    subst. tauto.
Qed.

Lemma js_sort_Permutation (cmp : string * V -> string * V -> Z) (l : list (string * V)) :
  js_sort cmp l ≡ₚ l.
Proof.
  induction l as [|x l IH]; [reflexivity|]. simpl. rewrite <- IH at 2.
  generalize (js_sort cmp l) as s. clear. induction s as [|y s IH]; [reflexivity|].
  simpl. destruct (0 <? cmp x y); [|reflexivity].
  rewrite IH. apply Permutation_swap.
Qed.

Lemma js_sort_distinct (cmp : string * V -> string * V -> Z) (l : list (string * V)) :
  NoDup (dict_keys l) -> NoDup (dict_keys (js_sort cmp l)).
Proof. unfold dict_keys. rewrite js_sort_Permutation. tauto. Qed.

(** Sorting entries with distinct keys and rebuilding the object
    changes no lookup. *)
Lemma dict_get_sorted (cmp : string * V -> string * V -> Z) (l : list (string * V)) k :
  NoDup (dict_keys l) ->
  dict_get (Object_fromEntries (js_sort cmp l)) k = dict_get l k.
Proof.
  intros Hnd. rewrite fromEntries_distinct by (apply js_sort_distinct; exact Hnd).
  apply dict_get_same_elements; [apply js_sort_distinct; exact Hnd | exact Hnd |].
  intros e. apply js_sort_In.
Qed.
End DictNoDup.

Lemma apply_overrides_NoDup deps names m :
  NoDup (dict_keys m) -> NoDup (dict_keys (apply_overrides deps names m)).
Proof.
  revert m. induction names as [|key rest IH]; intros m Hnd; [exact Hnd|].
  simpl. apply IH. destruct (truthy_string _);
    [apply dict_set_NoDup | apply dict_delete_NoDup]; exact Hnd.
Qed.

(** ** Manifest override *)

(** After [override(deps)], looking a name up in the manifest gives:
    for an overridden name, its new range, or nothing when the new range
    is empty (also when the name was not declared before); for any other
    name, what it gave before.  The keys stay distinct. *)
Theorem override_lookup
    (localeCompare : string -> string -> Z) (deps : Dict string) (st : Installer) :
  NoDup (dict_keys (manifest_dependencies st)) ->
  let m' := manifest_dependencies (fst (override localeCompare deps st)) in
  NoDup (dict_keys m')
  /\ forall name,
       dict_get m' name
       = if existsb (String.eqb name) (dict_keys deps)
         then (let range := default EmptyString (dict_get deps name) in
               if truthy_string range then Some range else None)
         else dict_get (manifest_dependencies st) name.
Proof.
  intros Hnd m'. subst m'. unfold override. cbn [fst with_manifest manifest_dependencies].
  pose proof (apply_overrides_NoDup deps (dict_keys deps) _ Hnd) as Hd1. split.
  - rewrite fromEntries_distinct by (apply js_sort_distinct; exact Hd1).
    apply js_sort_distinct. exact Hd1.
  - intros name. rewrite dict_get_sorted by exact Hd1.
    destruct (existsb (String.eqb name) (dict_keys deps)) eqn:E.
    + apply apply_overrides_get. apply existsb_exists in E as (k & Hk & He).
      apply String.eqb_eq in He. subst k. exact Hk.
    + apply apply_overrides_other. intros Hin.
      assert (existsb (String.eqb name) (dict_keys deps) = true); [|congruence].
      apply existsb_exists. exists name. split; [exact Hin | apply String.eqb_refl].
Qed.

Lemma override_lookup_witness :
  dict_get (manifest_dependencies
              (fst (override code_order [("b", "^2.0.0"); ("ghost", EmptyString)]
                      two_packages_installer))) "b" = Some "^2.0.0"
  /\ dict_get (manifest_dependencies
                 (fst (override code_order [("b", "^2.0.0"); ("ghost", EmptyString)]
                         two_packages_installer))) "ghost" = None
  /\ dict_get (manifest_dependencies
                 (fst (override code_order [("b", "^2.0.0"); ("ghost", EmptyString)]
                         two_packages_installer))) "a" = Some "^1.0.0".
Proof.
  assert (Hnd : NoDup (dict_keys (manifest_dependencies two_packages_installer)))
    by (apply (bool_decide_unpack _); vm_compute; exact I).
  destruct (override_lookup code_order [("b", "^2.0.0"); ("ghost", EmptyString)]
              two_packages_installer Hnd) as [_ H].
  rewrite !H. repeat split.
Defined.

(** The manifest that [override] writes is the one it keeps in memory,
    and when the names are ordinary keys and the comparison is
    consistent, its names are in order. *)
Theorem override_writes_sorted_manifest
    (localeCompare : string -> string -> Z)
    (cmp_total : forall a b, 0 < localeCompare a b -> localeCompare b a <= 0)
    (cmp_trans : forall a b c,
        localeCompare a b <= 0 -> localeCompare b c <= 0 -> localeCompare a c <= 0)
    (deps : Dict string) (st : Installer) :
  forallb ordinary_key (dict_keys (manifest_dependencies st)) = true ->
  forallb ordinary_key (dict_keys deps) = true ->
  let m' := manifest_dependencies (fst (override localeCompare deps st)) in
  snd (override localeCompare deps st) = [EvWriteFile m']
  /\ StronglySorted (fun a b => localeCompare a b <= 0) (dict_keys m')
  /\ forallb ordinary_key (dict_keys m') = true.
Proof.
  intros Hm Hd m'. split; [reflexivity|]. subst m'. unfold override.
  cbn [fst with_manifest manifest_dependencies]. split.
  - apply fold_set_keys_sorted. simpl.
    apply (StronglySorted_fmap fst (fun x y => localeCompare (fst x) (fst y) <= 0)); [auto|].
    apply js_sort_sorted; eauto.
  - apply forallb_forall. intros k Hk.
    rewrite forallb_forall in Hm. rewrite forallb_forall in Hd.
    apply (override_keys localeCompare deps st) in Hk as [Hk|Hk]; auto.
Qed.

Lemma override_writes_sorted_manifest_witness :
  StronglySorted (fun a b => length_order a b <= 0)
    (dict_keys (manifest_dependencies
                  (fst (override length_order [("left-pad", "^1.0.0"); ("a", EmptyString)]
                          two_packages_installer)))).
Proof.
  apply (override_writes_sorted_manifest length_order);
    [unfold length_order; intros; lia | unfold length_order; intros; lia
     | reflexivity | reflexivity].
Defined.

(** ** Version cache: lookup *)

(** When the versions of a list are distinct, the mapping built by
    [getVersions] gives for each of them the metadata of its record, and
    nothing for any other version. *)
Theorem getVersions_lookup
    (compare : string -> string -> Z) (versions : list RemotePackage) :
  NoDup (map version versions) ->
  Forall (fun r => dict_get (getVersions compare versions) (version r) = Some (pick r))
    versions
  /\ forall v, ~ In v (map version versions) -> dict_get (getVersions compare versions) v = None.
Proof.
  intros Hnd. unfold getVersions.
  set (entries := map (fun item => (version item, pick item)) versions).
  assert (Hk : dict_keys entries = map version versions).
  { unfold dict_keys, entries. rewrite map_map. reflexivity. }
  assert (Hd : NoDup (dict_keys entries)) by (rewrite Hk; exact Hnd).
  split.
  - apply List.Forall_forall. intros r Hr. rewrite dict_get_sorted by exact Hd.
    apply dict_get_In; [exact Hd|]. apply in_map_iff. eauto.
  - intros v Hv. rewrite dict_get_sorted by exact Hd.
    apply dict_get_None. rewrite Hk. exact Hv.
Qed.

Lemma getVersions_lookup_witness :
  dict_get (getVersions semver_compare example_versions) "1.10.0" = Some (pick (remote "1.10.0"))
  /\ dict_get (getVersions semver_compare example_versions) "3.0.0" = None.
Proof.
  assert (Hnd : NoDup (map version example_versions))
    by (apply (bool_decide_unpack _); vm_compute; exact I).
  destruct (getVersions_lookup semver_compare example_versions Hnd) as [Hf Hn].
  split.
  - rewrite List.Forall_forall in Hf. apply (Hf (remote "1.10.0")). simpl. tauto.
  - apply Hn. simpl. intuition discriminate.
Defined.

(** ** Install: the manifest and the console *)

Lemma fetch_event_not_refreshData e : fetch_event e = true -> is_refreshData e = false.
Proof. destruct e; simpl; congruence. Qed.

Lemma reload_entry_no_refreshData w newDeps localDeps name :
  count is_refreshData (reload_entry w newDeps localDeps name) = 0%nat.
Proof.
  unfold reload_entry. destruct (dict_get newDeps name) as [newDep|]; [|reflexivity].
  destruct (truthy_opt_bool _); [reflexivity|].
  destruct (opt_string_eqb _ _); [reflexivity|].
  destruct (require_cache w name); reflexivity.
Qed.

(** [install] first writes the overridden manifest; the override stays
    in place whatever the outcome (a failed run of the package manager
    does not undo it); and the console is asked to refresh once when the
    result is 0 and not at all otherwise. *)
Theorem install_keeps_override
    (compare : string -> string -> Z) (valid : string -> bool)
    (satisfies : string -> string -> bool) (localeCompare : string -> string -> Z)
    (isPlugin : string -> bool) (isCompatible : RemotePackage -> bool)
    (JSON_parse : string -> option YarnLog)
    (Buffer_toString : Buffer -> string)
    (cfg : Config) (w : World) (child : ChildProcess)
    (deps : Dict string) (forced : bool) (st : Installer) :
  let result := install compare valid satisfies localeCompare isPlugin isCompatible
                  JSON_parse Buffer_toString cfg w child deps forced st in
  let m' := manifest_dependencies (fst (override localeCompare deps st)) in
  manifest_dependencies (snd (fst result)) = m'
  /\ head (snd result) = Some (EvWriteFile m')
  /\ count is_refreshData (snd result) = if fst (fst result) =? 0 then 1%nat else 0%nat.
Proof.
  intros result m'. subst result. rewrite install_code_zero, install_eq.
  set (w' := if install_forced satisfies w deps forced then after child else w).
  destruct (refresh_fresh compare valid isPlugin isCompatible w'
              (fst (override localeCompare deps st))) as (_ & _ & Hm & _).
  assert (Hlog : count is_refreshData (snd (_install JSON_parse Buffer_toString cfg child)) = 0%nat).
  { unfold _install. rewrite exec_events. unfold count. cbn [List.filter is_refreshData].
    fold (count is_refreshData (flat_map (log_line JSON_parse (useJson cfg))
            (handle_data Buffer_toString EmptyString EmptyString (deliveries child)))).
    eapply count_nil_of_Forall; [apply fetch_event_not_refreshData | apply logs_events]. }
  assert (Hrf : count is_refreshData
                  (snd (refresh compare valid isPlugin isCompatible w' false
                          (fst (override localeCompare deps st)))) = 0%nat).
  { eapply count_nil_of_Forall; [apply fetch_event_not_refreshData | apply refresh_events]. }
  assert (Hrl : forall newDeps localDeps names,
            count is_refreshData (flat_map (reload_entry w' newDeps localDeps) names) = 0%nat).
  { intros newDeps localDeps names. induction names as [|n names IH]; [reflexivity|].
    simpl. rewrite count_app, reload_entry_no_refreshData, IH. reflexivity. }
  assert (Hwr : count is_refreshData (snd (override localeCompare deps st)) = 0%nat)
    by reflexivity.
  destruct (install_forced satisfies w deps forced); cbn [andb].
  - destruct (truthy_code (exit_code child)); cbn [negb fst snd].
    + split; [reflexivity|]. split; [reflexivity|].
      rewrite !count_app, Hwr, Hlog. reflexivity.
    + split; [exact Hm|]. split; [reflexivity|].
      rewrite !count_app, Hwr, Hlog, Hrf, Hrl. reflexivity.
  - cbn [negb fst snd]. split; [exact Hm|]. split; [reflexivity|].
    rewrite !count_app, Hwr, Hrf, Hrl. reflexivity.
Qed.

(** An override that removes a dependency (empty range), or that names
    a package with no local installation, always runs the package
    manager, once, unless the package is workspace-linked. *)
Theorem install_forced_by_removal_or_missing
    (compare : string -> string -> Z) (valid : string -> bool)
    (satisfies : string -> string -> bool) (localeCompare : string -> string -> Z)
    (isPlugin : string -> bool) (isCompatible : RemotePackage -> bool)
    (JSON_parse : string -> option YarnLog)
    (Buffer_toString : Buffer -> string)
    (cfg : Config) (w : World) (child : ChildProcess)
    (deps : Dict string) (forced : bool) (st : Installer) (name range : string) :
  dict_get deps name = Some range ->
  workspace_linked w name = false ->
  range = EmptyString \/ resolved_version w name = None ->
  count is_spawn (snd (install compare valid satisfies localeCompare isPlugin isCompatible
                         JSON_parse Buffer_toString cfg w child deps forced st)) = 1%nat.
Proof.
  intros Hd Hw Hr. unfold count. rewrite install_spawns, _install_spawns.
  assert (Hf : install_forced satisfies w deps forced = true); [|rewrite Hf; reflexivity].
  unfold install_forced. apply orb_true_iff. right. apply existsb_exists.
  exists name. split; [eapply dict_get_Some_In; exact Hd|].
  unfold needs_install, range_satisfied. rewrite Hd, Hw. cbn [orb].
  destruct Hr as [Hr|Hr]; rewrite Hr; [destruct (resolved_version w name)|]; reflexivity.
Qed.

Lemma install_forced_by_removal_or_missing_witness :
  count is_spawn (snd (example_install no_agent left_pad_world (exits 0 left_pad_world)
                         [("ghost", EmptyString)] false empty_installer)) = 1%nat.
Proof.
  apply (install_forced_by_removal_or_missing semver_compare (fun _ => true)
           caret_satisfies code_order (fun _ => false) (fun _ => true) (fun _ => None) utf8_decode
           no_agent left_pad_world (exits 0 left_pad_world)
           [("ghost", EmptyString)] false empty_installer "ghost" EmptyString);
    [reflexivity | reflexivity | left; reflexivity].
Defined.

(** When [install] returns 0, the names involved are ordinary keys and
    the registry gives proper versions for the declared ones, the
    snapshot it leaves lists the dependencies of the overridden
    manifest, each with the record read off the world as it is then: the
    one the package manager has left when it was run, the unchanged one
    otherwise. *)
Theorem install_snapshot
    (compare : string -> string -> Z) (valid : string -> bool)
    (satisfies : string -> string -> bool) (localeCompare : string -> string -> Z)
    (isPlugin : string -> bool) (isCompatible : RemotePackage -> bool)
    (JSON_parse : string -> option YarnLog)
    (Buffer_toString : Buffer -> string)
    (cfg : Config) (w : World) (child : ChildProcess)
    (deps : Dict string) (forced : bool) (st : Installer) :
  let result := install compare valid satisfies localeCompare isPlugin isCompatible
                  JSON_parse Buffer_toString cfg w child deps forced st in
  let w' := if install_forced satisfies w deps forced then after child else w in
  let m' := manifest_dependencies (fst (override localeCompare deps st)) in
  forallb ordinary_key (dict_keys (manifest_dependencies st)) = true ->
  forallb ordinary_key (dict_keys deps) = true ->
  forallb (well_versioned valid w') (dict_keys m') = true ->
  fst (fst result) = 0 ->
  forallb (fetchable valid w') (dict_keys m') = true
  /\ depTask (snd (fst result))
     = Some (map (expected_record compare valid isPlugin isCompatible w') m').
Proof.
  intros result w' m' Hm Hd Hv Hz. subst result. split.
  - apply forallb_forall. intros k Hk. unfold fetchable.
    rewrite forallb_forall in Hm. rewrite forallb_forall in Hd. rewrite forallb_forall in Hv.
    rewrite (Hv k Hk), andb_true_r.
    apply (override_keys localeCompare deps st) in Hk as [Hk|Hk]; auto.
  - apply Z.eqb_eq in Hz. rewrite install_code_zero in Hz. apply negb_true_iff in Hz.
    rewrite install_eq. fold w'. rewrite Hz. cbn [fst snd].
    apply (refresh_snapshot_value compare valid isPlugin isCompatible w' false
             (fst (override localeCompare deps st))).
Qed.

Lemma install_snapshot_witness :
  depTask (snd (fst (install semver_compare semver_valid caret_satisfies code_order
                       (fun _ => false) (fun _ => true) (fun _ => None) utf8_decode
                       no_agent registry_world (exits 0 registry_world)
                       [("left-pad", "^1.0.0")] false empty_installer)))
  = Some [("left-pad",
           {| request := "1.0.0"; resolved := Some "1.0.5"; workspace := Some false;
              invalid := None; latest := Some "2.0.0" |})].
Proof.
  destruct (install_snapshot semver_compare semver_valid caret_satisfies code_order
              (fun _ => false) (fun _ => true) (fun _ => None) utf8_decode no_agent
              registry_world (exits 0 registry_world) [("left-pad", "^1.0.0")] false
              empty_installer) as [_ H]; [reflexivity..|].
  rewrite H. reflexivity.
Defined.
